(** * mmdbmeld: sources, value coercion and document assembly

    A shallow embedding of [source.go] (package [mmdbmeld]): the
    coercion of raw source values into [mmdbtype] values
    ([SourceValue.ToMMDBType], [toMMDBType], [toMMDBArray],
    [roundToDecimalPlaces]), the assembly of a nested map from dotted keys
    ([SourceEntry.ToMMDBMap]) and the dispatch of input files
    ([LoadSources]).

    Go strings are byte strings: they are modelled by [string] (a list of
    8-bit [ascii]).  Go integers are modelled by [Z] with the wrap-around
    of conversions written out.  Go [float64] values are modelled by
    [spec_float] at precision 53 and maximal exponent 1024.  A function
    returning [(T, error)] is modelled by a function into [result T]. *)

From Stdlib Require Import ZArith String Ascii List Bool Lia.
From Stdlib Require Import Floats.SpecFloat.
From stdpp Require Import base option list gmap strings.

Set Warnings "-register-all".
Local Open Scope Z_scope.

(** ** Bytes and byte strings *)

Definition byteZ (c : ascii) : Z := Z.of_N (N_of_ascii c).

Definition isDigit (c : ascii) : bool :=
  (byteZ "0" <=? byteZ c) && (byteZ c <=? byteZ "9").

(** [lower(c)] of package strconv: [c | ('x' - 'X')]. *)
Definition lower (c : ascii) : Z := Z.lor (byteZ c) 32.

Definition isLowerLetter (z : Z) : bool :=
  (byteZ "a" <=? z) && (z <=? byteZ "z").

Definition bytes (s : string) : list ascii := list_ascii_of_string s.

Definition len (s : string) : nat := String.length s.

(** [s[i:]] *)
Definition sliceFrom (i : nat) (s : string) : string :=
  substring i (len s - i) s.

(** ** Package strings *)

Module strings.

(** [strings.HasPrefix(s, prefix)]:
    [len(s) >= len(prefix) && s[:len(prefix)] == prefix]. *)
Definition HasPrefix (s prefix : string) : bool :=
  (len prefix <=? len s)%nat && String.eqb (substring 0 (len prefix) s) prefix.

(** [strings.HasSuffix(s, suffix)]:
    [len(s) >= len(suffix) && s[len(s)-len(suffix):] == suffix]. *)
Definition HasSuffix (s suffix : string) : bool :=
  (len suffix <=? len s)%nat &&
  String.eqb (sliceFrom (len s - len suffix) s) suffix.

(** [strings.CutPrefix(s, prefix)]: [s] without the leading [prefix] and
    [true], or [s] and [false] when [s] does not start with [prefix]. *)
Definition CutPrefix (s prefix : string) : string * bool :=
  if HasPrefix s prefix then (sliceFrom (len prefix) s, true) else (s, false).

(** [strings.Split(s, sep)] for a separator of one byte: the substrings
    between the occurrences of [sep]; a string with [n] separators yields
    [n + 1] parts, so the result is never empty. *)
Fixpoint Split (s : string) (sep : ascii) : list string :=
  match s with
  | EmptyString => [EmptyString]
  | String c s' =>
      if Ascii.eqb c sep then EmptyString :: Split s' sep
      else match Split s' sep with
           | part :: parts => String c part :: parts
           | [] => [String c EmptyString]
           end
  end.

(** [strings.Join(elems, sep)] *)
Fixpoint Join (elems : list string) (sep : string) : string :=
  match elems with
  | [] => EmptyString
  | [e] => e
  | e :: es => append e (append sep (Join es sep))
  end.

(** The width in bytes of a white space rune ([unicode.IsSpace]) encoded
    at the head of [bs], or [0] when [bs] does not start with one.  The
    white space runes are U+0009..U+000D, U+0020, U+0085, U+00A0, U+1680,
    U+2000..U+200A, U+2028, U+2029, U+202F, U+205F and U+3000; the lead
    byte of a multi-byte encoding is never a continuation byte, so the
    decoder of [range s] always starts a rune there. *)
Definition spaceWidth (bs : list ascii) : nat :=
  match map byteZ bs with
  | [] => 0%nat
  | b0 :: rest =>
      if ((9 <=? b0) && (b0 <=? 13)) || (b0 =? 32) then 1%nat
      else if b0 =? 194 then
        match rest with
        | b1 :: _ => if (b1 =? 133) || (b1 =? 160) then 2%nat else 0%nat
        | [] => 0%nat
        end
      else if (b0 =? 225) || (b0 =? 226) || (b0 =? 227) then
        match rest with
        | b1 :: b2 :: _ =>
            if (b0 =? 225) && (b1 =? 154) && (b2 =? 128) then 3%nat
            else if (b0 =? 226) && (b1 =? 128) &&
                    (((128 <=? b2) && (b2 <=? 138)) || (b2 =? 168) || (b2 =? 169)
                     || (b2 =? 175)) then 3%nat
            else if (b0 =? 226) && (b1 =? 129) && (b2 =? 159) then 3%nat
            else if (b0 =? 227) && (b1 =? 128) && (b2 =? 128) then 3%nat
            else 0%nat
        | _ => 0%nat
        end
      else 0%nat
  end.

(** The field under construction, kept in reverse, is closed when a white
    space rune or the end of the string is reached; empty fields are not
    produced. *)
Definition closeField (cur : list ascii) : list string :=
  match cur with
  | [] => []
  | _ => [string_of_list_ascii (rev cur)]
  end.

(** The scan of [strings.Fields]: [skip] counts the remaining bytes of the
    white space rune being skipped. *)
Fixpoint fieldsFrom (bs : list ascii) (skip : nat) (cur : list ascii)
  : list string :=
  match bs with
  | [] => closeField cur
  | c :: bs' =>
      match skip with
      | S skip' => fieldsFrom bs' skip' cur
      | O =>
          match spaceWidth bs with
          | O => fieldsFrom bs' O (c :: cur)
          | S w => closeField cur ++ fieldsFrom bs' w []
          end
      end
  end.

(** [strings.Fields(s)]: the maximal runs of bytes of [s] that hold no
    white space rune, in order. *)
Definition Fields (s : string) : list string := fieldsFrom (bytes s) O [].

End strings.

(** ** Errors and results *)

(** The two error kinds of a [strconv.NumError]. *)
Inductive NumErrKind := ErrSyntax | ErrRange.

(** The error values built in [source.go] and in the library functions it
    calls.  [ErrArrayEntry], [ErrTransform] and [ErrLoadInput] wrap their
    cause ([%w]). *)
Inductive error :=
| NumError (Func Num : string) (Err : NumErrKind)
| InvalidByteError (b : ascii)
| ErrLength
| ErrUnsupportedType
| ErrArrayEntry (i : nat) (cause : error)
| ErrTransform (key value type : string) (cause : error)
| ErrSubmap (key submap typeName : string)
| ErrLoadInput (file : string) (cause : error)
| ErrUnsupportedInput (file : string)
| ErrExternal (msg : string)
| ErrPanic.

Inductive result (A : Type) :=
| Ok (a : A)
| Err (e : error).
Arguments Ok {A} a.
Arguments Err {A} e.

Definition isOk {A} (r : result A) : bool :=
  match r with Ok _ => true | Err _ => false end.

(** An error ends the computation: [x ← r; k] is Go's
    [x, err := r; if err != nil { return nil, err }; k]. *)
#[global] Instance result_bind : MBind result := fun A B f r =>
  match r with
  | Ok a => f a
  | Err e => Err e
  end.

(** ** float64 *)

(** A Go [float64] (binary64); a [float32] is a [spec_float] of
    precision 24 and maximal exponent 128. *)
Abbreviation float64 := spec_float (only parsing).

Module f64.

Definition mul : float64 -> float64 -> float64 := SFmul 53 1024.
Definition div : float64 -> float64 -> float64 := SFdiv 53 1024.
Definition add : float64 -> float64 -> float64 := SFadd 53 1024.

(** [x < y] and [x == y] on floats: false as soon as an operand is NaN. *)
Definition ltb : float64 -> float64 -> bool := SFltb.
Definition eqb : float64 -> float64 -> bool := SFeqb.

(** [float64(n)] for an integer [n]. *)
Definition ofInt (n : Z) : float64 := binary_normalize 53 1024 n 0 false.

(** The integer part of a float, [0] for the values that have none. *)
Definition trunc (x : float64) : Z :=
  match x with
  | S754_finite s m e =>
      cond_Zopp s (if 0 <=? e then Zpos m * 2 ^ e else Zpos m / 2 ^ (- e))
  | _ => 0
  end.

(** [float32(x)]: the nearest binary32 value, ties to even. *)
Definition toFloat32 (x : float64) : spec_float :=
  match x with
  | S754_finite s m e => binary_round 24 128 s m e
  | _ => x
  end.

(** [float64(x)] for a [float32] [x]: exact. *)
Definition ofFloat32 (x : spec_float) : float64 :=
  match x with
  | S754_finite s m e => binary_round 53 1024 s m e
  | _ => x
  end.

Definition isInf (x : float64) : bool :=
  match x with S754_infinity _ => true | _ => false end.

Definition isNaN (x : float64) : bool :=
  match x with S754_nan => true | _ => false end.

End f64.

(** ** Package math *)

Module math.

(** The integer nearest to [m / 2^k] for [m >= 0] and [k >= 1], a half
    being rounded up. *)
Definition nearestAway (m k : Z) : Z := (m + 2 ^ (k - 1)) / 2 ^ k.

(** [math.Round(x)]: the nearest integer, rounding half away from zero;
    [Round(±0) = ±0], [Round(±Inf) = ±Inf], [Round(NaN) = NaN].  A float
    [±m·2^e] with [e >= 0] is an integer already. *)
Definition Round (x : float64) : float64 :=
  match x with
  | S754_finite s m e =>
      if 0 <=? e then x
      else binary_normalize 53 1024 (cond_Zopp s (nearestAway (Zpos m) (- e))) 0 s
  | _ => x
  end.

(** The loop of [math.Pow] that multiplies [a1·2^ae] by [(x1·2^xe)^i],
    squaring [x1] at each step; [i] is an [int64], so 64 steps exhaust
    it. *)
Fixpoint powLoop (fuel : nat) (i : Z) (x1 : float64) (xe : Z)
  (a1 : float64) (ae : Z) : float64 * Z :=
  match fuel with
  | O => (a1, ae)
  | S fuel' =>
      if i =? 0 then (a1, ae)
      else if (xe <? - 4096) || (4096 <? xe) then (a1, ae + xe)
      else
        let '(a1, ae) :=
          if Z.odd i then (f64.mul a1 x1, ae + xe) else (a1, ae) in
        let x1 := f64.mul x1 x1 in
        let xe := 2 * xe in
        let '(x1, xe) :=
          if f64.ltb x1 (S754_finite false 1 (-1)) then (f64.add x1 x1, xe - 1)
          else (x1, xe) in
        powLoop fuel' (Z.shiftr i 1) x1 xe a1 ae
  end.

(** [math.Pow(10, float64(n))] for an [int] [n]: [1] for [n = 0], [10] for
    [n = 1]; an exponent of magnitude [2^63] or more overflows or
    underflows; otherwise the product is built by [powLoop] from
    [Frexp(10)], inverted for a negative [n], and scaled by [Ldexp]. *)
Definition Pow10 (n : Z) : float64 :=
  let x := f64.ofInt 10 in
  let y := f64.ofInt n in
  if n =? 0 then S754_finite false 4503599627370496 (-52)
  else if n =? 1 then x
  else
    let yi := Z.abs (f64.trunc y) in
    if 2 ^ 63 <=? yi then
      (if 0 <? n then S754_infinity false else S754_zero false)
    else
      let '(x1, xe) := SFfrexp 53 1024 x in
      let '(a1, ae) :=
        powLoop 64 yi x1 xe (S754_finite false 4503599627370496 (-52)) 0 in
      let '(a1, ae) :=
        if n <? 0
        then (f64.div (S754_finite false 4503599627370496 (-52)) a1, - ae)
        else (a1, ae) in
      SFldexp 53 1024 a1 ae.

End math.

(** ** Reading a float: the helpers of strconv.ParseFloat *)

Module atof.

(** The nearest float of precision [prec] to [±num/den], ties to even;
    an infinity on overflow. *)
Definition ofRatio (prec emax : Z) (neg : bool) (num den : positive)
  : spec_float :=
  let '(q, e, l) := SFdiv_core_binary prec emax (Zpos num) 0 (Zpos den) 0 in
  binary_round_aux prec emax neg q e l.

(** The nearest float to [±m·10^e10]. *)
Definition ofDecimal (prec emax : Z) (neg : bool) (m e10 : Z) : spec_float :=
  match m with
  | Zpos p =>
      if 0 <=? e10 then binary_round prec emax neg (p * Z.to_pos (10 ^ e10)) 0
      else ofRatio prec emax neg p (Z.to_pos (10 ^ (- e10)))
  | _ => S754_zero neg
  end.

(** The nearest float to [±m·2^e2]. *)
Definition ofBinary (prec emax : Z) (neg : bool) (m e2 : Z) : spec_float :=
  match m with
  | Zpos p => binary_round prec emax neg p e2
  | _ => S754_zero neg
  end.

Definition toLowerAZ (c : ascii) : ascii :=
  if (byteZ "A" <=? byteZ c) && (byteZ c <=? byteZ "Z")
  then ascii_of_N (N_of_ascii c + 32) else c.

(** [commonPrefixLenIgnoreCase(s, prefix)], [prefix] in lower case. *)
Fixpoint commonPrefixLenIgnoreCase (s prefix : list ascii) : nat :=
  match s, prefix with
  | c :: s', p :: prefix' =>
      if Ascii.eqb (toLowerAZ c) p
      then S (commonPrefixLenIgnoreCase s' prefix') else O
  | _, _ => O
  end.

(** [special(s)]: an optionally signed "inf" or "infinity", or "nan", in
    any case, at the head of [s]; the value and the bytes consumed. *)
Definition special (s : list ascii) : option (float64 * nat) :=
  let inf (sign : bool) (nsign : nat) (s' : list ascii) :=
    let n := commonPrefixLenIgnoreCase s' (bytes "infinity") in
    let n := if (3 <? n)%nat && (n <? 8)%nat then 3%nat else n in
    if (n =? 3)%nat || (n =? 8)%nat
    then Some (S754_infinity sign, (nsign + n)%nat) else None in
  match s with
  | [] => None
  | c :: s1 =>
      if Ascii.eqb c "+" then inf false 1%nat s1
      else if Ascii.eqb c "-" then inf true 1%nat s1
      else if Ascii.eqb c "i" || Ascii.eqb c "I" then inf false 0%nat s
      else if Ascii.eqb c "n" || Ascii.eqb c "N" then
        if (commonPrefixLenIgnoreCase s (bytes "nan") =? 3)%nat
        then Some (S754_nan, 3%nat) else None
      else None
  end.

(** The state of the digit loop of [readFloat]; [mantissa] holds every
    digit read ([nd] of them, leading zeros apart) and [dp] the position
    of the point. *)
Record digits := {
  sawdot : bool; sawdigits : bool; underscores : bool;
  nd : Z; dp : Z; mantissa : Z }.

Definition isHexLetter (c : ascii) : bool :=
  (byteZ "a" <=? lower c) && (lower c <=? byteZ "f").

(** The digit loop of [readFloat]: digits, underscores and at most one
    point; the bytes from the first other byte on are returned. *)
Fixpoint readDigits (hex : bool) (bs : list ascii) (st : digits)
  : digits * list ascii :=
  match bs with
  | [] => (st, [])
  | c :: bs' =>
      if Ascii.eqb c "_" then
        readDigits hex bs'
          {| sawdot := sawdot st; sawdigits := sawdigits st; underscores := true;
             nd := nd st; dp := dp st; mantissa := mantissa st |}
      else if Ascii.eqb c "." then
        if sawdot st then (st, bs)
        else readDigits hex bs'
          {| sawdot := true; sawdigits := sawdigits st;
             underscores := underscores st;
             nd := nd st; dp := nd st; mantissa := mantissa st |}
      else if isDigit c then
        if Ascii.eqb c "0" && (nd st =? 0) then
          readDigits hex bs'
            {| sawdot := sawdot st; sawdigits := true;
               underscores := underscores st;
               nd := nd st; dp := dp st - 1; mantissa := mantissa st |}
        else
          readDigits hex bs'
            {| sawdot := sawdot st; sawdigits := true;
               underscores := underscores st;
               nd := nd st + 1; dp := dp st;
               mantissa := mantissa st * (if hex then 16 else 10)
                           + (byteZ c - byteZ "0") |}
      else if hex && isHexLetter c then
        readDigits hex bs'
          {| sawdot := sawdot st; sawdigits := true;
             underscores := underscores st;
             nd := nd st + 1; dp := dp st;
             mantissa := mantissa st * 16 + (lower c - byteZ "a" + 10) |}
      else (st, bs)
  end.

(** The digits of the exponent; beyond 10000 the value no longer grows. *)
Fixpoint readExpDigits (bs : list ascii) (e : Z) (us : bool)
  : Z * bool * list ascii :=
  match bs with
  | [] => (e, us, [])
  | c :: bs' =>
      if isDigit c then
        readExpDigits bs' (if e <? 10000 then e * 10 + (byteZ c - byteZ "0") else e) us
      else if Ascii.eqb c "_" then readExpDigits bs' e true
      else (e, us, bs)
  end.

(** [underscoreOK(s)]: underscores only between digits, or between the
    base prefix and a digit.  [saw] is the kind of the last byte seen. *)
Inductive sawKind := SawStart | SawDigit | SawUnderscore | SawOther.

Fixpoint underscoreLoop (hex : bool) (bs : list ascii) (saw : sawKind) : bool :=
  match bs with
  | [] => match saw with SawUnderscore => false | _ => true end
  | c :: bs' =>
      if isDigit c || (hex && isHexLetter c) then underscoreLoop hex bs' SawDigit
      else if Ascii.eqb c "_" then
        match saw with
        | SawDigit => underscoreLoop hex bs' SawUnderscore
        | _ => false
        end
      else
        match saw with
        | SawUnderscore => false
        | _ => underscoreLoop hex bs' SawOther
        end
  end.

Definition underscoreOK (s : list ascii) : bool :=
  let s :=
    match s with
    | c :: s' => if Ascii.eqb c "-" || Ascii.eqb c "+" then s' else s
    | [] => s
    end in
  match s with
  | c0 :: c1 :: s' =>
      if Ascii.eqb c0 "0" &&
         ((lower c1 =? byteZ "b") || (lower c1 =? byteZ "o") || (lower c1 =? byteZ "x"))
      then underscoreLoop (lower c1 =? byteZ "x") s' SawDigit
      else underscoreLoop false s SawStart
  | _ => underscoreLoop false s SawStart
  end.

(** What [readFloat] reads at the head of a string: the sign, the base,
    the mantissa and the exponent of the base ([10], or [2] for a
    hexadecimal mantissa), and the bytes left. *)
Record number := {
  neg : bool; isHex : bool; mant : Z; exp : Z; rest : list ascii }.

(** [readFloat(s)]; [None] is [ok = false]. *)
Definition readFloat (s : list ascii) : option number :=
  match s with
  | [] => None
  | c :: s1 =>
      let '(sign, s2) :=
        if Ascii.eqb c "+" then (false, s1)
        else if Ascii.eqb c "-" then (true, s1)
        else (false, s) in
      let '(hex, s3) :=
        match s2 with
        | c0 :: c1 :: ((_ :: _) as s') =>
            if Ascii.eqb c0 "0" && (lower c1 =? byteZ "x") then (true, s') else (false, s2)
        | _ => (false, s2)
        end in
      let '(st, s4) :=
        readDigits hex s3
          {| sawdot := false; sawdigits := false; underscores := false;
             nd := 0; dp := 0; mantissa := 0 |} in
      if negb (sawdigits st) then None
      else
        let dp0 := if sawdot st then dp st else nd st in
        let '(dp1, nd1) := if hex then (dp0 * 4, nd st * 4) else (dp0, nd st) in
        let finish (dp2 : Z) (us : bool) (s' : list ascii) :=
          if us && negb (underscoreOK (take (length s - length s') s)) then None
          else Some {| neg := sign; isHex := hex; mant := mantissa st;
                       exp := if mantissa st =? 0 then 0 else dp2 - nd1;
                       rest := s' |} in
        match s4 with
        | c :: s5 =>
            if lower c =? byteZ (if hex then "p" else "e") then
              match s5 with
              | [] => None
              | c' :: s6 =>
                  let '(esign, s7) :=
                    if Ascii.eqb c' "+" then (1, s6)
                    else if Ascii.eqb c' "-" then (-1, s6)
                    else (1, s5) in
                  match s7 with
                  | d :: _ =>
                      if isDigit d then
                        let '(e, us, s8) := readExpDigits s7 0 (underscores st) in
                        finish (dp1 + e * esign) us s8
                      else None
                  | [] => None
                  end
              end
            else if hex then None
            else finish dp1 (underscores st) s4
        | [] => if hex then None else finish dp1 (underscores st) s4
        end
  end.

(** [atof64] and [atof32], as a [float64], for a string read to its end:
    the nearest float to the number read, an infinity when it
    overflows. *)
Definition convert (bitSize : Z) (n : number) : float64 :=
  let '(prec, emax) := if bitSize =? 32 then (24, 128) else (53, 1024) in
  f64.ofFloat32
    (if isHex n then ofBinary prec emax (neg n) (mant n) (exp n)
     else ofDecimal prec emax (neg n) (mant n) (exp n)).

End atof.

(** ** Package strconv *)

Module strconv.

Definition syntaxError (fn str : string) : error := NumError fn str ErrSyntax.
Definition rangeError (fn str : string) : error := NumError fn str ErrRange.

(** [strconv.ParseBool] *)
Definition ParseBool (str : string) : result bool :=
  if existsb (String.eqb str) ["1"; "t"; "T"; "TRUE"; "true"; "True"]%string
  then Ok true
  else if existsb (String.eqb str) ["0"; "f"; "F"; "FALSE"; "false"; "False"]%string
  then Ok false
  else Err (syntaxError "ParseBool" str).

Definition maxUint64 : Z := 2 ^ 64 - 1.

(** The value of the byte [c] as a digit, when it is a digit or a
    letter. *)
Definition digitVal (c : ascii) : option Z :=
  if isDigit c then Some (byteZ c - byteZ "0")
  else if isLowerLetter (lower c) then Some (lower c - byteZ "a" + 10)
  else None.

(** The loop of [strconv.ParseUint] over the bytes of its argument, for
    an explicit base (no underscores); [n] is the [uint64] accumulator.
    The result is the returned value and the kind of the error, if any. *)
Fixpoint parseUintLoop (cs : list ascii) (base cutoff maxVal n : Z)
  : Z * option NumErrKind :=
  match cs with
  | [] => (n, None)
  | c :: cs' =>
      match digitVal c with
      | None => (0, Some ErrSyntax)
      | Some d =>
          if base <=? d then (0, Some ErrSyntax)
          else if cutoff <=? n then (maxVal, Some ErrRange)
          else
            let n := (n * base) mod 2 ^ 64 in
            let n1 := (n + d) mod 2 ^ 64 in
            if (n1 <? n) || (maxVal <? n1) then (maxVal, Some ErrRange)
            else parseUintLoop cs' base cutoff maxVal n1
      end
  end.

(** [strconv.ParseUint(s, base, bitSize)] for [2 <= base <= 36] and
    [1 <= bitSize <= 64], returning the value and the error kind. *)
Definition parseUint (s : string) (base bitSize : Z) : Z * option NumErrKind :=
  if String.eqb s "" then (0, Some ErrSyntax)
  else
    let cutoff := maxUint64 / base + 1 in
    let maxVal := (2 ^ bitSize - 1) mod 2 ^ 64 in
    parseUintLoop (bytes s) base cutoff maxVal 0.

Definition ParseUint (s : string) (base bitSize : Z) : result Z :=
  match parseUint s base bitSize with
  | (n, None) => Ok n
  | (_, Some ErrSyntax) => Err (syntaxError "ParseUint" s)
  | (_, Some ErrRange) => Err (rangeError "ParseUint" s)
  end.

(** [strconv.ParseInt(s, base, bitSize)]: a leading sign is picked off,
    the rest is converted by [ParseUint] and the range is checked. *)
Definition ParseInt (s0 : string) (base bitSize : Z) : result Z :=
  match s0 with
  | EmptyString => Err (syntaxError "ParseInt" s0)
  | String c0 s1 =>
      let '(neg, s) :=
        if Ascii.eqb c0 "+" then (false, s1)
        else if Ascii.eqb c0 "-" then (true, s1)
        else (false, s0) in
      match parseUint s base bitSize with
      | (_, Some ErrSyntax) => Err (syntaxError "ParseInt" s0)
      | (un, _) =>
          let cutoff := 2 ^ (bitSize - 1) in
          if negb neg && (cutoff <=? un) then Err (rangeError "ParseInt" s0)
          else if neg && (cutoff <? un) then Err (rangeError "ParseInt" s0)
          else Ok (if neg then - un else un)
      end
  end.

(** [strconv.ParseFloat(s, bitSize)]: the whole of [s] must be a special
    value or a number; a number that overflows is a range error. *)
Definition ParseFloat (s : string) (bitSize : Z) : result float64 :=
  match atof.special (bytes s) with
  | Some (v, n) =>
      if (n =? length (bytes s))%nat then Ok v
      else Err (syntaxError "ParseFloat" s)
  | None =>
      match atof.readFloat (bytes s) with
      | None => Err (syntaxError "ParseFloat" s)
      | Some n =>
          match atof.rest n with
          | [] =>
              let v := atof.convert bitSize n in
              if f64.isInf v then Err (rangeError "ParseFloat" s)
              else Ok v
          | _ => Err (syntaxError "ParseFloat" s)
          end
      end
  end.

End strconv.

(** ** Package encoding/hex *)

Module hex.

(** [reverseHexTable]: the value of a hexadecimal digit, [0xff] for any
    other byte. *)
Definition reverseHexTable (c : ascii) : Z :=
  let b := byteZ c in
  if isDigit c then b - byteZ "0"
  else if (byteZ "a" <=? b) && (b <=? byteZ "f") then b - byteZ "a" + 10
  else if (byteZ "A" <=? b) && (b <=? byteZ "F") then b - byteZ "A" + 10
  else 255.

Definition mkByte (a b : Z) : Byte.byte :=
  byte_of_ascii (ascii_of_N (Z.to_N (Z.lor (Z.shiftl a 4) b))).

(** [hex.Decode]: two digits per byte; an invalid digit is reported before
    an odd length. *)
Fixpoint Decode (src : list ascii) : result (list Byte.byte) :=
  match src with
  | [] => Ok []
  | [p] =>
      if 15 <? reverseHexTable p then Err (InvalidByteError p) else Err ErrLength
  | p :: q :: src' =>
      let a := reverseHexTable p in
      let b := reverseHexTable q in
      if 15 <? a then Err (InvalidByteError p)
      else if 15 <? b then Err (InvalidByteError q)
      else rest ← Decode src'; Ok (mkByte a b :: rest)
  end.

(** [hex.DecodeString] *)
Definition DecodeString (s : string) : result (list Byte.byte) :=
  Decode (bytes s).

End hex.

(** ** Package mmdbtype (github.com/maxmind/mmdbwriter) *)

Module mmdbtype.

(** [bytes.Equal] *)
Fixpoint bytesEqual (x y : list Byte.byte) : bool :=
  match x, y with
  | [], [] => true
  | a :: x', b :: y' => Byte.eqb a b && bytesEqual x' y'
  | _, _ => false
  end.

(** The [DataType] values that [source.go] builds.  A [Map] is keyed by
    [mmdbtype.String], a byte string. *)
Inductive DataType :=
| Bool (b : bool)
| Bytes (bs : list Byte.byte)
| Float32 (f : spec_float)
| Float64 (f : float64)
| Int32 (n : Z)
| Map (m : gmap string DataType)
| Slice (l : list DataType)
| String (s : string)
| Uint16 (n : Z)
| Uint32 (n : Z)
| Uint64 (n : Z).

(** The Go type of a value, as [%T] prints it. *)
Definition typeName (v : DataType) : string :=
  match v with
  | Bool _ => "mmdbtype.Bool"
  | Bytes _ => "mmdbtype.Bytes"
  | Float32 _ => "mmdbtype.Float32"
  | Float64 _ => "mmdbtype.Float64"
  | Int32 _ => "mmdbtype.Int32"
  | Map _ => "mmdbtype.Map"
  | Slice _ => "mmdbtype.Slice"
  | String _ => "mmdbtype.String"
  | Uint16 _ => "mmdbtype.Uint16"
  | Uint32 _ => "mmdbtype.Uint32"
  | Uint64 _ => "mmdbtype.Uint64"
  end.

(** The equality of typed values, [DataType.Equal]: the same type and
    [==] on the scalars, hence the equality of floats, under which a NaN
    differs from itself; slices are compared element by element and maps
    key by key. *)
Fixpoint Equal (t other : DataType) {struct t} : bool :=
  match t, other with
  | Bool x, Bool y => Bool.eqb x y
  | Bytes x, Bytes y => bytesEqual x y
  | Float32 x, Float32 y => f64.eqb x y
  | Float64 x, Float64 y => f64.eqb x y
  | Int32 x, Int32 y => x =? y
  | Map m1, Map m2 =>
      (size m1 =? size m2)%nat &&
      map_fold
        (fun k v acc =>
           acc && match m2 !! k with Some w => Equal v w | None => false end)
        true m1
  | Slice xs, Slice ys =>
      (fix go (xs ys : list DataType) : bool :=
         match xs, ys with
         | [], [] => true
         | x :: xs', y :: ys' => Equal x y && go xs' ys'
         | _, _ => false
         end) xs ys
  | String x, String y => String.eqb x y
  | Uint16 x, Uint16 y => x =? y
  | Uint32 x, Uint32 y => x =? y
  | Uint64 x, Uint64 y => x =? y
  | _, _ => false
  end.

(** A value that is neither a map nor a slice. *)
Definition isScalar (v : DataType) : bool :=
  match v with
  | Map _ | Slice _ => false
  | _ => true
  end.

(** A float NaN, or a slice or a map that holds one. *)
Fixpoint hasNaN (v : DataType) : bool :=
  match v with
  | Float32 x | Float64 x => f64.isNaN x
  | Slice xs => existsb hasNaN xs
  | Map m => map_fold (fun _ w acc => acc || hasNaN w) false m
  | _ => false
  end.

End mmdbtype.

Import mmdbtype.

(** ** Conversions between integer types *)

(** [int32(v)], [uint16(v)] and [uint32(v)] keep the low bits of [v]. *)
Definition int32 (v : Z) : Z := (v + 2 ^ 31) mod 2 ^ 32 - 2 ^ 31.
Definition uint16 (v : Z) : Z := v mod 2 ^ 16.
Definition uint32 (v : Z) : Z := v mod 2 ^ 32.

(** ** source.go *)

(** Modelled from the spec: the type [Optimizations] is declared outside
    [source.go]; the spec's OptimizationConfig holds the float decimal
    precision (0 = no rounding, negative = round to integer), the
    enforcement of the IP version and the maximal prefix length. *)
Record Optimizations := {
  FloatDecimals : Z;
  ForceIPVersion : bool;
  MaxPrefix : Z }.

(** [SourceValue] holds an unprocessed source data value, including its
    type. *)
Record SourceValue := {
  Type_ : string;
  Value : string }.

(** A [net.IP] and a [net.IPNet] are byte slices. *)
Record IPNet := { IP : list Byte.byte; Mask : list Byte.byte }.

(** [SourceEntry] describes a geoip data source entry. *)
Record SourceEntry := {
  Net : option IPNet;
  From : list Byte.byte;
  To : list Byte.byte;
  Values : gmap string SourceValue }.

(** [roundToDecimalPlaces] *)
Definition roundToDecimalPlaces (num : float64) (decimalPlaces : Z) : float64 :=
  let decimalPlaces := if decimalPlaces <? 0 then 0 else decimalPlaces in
  let shift := math.Pow10 decimalPlaces in
  f64.div (math.Round (f64.mul num shift)) shift.

(** [toMMDBType] *)
Definition toMMDBType (fieldType fieldValue : string) (optim : Optimizations)
  : result DataType :=
  if String.eqb fieldType "bool" then
    v ← strconv.ParseBool fieldValue; Ok (Bool v)
  else if String.eqb fieldType "string" then
    Ok (String fieldValue)
  else if String.eqb fieldType "hexbytes" then
    v ← hex.DecodeString fieldValue; Ok (Bytes v)
  else if String.eqb fieldType "int32" then
    v ← strconv.ParseInt fieldValue 10 32; Ok (Int32 (int32 v))
  else if String.eqb fieldType "uint16" then
    v ← strconv.ParseUint fieldValue 10 16; Ok (Uint16 (uint16 v))
  else if String.eqb fieldType "uint32" then
    v ← strconv.ParseUint fieldValue 10 32; Ok (Uint32 (uint32 v))
  else if String.eqb fieldType "uint64" then
    v ← strconv.ParseUint fieldValue 10 64; Ok (Uint64 v)
  else if String.eqb fieldType "float32" then
    v ← strconv.ParseFloat fieldValue 32;
    let v :=
      if negb (FloatDecimals optim =? 0)
      then roundToDecimalPlaces v (FloatDecimals optim) else v in
    Ok (Float32 (f64.toFloat32 v))
  else if String.eqb fieldType "float64" then
    v ← strconv.ParseFloat fieldValue 64;
    let v :=
      if negb (FloatDecimals optim =? 0)
      then roundToDecimalPlaces v (FloatDecimals optim) else v in
    Ok (Float64 v)
  else Err ErrUnsupportedType.

(** The loop of [toMMDBArray]: [i] is the index of the next field and
    [array] the entries appended so far. *)
Fixpoint toMMDBArrayLoop (fieldType : string) (fields : list string) (i : nat)
  (optim : Optimizations) (array : list DataType) : result (list DataType) :=
  match fields with
  | [] => Ok array
  | field :: fields' =>
      match toMMDBType fieldType field optim with
      | Err err => Err (ErrArrayEntry i err)
      | Ok entry => toMMDBArrayLoop fieldType fields' (S i) optim (array ++ [entry])
      end
  end.

(** [toMMDBArray] *)
Definition toMMDBArray (fieldType fieldValue : string) (optim : Optimizations)
  : result DataType :=
  array ← toMMDBArrayLoop fieldType (strings.Fields fieldValue) 0 optim [];
  Ok (Slice array).

(** [SourceValue.ToMMDBType] transforms the source value to the correct
    mmdb type. *)
Definition ToMMDBType (sv : SourceValue) (optim : Optimizations)
  : result DataType :=
  let '(subType, isArrayType) := strings.CutPrefix (Type_ sv) "array:" in
  if isArrayType then toMMDBArray subType (Value sv) optim
  else toMMDBType (Type_ sv) (Value sv) optim.

(** The inner loop of [ToMMDBMap] followed by the final assignment: the walk
    from [mapForEntry] along the key parts.  Go maps are references, so an
    assignment in a sub map is seen from the maps above it; here the
    updated sub map is stored back in its parent.  [key] and [submap] only
    serve the error message.  The key parts come from [strings.Split] and
    are never empty: indexing an empty slice panics. *)
Fixpoint setValue (key submap : string) (keyParts : list string)
  (mmdbVal : DataType) (mapForEntry : gmap string DataType)
  : result (gmap string DataType) :=
  match keyParts with
  | [] => Err ErrPanic
  | [part] => Ok (<[part := mmdbVal]> mapForEntry)
  | part :: rest =>
      match mapForEntry !! part with
      | None =>
          sub ← setValue key submap rest mmdbVal ∅;
          Ok (<[part := Map sub]> mapForEntry)
      | Some (Map nextMapForEntry) =>
          sub ← setValue key submap rest mmdbVal nextMapForEntry;
          Ok (<[part := Map sub]> mapForEntry)
      | Some subMapVal => Err (ErrSubmap key submap (typeName subMapVal))
      end
  end.

(** The body of the loop of [ToMMDBMap] for one entry of [se.Values]. *)
Definition addEntry (optim : Optimizations) (key : string) (entry : SourceValue)
  (m : gmap string DataType) : result (gmap string DataType) :=
  match ToMMDBType entry optim with
  | Err err => Err (ErrTransform key (Value entry) (Type_ entry) err)
  | Ok mmdbVal =>
      let keyParts := strings.Split key "." in
      setValue key (strings.Join (take 1 keyParts) ".") keyParts mmdbVal m
  end.

(** The loop of [ToMMDBMap] over the entries in the order [order]. *)
Fixpoint addEntries (optim : Optimizations)
  (order : list (string * SourceValue)) (m : gmap string DataType)
  : result (gmap string DataType) :=
  match order with
  | [] => Ok m
  | (key, entry) :: order' =>
      m' ← addEntry optim key entry m; addEntries optim order' m'
  end.

(** [range se.Values] visits every entry of the map once, in an order that
    Go leaves unspecified. *)
Definition rangeOrder (values : gmap string SourceValue)
  (order : list (string * SourceValue)) : Prop :=
  order ≡ₚ map_to_list values.

(** [SourceEntry.ToMMDBMap] for the iteration order [order]. *)
Definition ToMMDBMapIn (order : list (string * SourceValue))
  (optim : Optimizations) : result (gmap string DataType) :=
  addEntries optim order ∅.

(** [SourceEntry.ToMMDBMap]: the results it may return. *)
Definition ToMMDBMap (se : SourceEntry) (optim : Optimizations)
  (r : result (gmap string DataType)) : Prop :=
  exists order, rangeOrder (Values se) order /\ ToMMDBMapIn order optim = r.

(** Modelled from the spec: the configuration types [DatabaseInput] and
    [DatabaseConfig] are declared outside [source.go].  A database
    configuration lists its inputs, each with a file name and its field
    mapping, and the FieldSpec table from paths to type tags. *)
Record DatabaseInput := {
  File : string;
  Fields : list string }.

Record DatabaseConfig := {
  Inputs : list DatabaseInput;
  Types : gmap string string }.

(** The interface [Source] is never looked into by [LoadSources], and the
    loaders [LoadCSVSource] and [LoadIPFireSource] of the two source
    variants are declared outside [source.go]: they are parameters. *)
Section LoadSources.

Variable Source : Type.
Variable LoadCSVSource : DatabaseInput -> gmap string string -> result Source.
Variable LoadIPFireSource : DatabaseInput -> gmap string string -> result Source.

(** The loop of [LoadSources]; [sources] holds the sources loaded so
    far. *)
Fixpoint loadInputs (inputs : list DatabaseInput) (types : gmap string string)
  (sources : list Source) : result (list Source) :=
  match inputs with
  | [] => Ok sources
  | input :: inputs' =>
      if strings.HasSuffix (File input) ".csv" then
        match LoadCSVSource input types with
        | Err err => Err (ErrLoadInput (File input) err)
        | Ok s => loadInputs inputs' types (sources ++ [s])
        end
      else if strings.HasSuffix (File input) ".ipfire.txt" then
        match LoadIPFireSource input types with
        | Err err => Err (ErrLoadInput (File input) err)
        | Ok s => loadInputs inputs' types (sources ++ [s])
        end
      else Err (ErrUnsupportedInput (File input))
  end.

(** [LoadSources] loads the given input files from the database
    config. *)
Definition LoadSources (dbConfig : DatabaseConfig) : result (list Source) :=
  loadInputs (Inputs dbConfig) (Types dbConfig) [].

(** What one input contributes on its own: the source built by the
    loader that its file name selects, or the error that [LoadSources]
    returns for it. *)
Definition loadInput (types : gmap string string) (input : DatabaseInput)
  : result Source :=
  if strings.HasSuffix (File input) ".csv" then
    match LoadCSVSource input types with
    | Err err => Err (ErrLoadInput (File input) err)
    | Ok s => Ok s
    end
  else if strings.HasSuffix (File input) ".ipfire.txt" then
    match LoadIPFireSource input types with
    | Err err => Err (ErrLoadInput (File input) err)
    | Ok s => Ok s
    end
  else Err (ErrUnsupportedInput (File input)).

End LoadSources.

(** ** Notions used in the statements *)

(** A file name that selects no source variant. *)
Definition unsupportedFile (file : string) : bool :=
  negb (strings.HasSuffix file ".csv") && negb (strings.HasSuffix file ".ipfire.txt").

(** The token [tok] coerces to [v] under the type tag [fieldType]. *)
Definition coerces (fieldType : string) (optim : Optimizations)
  (tok : string) (v : DataType) : Prop :=
  toMMDBType fieldType tok optim = Ok v.

(** The white space bytes of ASCII. *)
Definition asciiSpace (c : ascii) : bool :=
  ((9 <=? byteZ c) && (byteZ c <=? 13)) || (byteZ c =? 32).

(** The scalar type tags, and the mmdb type that each declares. *)
Definition declaredType (tag : string) : option string :=
  if String.eqb tag "bool" then Some "mmdbtype.Bool"%string
  else if String.eqb tag "string" then Some "mmdbtype.String"%string
  else if String.eqb tag "hexbytes" then Some "mmdbtype.Bytes"%string
  else if String.eqb tag "int32" then Some "mmdbtype.Int32"%string
  else if String.eqb tag "uint16" then Some "mmdbtype.Uint16"%string
  else if String.eqb tag "uint32" then Some "mmdbtype.Uint32"%string
  else if String.eqb tag "uint64" then Some "mmdbtype.Uint64"%string
  else if String.eqb tag "float32" then Some "mmdbtype.Float32"%string
  else if String.eqb tag "float64" then Some "mmdbtype.Float64"%string
  else None.

Definition supportedScalar (tag : string) : bool :=
  match declaredType tag with Some _ => true | None => false end.

(** A type tag that is no supported scalar tag and is not "array:"
    followed by a supported scalar tag. *)
Definition unsupportedTag (tag : string) : Prop :=
  supportedScalar tag = false /\
  forall sub, tag = "array:" +:+ sub -> supportedScalar sub = false.

(** The integer nearest to [m / 2^k], a half going to the even neighbour:
    the rounding of [math.RoundToEven]. *)
Definition nearestEven (m k : Z) : Z :=
  let q := m / 2 ^ k in
  let r := m mod 2 ^ k in
  if 2 * r <? 2 ^ k then q
  else if 2 ^ k <? 2 * r then q + 1
  else if Z.even q then q else q + 1.

Definition RoundToEven (x : float64) : float64 :=
  match x with
  | S754_finite s m e =>
      if 0 <=? e then x
      else binary_normalize 53 1024 (cond_Zopp s (nearestEven (Zpos m) (- e))) 0 s
  | _ => x
  end.

(** The rounding that the specification words describe: round half to even
    at a granularity of [10^precision], a negative precision counting as
    zero decimal places. *)
Definition roundHalfEvenToDecimalPlaces (num : float64) (decimalPlaces : Z)
  : float64 :=
  let shift := math.Pow10 (Z.max 0 decimalPlaces) in
  f64.div (RoundToEven (f64.mul num shift)) shift.

(** The decimal numerals and their values: an optional sign and one digit
    or more. *)
Fixpoint digitsValue (cs : list ascii) (acc : Z) : option Z :=
  match cs with
  | [] => Some acc
  | c :: cs' =>
      if isDigit c then digitsValue cs' (acc * 10 + (byteZ c - byteZ "0"))
      else None
  end.

Definition numeral (s : string) : option Z :=
  match bytes s with
  | [] => None
  | c :: cs =>
      if Ascii.eqb c "-" then
        match cs with [] => None | _ => Z.opp <$> digitsValue cs 0 end
      else if Ascii.eqb c "+" then
        match cs with [] => None | _ => digitsValue cs 0 end
      else digitsValue (c :: cs) 0
  end.

(** The integer type tags with the range of their Go type and the typed
    value they build. *)
Inductive intType := TInt32 | TUint16 | TUint32 | TUint64.

Definition intTag (t : intType) : string :=
  match t with
  | TInt32 => "int32" | TUint16 => "uint16"
  | TUint32 => "uint32" | TUint64 => "uint64"
  end.

Definition intMin (t : intType) : Z :=
  match t with TInt32 => - 2 ^ 31 | _ => 0 end.

Definition intMax (t : intType) : Z :=
  match t with
  | TInt32 => 2 ^ 31 - 1 | TUint16 => 2 ^ 16 - 1
  | TUint32 => 2 ^ 32 - 1 | TUint64 => 2 ^ 64 - 1
  end.

Definition intValue (t : intType) (n : Z) : DataType :=
  match t with
  | TInt32 => Int32 n | TUint16 => Uint16 n
  | TUint32 => Uint32 n | TUint64 => Uint64 n
  end.

(** The parts of a dotted key, and the keys of a mapping that conflict in
    shape: the path of one is a strict prefix of the path of the other. *)
Definition keyPath (key : string) : list string := strings.Split key ".".

Definition strictPrefix (p q : list string) : Prop :=
  exists rest, rest <> [] /\ q = p ++ rest.

Definition conflictFree (values : gmap string SourceValue) : Prop :=
  forall k1 k2,
    is_Some (values !! k1) -> is_Some (values !! k2) ->
    ~ strictPrefix (keyPath k1) (keyPath k2).

(** Every value of the mapping coerces: the mapping stands for a flat
    mapping of typed values. *)
Definition allCoerce (values : gmap string SourceValue) (optim : Optimizations)
  : Prop :=
  forall k sv, values !! k = Some sv -> isOk (ToMMDBType sv optim) = true.

(** The optimisations switched off. *)
Definition optimNone : Optimizations :=
  {| FloatDecimals := 0; ForceIPVersion := false; MaxPrefix := 0 |}.

(** A loader that finds no file to open. *)
Definition failingLoader (input : DatabaseInput) (types : gmap string string)
  : result unit :=
  Err (ErrExternal "no such file").

(** A float field that holds the text "NaN". *)
Definition nanValue : SourceValue := {| Type_ := "float64"; Value := "NaN" |}.

(** Rounding to integers (a negative precision) and to one decimal place. *)
Definition optimIntegers : Optimizations :=
  {| FloatDecimals := -1; ForceIPVersion := false; MaxPrefix := 0 |}.

Definition optimOneDecimal : Optimizations :=
  {| FloatDecimals := 1; ForceIPVersion := false; MaxPrefix := 0 |}.

(** The float 1. *)
Definition f64one : float64 := S754_finite false 4503599627370496 (-52).

(** What the float branches of [toMMDBType] return, from the parsed value:
    the value unchanged for the precision 0, and otherwise
    [math.Round(v * shift) / shift] for [shift = math.Pow(10, p)], where [p]
    is the precision, or 0 for a negative one. *)
Definition roundedFloat (optim : Optimizations) (v : float64) : float64 :=
  if FloatDecimals optim =? 0 then v
  else
    let shift := math.Pow10 (Z.max 0 (FloatDecimals optim)) in
    f64.div (math.Round (f64.mul v shift)) shift.

(** Two key paths that do not conflict: neither is a prefix of the
    other. *)
Definition incomparable (p q : list string) : Prop :=
  ~ p `prefix_of` q /\ ~ q `prefix_of` p.

(** The value that [setValue] stores under the first key part, from the
    value [cur] found there: the value to set when no part is left, and
    otherwise the sub map, new or found, with the value set along the
    parts left. *)
Definition headValue (key submap : string) (rest : list string)
  (mmdbVal : DataType) (cur : option DataType) : result DataType :=
  match rest with
  | [] => Ok mmdbVal
  | _ :: _ =>
      match cur with
      | None => sub ← setValue key submap rest mmdbVal ∅; Ok (Map sub)
      | Some (Map nextMapForEntry) =>
          sub ← setValue key submap rest mmdbVal nextMapForEntry; Ok (Map sub)
      | Some subMapVal => Err (ErrSubmap key submap (typeName subMapVal))
      end
  end.

(** The entries of a mapping that is free of conflicts, as a list: no entry
    occurs twice, and the key paths of two entries are incomparable. *)
Definition independent (order : list (string * SourceValue)) : Prop :=
  NoDup order /\
  forall e1 e2, e1 ∈ order -> e2 ∈ order -> e1 <> e2 ->
                incomparable (keyPath (fst e1)) (keyPath (fst e2)).

(** Two string fields. *)
Definition textX : SourceValue := {| Type_ := "string"; Value := "x" |}.
Definition textY : SourceValue := {| Type_ := "string"; Value := "y" |}.

Definition entryOf (values : gmap string SourceValue) : SourceEntry :=
  {| Net := None; From := []; To := []; Values := values |}.

(** Every entry of [order] whose value coerces can be added to the map
    [m]. *)
Definition ready (optim : Optimizations) (order : list (string * SourceValue))
  (m : gmap string DataType) : Prop :=
  forall e, e ∈ order -> isOk (ToMMDBType e.2 optim) = true ->
            isOk (addEntry optim e.1 e.2 m) = true.

(** Every value of [order] coerces. *)
Definition coercible (optim : Optimizations) (order : list (string * SourceValue))
  : Prop :=
  forall e, e ∈ order -> isOk (ToMMDBType e.2 optim) = true.

(** No walk along the path [q] succeeds in the map [m]. *)
Definition blocked (q : list string) (m : gmap string DataType) : Prop :=
  forall key submap v, isOk (setValue key submap q v m) = false.

Definition notMap (v : DataType) : bool :=
  match v with Map _ => false | _ => true end.

(** A token: a byte string that is not empty and holds no white space
    rune. *)
Fixpoint spaceFree (bs : list ascii) : bool :=
  match bs with
  | [] => true
  | _ :: bs' => (strings.spaceWidth bs =? 0)%nat && spaceFree bs'
  end.

Definition isToken (tok : string) : Prop :=
  tok <> ""%string /\ spaceFree (bytes tok) = true.

(** ** Notions used in the further properties *)

(** The value found in a document along the parts of a path: the sub
    documents are entered one part after the other, and the last part is
    looked up in the sub document reached. *)
Fixpoint lookupPath (p : list string) (m : gmap string DataType)
  : option DataType :=
  match p with
  | [] => None
  | [part] => m !! part
  | part :: rest =>
      match m !! part with
      | Some (Map sub) => lookupPath rest sub
      | _ => None
      end
  end.

(** The first part of a key. *)
Definition firstPart (key : string) : string :=
  match keyPath key with
  | part :: _ => part
  | [] => ""%string
  end.

(** The entries "a.b" and "a.b.c", in this order. *)
Definition deepOrder : list (string * SourceValue) :=
  [("a.b"%string, textX); ("a.b.c"%string, textY)].

(** A field declared [uint16] whose text is no [uint16]. *)
Definition badNumber : SourceValue := {| Type_ := "uint16"; Value := "70000" |}.

(** The value of a decimal numeral without a sign: one digit or more. *)
Definition unsignedNumeral (s : string) : option Z :=
  if String.eqb s "" then None else digitsValue (bytes s) 0.

(** The numerals that an integer type reads, signed for [int32] only, and
    the [strconv] function that reads them. *)
Definition intNumeral (t : intType) (s : string) : option Z :=
  match t with TInt32 => numeral s | _ => unsignedNumeral s end.

Definition intParser (t : intType) : string :=
  match t with TInt32 => "ParseInt" | _ => "ParseUint" end.

(** The hexadecimal digits, of either case. *)
Definition isHexDigit (c : ascii) : bool :=
  let b := byteZ c in
  ((byteZ "0" <=? b) && (b <=? byteZ "9"))
  || ((byteZ "a" <=? b) && (b <=? byteZ "f"))
  || ((byteZ "A" <=? b) && (b <=? byteZ "F")).

(** The first byte of a text that is no hexadecimal digit. *)
Definition firstInvalidByte (src : list ascii) : option ascii :=
  find (fun c => negb (isHexDigit c)) src.

(** Loaders that open nothing and return the name of the file, marked by the
    format, and a configuration with one input of each format. *)
Definition csvLoader (input : DatabaseInput) (types : gmap string string)
  : result string :=
  Ok ("csv:" +:+ File input)%string.

Definition ipfireLoader (input : DatabaseInput) (types : gmap string string)
  : result string :=
  Ok ("ipfire:" +:+ File input)%string.

Definition twoInputs : DatabaseConfig :=
  {| Inputs := [ {| File := "a.csv"; Fields := [] |};
                 {| File := "b.ipfire.txt"; Fields := [] |} ];
     Types := ∅ |}.

(** * Properties *)

(** ** The result monad *)

Lemma bind_Ok {A B} (r : result A) (f : A -> result B) (b : B) :
  r ≫= f = Ok b <-> exists a, r = Ok a /\ f a = Ok b.
Proof.
  destruct r as [a|e]; simpl; split.
  - intros H. exists a. auto.
  - intros (a' & [= <-] & H). exact H.
  - discriminate.
  - intros (a' & H & _). discriminate.
Qed.

Lemma isOk_true {A} (r : result A) : isOk r = true <-> exists a, r = Ok a.
Proof.
  destruct r; simpl; split; eauto; try discriminate.
  intros (? & ?). discriminate.
Qed.

Lemma isOk_false {A} (r : result A) : isOk r = false <-> exists e, r = Err e.
Proof.
  destruct r; simpl; split; eauto; try discriminate.
  intros (? & ?). discriminate.
Qed.

(** ** Byte strings *)

Lemma substring_whole (s : string) : substring 0 (len s) s = s.
Proof. induction s as [|c s IH]; simpl; [reflexivity | now rewrite IH]. Qed.

Lemma bytes_nil (s : string) : bytes s = [] -> s = ""%string.
Proof. now destruct s. Qed.

(** Cutting the prefix "array:" off a tag that carries it yields the
    subtype. *)
Lemma CutPrefix_array (sub : string) :
  strings.CutPrefix ("array:" +:+ sub) "array:" = (sub, true).
Proof.
  unfold strings.CutPrefix, strings.HasPrefix, sliceFrom, len. simpl.
  change ("" +:+ sub) with sub.
  rewrite Nat.sub_0_r. fold (len sub). rewrite substring_whole.
  now destruct sub.
Qed.

(** ** The loop of toMMDBArray *)

Section ArrayLoop.

Variable fieldType : string.
Variable optim : Optimizations.

Lemma toMMDBArrayLoop_Ok (fields : list string) :
forall (i : nat) (array vs : list DataType),
  Forall2 (coerces fieldType optim) fields vs ->
  toMMDBArrayLoop fieldType fields i optim array = Ok (array ++ vs).
Proof.
induction fields as [|f fields IH]; intros i array vs H; inversion H; subst; simpl.
- now rewrite app_nil_r.
- match goal with Hc : coerces _ _ f _ |- _ => unfold coerces in Hc; rewrite Hc end.
  erewrite IH by eassumption. now rewrite <- app_assoc.
Qed.

Lemma toMMDBArrayLoop_Ok_inv (fields : list string) :
forall (i : nat) (array r : list DataType),
  toMMDBArrayLoop fieldType fields i optim array = Ok r ->
  exists vs, r = array ++ vs /\ Forall2 (coerces fieldType optim) fields vs.
Proof.
induction fields as [|f fields IH]; intros i array r H; simpl in H.
- injection H as <-. exists []. split; [now rewrite app_nil_r | constructor].
- destruct (toMMDBType fieldType f optim) as [v|e] eqn:Hf; [|discriminate].
  apply IH in H as (vs & -> & Hvs).
  exists (v :: vs). split; [now rewrite <- app_assoc | now constructor].
Qed.

(** The loop stops at the first field that fails and reports its index. *)
Lemma toMMDBArrayLoop_Err (fields : list string) :
forall (i k : nat) (array : list DataType) (tok : string) (e : error),
  fields !! k = Some tok ->
  toMMDBType fieldType tok optim = Err e ->
  (forall j tok', (j < k)%nat -> fields !! j = Some tok' ->
                  isOk (toMMDBType fieldType tok' optim) = true) ->
  toMMDBArrayLoop fieldType fields i optim array = Err (ErrArrayEntry (i + k) e).
Proof.
induction fields as [|f fields IH]; intros i k array tok e Hk He Hbefore.
- discriminate.
- destruct k as [|k]; simpl in *.
  + injection Hk as ->. rewrite He. now rewrite Nat.add_0_r.
  + assert (Hf : isOk (toMMDBType fieldType f optim) = true).
    { apply (Hbefore 0%nat f); [lia | reflexivity]. }
    destruct (toMMDBType fieldType f optim) as [v|]; [|discriminate].
    rewrite (IH (S i) k _ tok e Hk He).
    * f_equal. f_equal. lia.
    * intros j tok' Hj Hl. apply (Hbefore (S j) tok'); [lia | exact Hl].
Qed.

(** Some field fails, or every field coerces. *)
Lemma first_failure (fields : list string) :
(exists vs, Forall2 (coerces fieldType optim) fields vs) \/
(exists k tok e,
    fields !! k = Some tok /\ toMMDBType fieldType tok optim = Err e /\
    forall j tok', (j < k)%nat -> fields !! j = Some tok' ->
                   isOk (toMMDBType fieldType tok' optim) = true).
Proof.
induction fields as [|f fields IH].
- left. exists []. constructor.
- destruct (toMMDBType fieldType f optim) as [v|e] eqn:Hf.
  + destruct IH as [(vs & Hvs) | (k & tok & e & Hk & He & Hb)].
    * left. exists (v :: vs). now constructor.
    * right. exists (S k), tok, e. repeat split; auto.
      intros [|j] tok' Hj Hl; simpl in Hl.
      -- injection Hl as <-. now rewrite Hf.
      -- apply (Hb j tok'); [lia | exact Hl].
  + right. exists 0%nat, f, e. repeat split; auto. intros j tok' Hj. lia.
Qed.

End ArrayLoop.

(** [ToMMDBType] on an array tag runs [toMMDBArray] on the subtype. *)
Lemma ToMMDBType_array (sub raw : string) (optim : Optimizations) :
  ToMMDBType {| Type_ := "array:" +:+ sub; Value := raw |} optim
  = toMMDBArray sub raw optim.
Proof. unfold ToMMDBType. simpl Type_. now rewrite CutPrefix_array. Qed.

(** [toMMDBArray] succeeds exactly when every field coerces, with the
    coerced values in the order of the fields. *)
Lemma toMMDBArray_Ok (sub raw : string) (optim : Optimizations) (v : DataType) :
  toMMDBArray sub raw optim = Ok v <->
  exists vs, v = Slice vs /\ Forall2 (coerces sub optim) (strings.Fields raw) vs.
Proof.
  unfold toMMDBArray. rewrite bind_Ok. split.
  - intros (array & Hloop & [= <-]).
    apply toMMDBArrayLoop_Ok_inv in Hloop as (vs & -> & Hvs). eauto.
  - intros (vs & -> & Hvs). exists vs. split; [|reflexivity].
    now apply (toMMDBArrayLoop_Ok sub optim _ 0%nat []).
Qed.

Lemma toMMDBArray_Err (sub raw : string) (optim : Optimizations)
  (k : nat) (tok : string) (e : error) :
  strings.Fields raw !! k = Some tok ->
  toMMDBType sub tok optim = Err e ->
  (forall j tok', (j < k)%nat -> strings.Fields raw !! j = Some tok' ->
                  isOk (toMMDBType sub tok' optim) = true) ->
  toMMDBArray sub raw optim = Err (ErrArrayEntry k e).
Proof.
  intros Hk He Hb. unfold toMMDBArray.
  now rewrite (toMMDBArrayLoop_Err sub optim _ 0%nat k [] tok e Hk He Hb).
Qed.

(** ** White space *)

Lemma spaceWidth_asciiSpace (c : ascii) (bs : list ascii) :
  asciiSpace c = true -> strings.spaceWidth (c :: bs) = 1%nat.
Proof.
  unfold asciiSpace, strings.spaceWidth.
  change (map byteZ (c :: bs)) with (byteZ c :: map byteZ bs).
  cbv beta iota. intros ->. reflexivity.
Qed.

Lemma Fields_asciiSpace (s : string) :
  forallb asciiSpace (bytes s) = true -> strings.Fields s = [].
Proof.
  unfold strings.Fields. induction (bytes s) as [|c bs IH]; simpl.
  - reflexivity.
  - intros [Hc Hbs]%andb_prop. cbn -[strings.spaceWidth].
    rewrite (spaceWidth_asciiSpace c bs Hc). simpl. auto.
Qed.

(** *** Fields on tokens separated by single spaces *)

Lemma asciiSpace_bound (c : ascii) : asciiSpace c = true -> 9 <= byteZ c <= 32.
Proof.
  unfold asciiSpace. intros H. apply orb_prop in H as [H | H].
  - apply andb_prop in H as [H1 H2]. apply Z.leb_le in H1, H2. lia.
  - apply Z.eqb_eq in H. lia.
Qed.

Ltac split_tests :=
  repeat match goal with
         | |- context [?a =? ?b] => destruct (Z.eqb_spec a b); try lia
         | |- context [?a <=? ?b] => destruct (Z.leb_spec a b); try lia
         end.

(** A white space byte of ASCII after a byte string ends no rune of more
    than one byte, so it makes no white space rune appear in front of it. *)
Lemma spaceWidth_before_space (bs tail : list ascii) (sep : ascii) :
  bs <> [] -> asciiSpace sep = true ->
  strings.spaceWidth bs = 0%nat ->
  strings.spaceWidth (bs ++ sep :: tail) = 0%nat.
Proof.
  intros Hbs Hsep. apply asciiSpace_bound in Hsep.
  destruct bs as [|c0 [|c1 [|c2 bs]]]; [contradiction| | |];
    unfold strings.spaceWidth; simpl map;
    generalize dependent (byteZ sep); intros z Hz;
    generalize (byteZ c0); intros b0.
  - destruct tail as [|t tail]; simpl; split_tests; simpl; auto.
  - generalize (byteZ c1); intros b1. simpl. split_tests; simpl; auto.
  - generalize (byteZ c1) (byteZ c2); intros b1 b2. simpl. auto.
Qed.

Lemma spaceFree_app_space (tok tail : list ascii) (sep : ascii) :
  asciiSpace sep = true -> spaceFree tok = true ->
  forall pre suf, tok = pre ++ suf -> suf <> [] ->
                  strings.spaceWidth (suf ++ sep :: tail) = 0%nat.
Proof.
  intros Hsep Hfree pre suf -> Hsuf.
  apply spaceWidth_before_space; auto.
  induction pre as [|p pre IH]; simpl in Hfree.
  - destruct suf; [contradiction|]. simpl in Hfree.
    apply andb_prop in Hfree as [H _]. now apply Nat.eqb_eq in H.
  - apply andb_prop in Hfree as [_ H]. now apply IH.
Qed.

(** The scan goes through a token and closes it at the space that
    follows. *)
Lemma fieldsFrom_token_space (tok : list ascii) :
  forall (cur tail : list ascii) (sep : ascii),
    asciiSpace sep = true -> spaceFree tok = true ->
    strings.fieldsFrom (tok ++ sep :: tail) 0 cur
    = strings.closeField (rev tok ++ cur) ++ strings.fieldsFrom tail 0 [].
Proof.
  induction tok as [|c tok IH]; intros cur tail sep Hsep Hfree.
  - cbn -[strings.spaceWidth]. now rewrite (spaceWidth_asciiSpace sep tail Hsep).
  - change ((c :: tok) ++ sep :: tail) with (c :: (tok ++ sep :: tail)).
    cbn -[strings.spaceWidth].
    change (c :: (tok ++ sep :: tail)) with ((c :: tok) ++ sep :: tail).
    rewrite (spaceFree_app_space (c :: tok) tail sep Hsep Hfree [] (c :: tok) eq_refl)
      by discriminate.
    simpl in Hfree. apply andb_prop in Hfree as [_ Hfree].
    rewrite (IH (c :: cur) tail sep Hsep Hfree).
    now rewrite <- app_assoc.
Qed.

Lemma fieldsFrom_token_end (tok : list ascii) :
  forall cur, spaceFree tok = true ->
              strings.fieldsFrom tok 0 cur = strings.closeField (rev tok ++ cur).
Proof.
  induction tok as [|c tok IH]; intros cur Hfree; [reflexivity|].
  simpl in Hfree. apply andb_prop in Hfree as [H0 Hfree]. apply Nat.eqb_eq in H0.
  cbn -[strings.spaceWidth]. rewrite H0, (IH (c :: cur) Hfree).
  simpl. now rewrite <- app_assoc.
Qed.

Lemma bytes_append (s1 s2 : string) : bytes (s1 +:+ s2) = bytes s1 ++ bytes s2.
Proof.
  induction s1 as [|c s1 IH]; [reflexivity|].
  change (bytes (String.String c s1 +:+ s2)) with (c :: bytes (s1 +:+ s2)).
  now rewrite IH.
Qed.

Lemma closeField_token (tok : string) :
  tok <> ""%string -> strings.closeField (rev (bytes tok) ++ []) = [tok].
Proof.
  intros Hne. rewrite app_nil_r. unfold strings.closeField.
  destruct (rev (bytes tok)) as [|c cs] eqn:Hrev.
  - apply (f_equal (@rev ascii)) in Hrev. rewrite rev_involutive in Hrev.
    now apply bytes_nil in Hrev.
  - rewrite <- Hrev, rev_involutive. unfold bytes.
    now rewrite string_of_list_ascii_of_string.
Qed.

(** [Fields] gives back the tokens that single spaces separate. *)
Lemma Fields_Join (toks : list string) :
  Forall isToken toks -> strings.Fields (strings.Join toks " ") = toks.
Proof.
  unfold strings.Fields. induction 1 as [|tok toks [Hne Hfree] Htoks IH]; [reflexivity|].
  destruct toks as [|tok' toks].
  - simpl strings.Join. rewrite (fieldsFrom_token_end _ _ Hfree).
    now apply closeField_token.
  - change (strings.Join (tok :: tok' :: toks) " ")
      with (tok +:+ (" " +:+ strings.Join (tok' :: toks) " ")).
    rewrite bytes_append.
    change (bytes (" " +:+ strings.Join (tok' :: toks) " "))
      with (" "%char :: bytes (strings.Join (tok' :: toks) " ")).
    rewrite (fieldsFrom_token_space _ _ _ " " eq_refl Hfree).
    rewrite (closeField_token tok Hne). cbn [app]. f_equal. exact IH.
Qed.

(** ** Type tags *)

Lemma supportedScalar_false (tag : string) :
  supportedScalar tag = false ->
  String.eqb tag "bool" = false /\ String.eqb tag "string" = false /\
  String.eqb tag "hexbytes" = false /\ String.eqb tag "int32" = false /\
  String.eqb tag "uint16" = false /\ String.eqb tag "uint32" = false /\
  String.eqb tag "uint64" = false /\ String.eqb tag "float32" = false /\
  String.eqb tag "float64" = false.
Proof.
  unfold supportedScalar, declaredType.
  repeat match goal with
         | |- context [String.eqb tag ?s] => destruct (String.eqb tag s); try discriminate
         end.
  intros _. repeat split.
Qed.

(** The default case of the switch of [toMMDBType]. *)
Lemma toMMDBType_unsupported (tag raw : string) (optim : Optimizations) :
  supportedScalar tag = false -> toMMDBType tag raw optim = Err ErrUnsupportedType.
Proof.
  intros H. apply supportedScalar_false in H.
  destruct H as (H1 & H2 & H3 & H4 & H5 & H6 & H7 & H8 & H9).
  unfold toMMDBType. now rewrite H1, H2, H3, H4, H5, H6, H7, H8, H9.
Qed.

(** A value built by [toMMDBType] is a scalar of the type that the tag
    declares. *)
Lemma toMMDBType_scalar (tag raw : string) (optim : Optimizations) (v : DataType) :
  toMMDBType tag raw optim = Ok v ->
  isScalar v = true /\ declaredType tag = Some (typeName v).
Proof.
  unfold toMMDBType, declaredType.
  repeat match goal with
         | |- context [String.eqb tag ?s] => destruct (String.eqb tag s)
         end;
    try discriminate;
    try (intros [= <-]; split; reflexivity);
    rewrite bind_Ok; intros (x & _ & [= <-]); split; reflexivity.
Qed.

Lemma substring_0_0 (s : string) : substring 0 0 s = ""%string.
Proof. now destruct s. Qed.

(** A tag from which [CutPrefix] cuts "array:" is "array:" followed by the
    subtype returned. *)
Lemma CutPrefix_array_inv (tag sub : string) :
  strings.CutPrefix tag "array:" = (sub, true) -> tag = "array:" +:+ sub.
Proof.
  unfold strings.CutPrefix.
  destruct (strings.HasPrefix tag "array:") eqn:Hp; [|discriminate].
  intros [= <-]. unfold strings.HasPrefix in Hp.
  apply andb_prop in Hp as [_ Hp]. apply String.eqb_eq in Hp.
  destruct tag as [|c0 [|c1 [|c2 [|c3 [|c4 [|c5 rest]]]]]]; try discriminate.
  simpl in Hp. rewrite substring_0_0 in Hp. injection Hp as -> -> -> -> -> ->.
  unfold sliceFrom, len. simpl. rewrite Nat.sub_0_r.
  fold (len rest). now rewrite substring_whole.
Qed.

(** ** Array coercion *)

(** C3.  For every array-typed coercion (type tag "array:<subtype>") the raw
    text is split on white space and each token is coerced independently with
    the subtype: the coercion succeeds exactly with the list of the coerced
    tokens; if a token fails, the coercion fails and reports the 0-based
    position of the first failing token; a raw text with no token, such as
    an empty one or one made of white space only, yields the empty array and
    no error. *)
Theorem array_coercion_first_failure (sub raw : string) (optim : Optimizations) :
  let sv := {| Type_ := "array:" +:+ sub; Value := raw |} in
  let tokens := strings.Fields raw in
  (forall v, ToMMDBType sv optim = Ok v <->
             exists vs, v = Slice vs /\ Forall2 (coerces sub optim) tokens vs) /\
  (forall i tok e,
      tokens !! i = Some tok ->
      toMMDBType sub tok optim = Err e ->
      (forall j tok', (j < i)%nat -> tokens !! j = Some tok' ->
                      isOk (toMMDBType sub tok' optim) = true) ->
      ToMMDBType sv optim = Err (ErrArrayEntry i e)) /\
  ((exists tok, tok ∈ tokens /\ isOk (toMMDBType sub tok optim) = false) ->
   exists i tok e,
     tokens !! i = Some tok /\ toMMDBType sub tok optim = Err e /\
     (forall j tok', (j < i)%nat -> tokens !! j = Some tok' ->
                     isOk (toMMDBType sub tok' optim) = true) /\
     ToMMDBType sv optim = Err (ErrArrayEntry i e)) /\
  (tokens = [] -> ToMMDBType sv optim = Ok (Slice [])) /\
  (forallb asciiSpace (bytes raw) = true -> ToMMDBType sv optim = Ok (Slice [])).
Proof.
  intros sv tokens. unfold sv. rewrite ToMMDBType_array.
  assert (Hempty : tokens = [] -> toMMDBArray sub raw optim = Ok (Slice [])).
  { intros Ht. apply toMMDBArray_Ok. exists []. fold tokens. rewrite Ht.
    split; [reflexivity | constructor]. }
  split; [|split; [|split; [|split]]].
  - intros v. apply toMMDBArray_Ok.
  - intros i tok e. apply toMMDBArray_Err.
  - intros (tok & Hin & Hfail).
    destruct (first_failure sub optim tokens)
      as [(vs & Hvs) | (k & tok' & e & Hk & He & Hb)].
    + exfalso. apply list_elem_of_lookup in Hin as (i & Hi).
      destruct (Forall2_lookup_l _ _ _ _ _ Hvs Hi) as (v & _ & Hv).
      unfold coerces in Hv. now rewrite Hv in Hfail.
    + exists k, tok', e. repeat split; auto.
      now apply toMMDBArray_Err with (tok := tok').
  - exact Hempty.
  - intros Hws. apply Hempty. now apply Fields_asciiSpace.
Qed.

(** The second token of " 1 x  3 y" is the first that is no [uint32]. *)
Lemma array_coercion_first_failure_witness :
  ToMMDBType {| Type_ := "array:uint32"; Value := " 1 x  3 y" |} optimNone
  = Err (ErrArrayEntry 1 (NumError "ParseUint" "x" ErrSyntax)).
Proof.
  apply (proj1 (proj2 (array_coercion_first_failure "uint32" " 1 x  3 y" optimNone))
           1%nat "x"%string).
  - reflexivity.
  - reflexivity.
  - intros [|j] tok' Hj Hl; [|lia]. injection Hl as <-. reflexivity.
Defined.

(** C6.  When the raw text of an array-typed field consists of N tokens
    separated by white space, each of which coerces under the declared
    subtype, the coercion succeeds and yields an array of exactly N typed
    values, the i-th value being the coercion of the i-th token.  The
    tokens of a raw text are its fields; N tokens joined by single spaces
    are a raw text with these N tokens. *)
Theorem array_coercion_roundtrip (sub raw : string) (optim : Optimizations)
  (N : nat) (tokens : list string) (vs : list DataType) :
  length tokens = N ->
  Forall2 (coerces sub optim) tokens vs ->
  (strings.Fields raw = tokens ->
   ToMMDBType {| Type_ := "array:" +:+ sub; Value := raw |} optim = Ok (Slice vs)) /\
  (Forall isToken tokens ->
   ToMMDBType {| Type_ := "array:" +:+ sub; Value := strings.Join tokens " " |} optim
   = Ok (Slice vs)) /\
  length vs = N /\
  forall i tok, tokens !! i = Some tok ->
                exists v, vs !! i = Some v /\ toMMDBType sub tok optim = Ok v.
Proof.
  intros HN Hvs. split; [|split; [|split]].
  - intros <-. rewrite ToMMDBType_array. apply toMMDBArray_Ok. eauto.
  - intros Htok. rewrite ToMMDBType_array. apply toMMDBArray_Ok.
    rewrite (Fields_Join tokens Htok). eauto.
  - rewrite <- HN. symmetry. eapply Forall2_length, Hvs.
  - intros i tok Hi. destruct (Forall2_lookup_l _ _ _ _ _ Hvs Hi) as (v & Hv & Hc).
    eauto.
Qed.

Lemma array_coercion_roundtrip_witness :
  ToMMDBType {| Type_ := "array:uint32"; Value := " 10 20  30 " |} optimNone
  = Ok (Slice [Uint32 10; Uint32 20; Uint32 30]).
Proof.
  refine (proj1 (array_coercion_roundtrip "uint32" " 10 20  30 " optimNone 3
                   ["10"; "20"; "30"]%string [Uint32 10; Uint32 20; Uint32 30]
                   eq_refl _) eq_refl).
  repeat constructor.
Defined.

(** ** Arrays do not nest *)

(** An array tag whose subtype is no supported scalar tag: nothing is
    checked before the first token. *)
Lemma toMMDBArray_unsupported (sub raw : string) (optim : Optimizations) :
  supportedScalar sub = false ->
  toMMDBArray sub raw optim =
  match strings.Fields raw with
  | [] => Ok (Slice [])
  | _ :: _ => Err (ErrArrayEntry 0 ErrUnsupportedType)
  end.
Proof.
  intros Hsub. unfold toMMDBArray.
  destruct (strings.Fields raw) as [|tok toks]; simpl; [reflexivity|].
  now rewrite (toMMDBType_unsupported sub tok optim Hsub).
Qed.

(** C8 as the specification states it fails: the tag "array:array:uint32"
    coerces an empty raw text to the empty array. *)
Lemma nested_array_tag_counterexample :
  ToMMDBType {| Type_ := "array:array:uint32"; Value := "" |} optimNone
  = Ok (Slice []).
Proof. reflexivity. Qed.

(** A coerced value is a scalar of the declared type, or a slice of scalars
    of the type declared by the subtype. *)
Lemma ToMMDBType_shape (sv : SourceValue) (optim : Optimizations) (v : DataType) :
  ToMMDBType sv optim = Ok v ->
  (isScalar v = true /\ declaredType (Type_ sv) = Some (typeName v)) \/
  (exists sub vs,
      Type_ sv = "array:" +:+ sub /\ v = Slice vs /\
      Forall (fun x => isScalar x = true /\ declaredType sub = Some (typeName x)) vs).
Proof.
  unfold ToMMDBType.
  destruct (strings.CutPrefix (Type_ sv) "array:") as [sub [|]] eqn:Hcut.
  - intros Hv. right. apply CutPrefix_array_inv in Hcut.
    apply toMMDBArray_Ok in Hv as (vs & -> & Hvs).
    exists sub, vs. repeat split; auto.
    induction Hvs as [|tok x toks vs Hx _ IH]; constructor; auto.
    now apply toMMDBType_scalar in Hx.
  - intros Hv. left. now apply toMMDBType_scalar in Hv.
Qed.

(** C8, amended.  Every successfully coerced value is a scalar, or an array
    of scalars that all have the mmdb type declared by the subtype of the
    tag: an array holds no array.  A type tag of the form "array:array:<t>"
    fails on every raw text with a token, the first token being rejected
    with the unsupported-type error, and yields the empty array on a raw
    text with no token. *)
Theorem arrays_do_not_nest (sv : SourceValue) (optim : Optimizations) :
  (forall v, ToMMDBType sv optim = Ok v ->
     (isScalar v = true /\ declaredType (Type_ sv) = Some (typeName v)) \/
     (exists sub vs,
         Type_ sv = "array:" +:+ sub /\ v = Slice vs /\
         Forall (fun x => isScalar x = true /\ declaredType sub = Some (typeName x)) vs)) /\
  (forall t, Type_ sv = "array:array:" +:+ t ->
     ToMMDBType sv optim =
     match strings.Fields (Value sv) with
     | [] => Ok (Slice [])
     | _ :: _ => Err (ErrArrayEntry 0 ErrUnsupportedType)
     end).
Proof.
  split.
  - intros v. apply ToMMDBType_shape.
  - intros t Ht. destruct sv as [ty raw]. simpl in *. subst ty.
    change ("array:array:" +:+ t) with ("array:" +:+ ("array:" +:+ t)).
    rewrite ToMMDBType_array. apply toMMDBArray_unsupported. reflexivity.
Qed.

Lemma arrays_do_not_nest_witness :
  ToMMDBType {| Type_ := "array:array:uint32"; Value := "1 2" |} optimNone
  = Err (ErrArrayEntry 0 ErrUnsupportedType).
Proof.
  exact (proj2 (arrays_do_not_nest
                  {| Type_ := "array:array:uint32"; Value := "1 2" |} optimNone)
           "uint32"%string eq_refl).
Defined.

(** ** Unsupported type tags *)

(** C9 as the specification states it fails: "array:foo" is no supported
    tag, yet an empty raw text coerces under it. *)
Lemma unsupported_tag_counterexample :
  unsupportedTag "array:foo" /\
  ToMMDBType {| Type_ := "array:foo"; Value := "" |} optimNone = Ok (Slice []).
Proof.
  split; [|reflexivity]. split; [reflexivity|].
  intros sub H. cbv [String.append] in H. injection H as <-. reflexivity.
Qed.

(** C9, amended.  For a type tag that is no supported scalar tag: without
    the "array:" prefix the coercion fails with the unsupported-type error
    on every raw text; with the prefix and an unsupported subtype it fails
    on every raw text that has a token, the entry 0 being rejected with the
    unsupported-type error, and it yields the empty array on a raw text
    without token. *)
Theorem unsupported_tag_fails (tag raw : string) (optim : Optimizations) :
  unsupportedTag tag ->
  (snd (strings.CutPrefix tag "array:") = false ->
   ToMMDBType {| Type_ := tag; Value := raw |} optim = Err ErrUnsupportedType) /\
  (forall sub, tag = "array:" +:+ sub ->
     ToMMDBType {| Type_ := tag; Value := raw |} optim =
     match strings.Fields raw with
     | [] => Ok (Slice [])
     | _ :: _ => Err (ErrArrayEntry 0 ErrUnsupportedType)
     end).
Proof.
  intros [Htag Hsub]. split.
  - unfold ToMMDBType. simpl.
    destruct (strings.CutPrefix tag "array:") as [s b]. simpl. intros ->.
    now apply toMMDBType_unsupported.
  - intros sub ->. rewrite ToMMDBType_array.
    apply toMMDBArray_unsupported. now apply Hsub.
Qed.

Lemma unsupported_tag_fails_witness :
  ToMMDBType {| Type_ := "int64"; Value := "12" |} optimNone = Err ErrUnsupportedType.
Proof.
  apply (unsupported_tag_fails "int64" "12" optimNone).
  - split; [reflexivity|]. intros sub H. cbv [String.append] in H. discriminate H.
  - reflexivity.
Defined.

(** ** LoadSources *)

Section LoadSourcesProperties.

Variable Source : Type.
Variable LoadCSVSource : DatabaseInput -> gmap string string -> result Source.
Variable LoadIPFireSource : DatabaseInput -> gmap string string -> result Source.

Let load := loadInput Source LoadCSVSource LoadIPFireSource.
Let loop := loadInputs Source LoadCSVSource LoadIPFireSource.

(** One turn of the loop is [loadInput]. *)
Lemma loadInputs_cons (input : DatabaseInput) (inputs : list DatabaseInput)
(types : gmap string string) (sources : list Source) :
loop (input :: inputs) types sources =
match load types input with
| Ok s => loop inputs types (sources ++ [s])
| Err e => Err e
end.
Proof.
unfold loop, load, loadInput. simpl.
destruct (strings.HasSuffix (File input) ".csv").
- now destruct (LoadCSVSource input types).
- destruct (strings.HasSuffix (File input) ".ipfire.txt"); [|reflexivity].
  now destruct (LoadIPFireSource input types).
Qed.

Lemma loadInputs_Ok (types : gmap string string) (inputs : list DatabaseInput) :
forall (ss sources : list Source),
  Forall2 (fun input s => load types input = Ok s) inputs ss ->
  loop inputs types sources = Ok (sources ++ ss).
Proof.
induction inputs as [|input inputs IH]; intros ss sources H; inversion H; subst.
- simpl. now rewrite app_nil_r.
- rewrite loadInputs_cons.
  match goal with Hl : load _ _ = Ok _ |- _ => rewrite Hl end.
  erewrite IH by eassumption. now rewrite <- app_assoc.
Qed.

(** The loop returns the error of the first input that has one. *)
Lemma loadInputs_Err (types : gmap string string) (pre : list DatabaseInput) :
forall (input : DatabaseInput) (post : list DatabaseInput) (e : error)
       (sources : list Source),
  Forall (fun i => isOk (load types i) = true) pre ->
  load types input = Err e ->
  loop (pre ++ input :: post) types sources = Err e.
Proof.
induction pre as [|p pre IH]; intros input post e sources Hpre He.
- simpl app. rewrite loadInputs_cons. now rewrite He.
- simpl app. rewrite loadInputs_cons. inversion Hpre as [|? ? Hp Hpre']; subst.
  destruct (load types p); [|discriminate]. now apply IH.
Qed.

(** A list with a failing input splits at the first one. *)
Lemma first_failing_input (types : gmap string string) (inputs : list DatabaseInput) :
(exists input, input ∈ inputs /\ isOk (load types input) = false) ->
exists pre input post e,
  inputs = pre ++ input :: post /\
  Forall (fun i => isOk (load types i) = true) pre /\
  load types input = Err e.
Proof.
induction inputs as [|i inputs IH]; intros (input & Hin & Hfail).
- inversion Hin.
- destruct (load types i) as [s|e] eqn:Hi.
  + destruct IH as (pre & input' & post & e & -> & Hpre & He).
    * exists input. split; [|exact Hfail].
      apply elem_of_cons in Hin as [-> | Hin]; [|exact Hin].
      rewrite Hi in Hfail. discriminate.
    * exists (i :: pre), input', post, e. repeat split; auto.
      constructor; [now rewrite Hi | exact Hpre].
  + exists [], i, inputs, e. repeat split; auto.
Qed.

Lemma loadInput_unsupported (types : gmap string string) (input : DatabaseInput) :
unsupportedFile (File input) = true ->
load types input = Err (ErrUnsupportedInput (File input)).
Proof.
unfold unsupportedFile, load, loadInput.
destruct (strings.HasSuffix (File input) ".csv"); [discriminate|].
destruct (strings.HasSuffix (File input) ".ipfire.txt"); [discriminate|].
reflexivity.
Qed.

(** C10, amended.  [LoadSources] dispatches on the suffix of the file name:
  an input whose file name ends neither in ".csv" nor in ".ipfire.txt"
  has the error that names it as unsupported, any other input the
  result of the loader of its suffix.  If some configured input is
  unsupported or fails to load, [LoadSources] returns no source at all
  and the error of the first such input in the order of the
  configuration; if every input loads, it returns their sources in that
  order. *)
Theorem LoadSources_first_error (dbConfig : DatabaseConfig) :
(forall input, unsupportedFile (File input) = true ->
   load (Types dbConfig) input = Err (ErrUnsupportedInput (File input))) /\
(forall input, strings.HasSuffix (File input) ".csv" = true ->
   load (Types dbConfig) input =
   match LoadCSVSource input (Types dbConfig) with
   | Ok s => Ok s
   | Err err => Err (ErrLoadInput (File input) err)
   end) /\
(forall input, strings.HasSuffix (File input) ".csv" = false ->
   strings.HasSuffix (File input) ".ipfire.txt" = true ->
   load (Types dbConfig) input =
   match LoadIPFireSource input (Types dbConfig) with
   | Ok s => Ok s
   | Err err => Err (ErrLoadInput (File input) err)
   end) /\
((exists input, input ∈ Inputs dbConfig /\
                isOk (load (Types dbConfig) input) = false) ->
 exists pre input post e,
   Inputs dbConfig = pre ++ input :: post /\
   Forall (fun i => isOk (load (Types dbConfig) i) = true) pre /\
   load (Types dbConfig) input = Err e /\
   LoadSources Source LoadCSVSource LoadIPFireSource dbConfig = Err e) /\
(forall ss,
   Forall2 (fun input s => load (Types dbConfig) input = Ok s) (Inputs dbConfig) ss ->
   LoadSources Source LoadCSVSource LoadIPFireSource dbConfig = Ok ss).
Proof.
split; [|split; [|split; [|split]]].
- intros input. apply loadInput_unsupported.
- intros input H. unfold load, loadInput. now rewrite H.
- intros input H1 H2. unfold load, loadInput. now rewrite H1, H2.
- intros H. apply first_failing_input in H as (pre & input & post & e & Hsplit & Hpre & He).
  exists pre, input, post, e. repeat split; auto.
  unfold LoadSources. rewrite Hsplit. now apply loadInputs_Err.
- intros ss H. unfold LoadSources.
  now rewrite (loadInputs_Ok _ _ ss []).
Qed.

End LoadSourcesProperties.

(** C10 as stated fails: the second input is unsupported, but the error
    returned names the first input, whose loading failed. *)
Lemma LoadSources_counterexample :
  let dbConfig :=
    {| Inputs := [ {| File := "a.csv"; Fields := [] |};
                   {| File := "b.txt"; Fields := [] |} ];
       Types := ∅ |} in
  (exists input, input ∈ Inputs dbConfig /\ unsupportedFile (File input) = true) /\
  LoadSources unit failingLoader failingLoader dbConfig
  = Err (ErrLoadInput "a.csv" (ErrExternal "no such file")) /\
  ~ (exists file, unsupportedFile file = true /\
                  LoadSources unit failingLoader failingLoader dbConfig
                  = Err (ErrUnsupportedInput file)).
Proof.
  intros dbConfig. split; [|split].
  - exists {| File := "b.txt"; Fields := [] |}. split; [|reflexivity].
    unfold dbConfig. simpl. apply elem_of_cons. right. apply elem_of_cons. now left.
  - reflexivity.
  - intros (file & _ & H). discriminate H.
Qed.

(** With the inputs "a.txt" and "b.csv" the first input is the unsupported
    one, and the error returned is its error. *)
Lemma LoadSources_first_error_witness :
  let dbConfig :=
    {| Inputs := [ {| File := "a.txt"; Fields := [] |};
                   {| File := "b.csv"; Fields := [] |} ];
       Types := ∅ |} in
  exists pre input post e,
    Inputs dbConfig = pre ++ input :: post /\
    Forall (fun i => isOk (loadInput unit failingLoader failingLoader
                             (Types dbConfig) i) = true) pre /\
    loadInput unit failingLoader failingLoader (Types dbConfig) input = Err e /\
    LoadSources unit failingLoader failingLoader dbConfig = Err e.
Proof.
  intros dbConfig.
  apply (LoadSources_first_error unit failingLoader failingLoader dbConfig).
  exists {| File := "a.txt"; Fields := [] |}. split; [|reflexivity].
  unfold dbConfig. simpl. apply elem_of_cons. now left.
Defined.

(** ** Determinism and the equality of typed values *)

Lemma SFeqb_refl (x : float64) : f64.eqb x x = negb (f64.isNaN x).
Proof.
  unfold f64.eqb, SFeqb.
  destruct x as [[|]|[|]| |[|] m e]; simpl; try reflexivity;
    now rewrite Z.compare_refl, Pos.compare_cont_refl.
Qed.

Lemma bytesEqual_refl (x : list Byte.byte) : bytesEqual x x = true.
Proof.
  induction x as [|a x IH]; simpl; [reflexivity|].
  now rewrite (Byte.byte_dec_lb (eq_refl a)), IH.
Qed.

(** A scalar is equal to itself unless it is a NaN. *)
Lemma Equal_scalar_refl (v : DataType) :
  isScalar v = true -> Equal v v = negb (hasNaN v).
Proof.
  destruct v; simpl; try discriminate; intros _;
    auto using SFeqb_refl, bytesEqual_refl, Z.eqb_refl, String.eqb_refl, Bool.eqb_reflx.
Qed.

Lemma Equal_slice_refl (vs : list DataType) :
  Forall (fun x => isScalar x = true) vs ->
  Equal (Slice vs) (Slice vs) = negb (hasNaN (Slice vs)).
Proof.
  simpl. induction 1 as [|v vs Hv _ IH]; [reflexivity|].
  simpl existsb. rewrite negb_orb, <- IH, (Equal_scalar_refl v Hv). reflexivity.
Qed.

(** C7 as stated fails under the equality of the float type: "NaN" coerces,
    and the two values obtained are not equal. *)
Lemma coercion_deterministic_counterexample :
  exists v1 v2,
    ToMMDBType nanValue optimNone = Ok v1 /\
    ToMMDBType nanValue optimNone = Ok v2 /\
    Equal v1 v2 = false.
Proof. exists (Float64 S754_nan), (Float64 S754_nan). repeat split. Qed.

(** C7, amended.  Coercion is deterministic: two invocations of
    [SourceValue.ToMMDBType] on the same type tag, raw text and optimisation
    settings both fail with the same error, or both succeed with the same
    typed value; the two values are equal under the equality of their type
    exactly when no float NaN is among them. *)
Theorem coercion_deterministic (sv : SourceValue) (optim : Optimizations)
  (r1 r2 : result DataType) :
  r1 = ToMMDBType sv optim ->
  r2 = ToMMDBType sv optim ->
  (exists e, r1 = Err e /\ r2 = Err e) \/
  (exists v1 v2, r1 = Ok v1 /\ r2 = Ok v2 /\ v1 = v2 /\
                 Equal v1 v2 = negb (hasNaN v1)).
Proof.
  intros -> ->. destruct (ToMMDBType sv optim) as [v|e] eqn:Hv.
  - right. exists v, v. repeat split.
    destruct (ToMMDBType_shape sv optim v Hv)
      as [[Hs _] | (sub & vs & _ & -> & Hvs)].
    + now apply Equal_scalar_refl.
    + apply Equal_slice_refl. eapply Forall_impl; [exact Hvs|]. now intros x [? _].
  - left. eauto.
Qed.

Lemma coercion_deterministic_witness :
  (exists e, Ok (Uint16 7) = Err e /\ Ok (Uint16 7) = Err e) \/
  (exists v1 v2, Ok (Uint16 7) = Ok v1 /\ Ok (Uint16 7) = Ok v2 /\ v1 = v2 /\
                 Equal v1 v2 = negb (hasNaN v1)).
Proof.
  apply (coercion_deterministic {| Type_ := "uint16"; Value := "7" |} optimNone);
    reflexivity.
Defined.

(** ** Float rounding *)

(** [nearestAway m k] is an integer nearest to [m / 2^k], and the upper one
    when [m / 2^k] lies half way between two integers. *)
Lemma nearestAway_nearest (m k : Z) :
  0 <= m -> 1 <= k ->
  let n := math.nearestAway m k in
  0 <= n /\
  2 * Z.abs (n * 2 ^ k - m) <= 2 ^ k /\
  (2 * Z.abs (n * 2 ^ k - m) = 2 ^ k -> m < n * 2 ^ k).
Proof.
  intros Hm Hk n. unfold n, math.nearestAway.
  assert (Hd : 2 ^ k = 2 * 2 ^ (k - 1)).
  { rewrite <- Z.pow_succ_r by lia. f_equal. lia. }
  assert (Hh : 0 < 2 ^ (k - 1)) by (apply Z.pow_pos_nonneg; lia).
  set (h := 2 ^ (k - 1)) in *. rewrite Hd.
  pose proof (Z.div_mod (m + h) (2 * h) ltac:(lia)) as Hdiv.
  pose proof (Z.mod_pos_bound (m + h) (2 * h) ltac:(lia)) as Hmod.
  set (q := (m + h) / (2 * h)) in *. set (r := (m + h) mod (2 * h)) in *.
  assert (Hq : 0 <= q) by (apply Z.div_pos; lia).
  repeat split; [exact Hq | nia | nia].
Qed.

Lemma roundToDecimalPlaces_roundedFloat (optim : Optimizations) (v : float64) :
  (if negb (FloatDecimals optim =? 0)
   then roundToDecimalPlaces v (FloatDecimals optim) else v)
  = roundedFloat optim v.
Proof.
  unfold roundedFloat, roundToDecimalPlaces.
  destruct (FloatDecimals optim =? 0); simpl; [reflexivity|].
  destruct (Z.ltb_spec (FloatDecimals optim) 0).
  - now rewrite Z.max_l by lia.
  - now rewrite Z.max_r by lia.
Qed.

(** ** The value of a rounded float *)

Lemma digits2_pos_size (p : positive) : digits2_pos p = Pos.size p.
Proof. induction p; simpl; now rewrite ?IHp. Qed.

Lemma digits2_pos_iter_xO (p k : positive) :
  digits2_pos (Pos.iter xO p k) = (digits2_pos p + k)%positive.
Proof.
  induction k as [|k IH] using Pos.peano_ind.
  - simpl. lia.
  - rewrite Pos.iter_succ. simpl. rewrite IH. lia.
Qed.

Lemma iter_xO_value (p k : positive) :
  Zpos (Pos.iter xO p k) = Zpos p * 2 ^ Zpos k.
Proof.
  induction k as [|k IH] using Pos.peano_ind.
  - simpl. lia.
  - rewrite Pos.iter_succ, Pos2Z.inj_xO, IH, Pos2Z.inj_succ, Z.pow_succ_r by lia. lia.
Qed.

(** A mantissa of 53 digits at an exponent in range is a float as it
    stands. *)
Lemma binary_round_aux_exact (s : bool) (m : positive) (e : Z) :
  Zpos (digits2_pos m) = 53 -> -1074 <= e <= 971 ->
  binary_round_aux 53 1024 s (Zpos m) e loc_Exact = S754_finite s m e.
Proof.
  intros Hd He. unfold binary_round_aux, shr_fexp, fexp, emin. simpl Zdigits2.
  rewrite Hd.
  replace (Z.max (53 + e - 53) (3 - 1024 - 53) - e) with 0 by lia.
  simpl. rewrite Hd.
  replace (Z.max (53 + e - 53) (3 - 1024 - 53) - e) with 0 by lia.
  simpl. change (1024 - 53) with 971.
  destruct (Z.leb_spec e 971); [reflexivity | lia].
Qed.

(** A positive integer below [2^53] is a float, and it is the integer part
    of that float. *)
Lemma binary_round_integer (s : bool) (n : positive) :
  Zpos n < 2 ^ 53 ->
  f64.trunc (binary_round 53 1024 s n 0) = cond_Zopp s (Zpos n).
Proof.
  intros Hn.
  assert (Hd : Zpos (digits2_pos n) <= 53).
  { rewrite digits2_pos_size. pose proof (Pos.size_le n) as Hle.
    destruct (Z_le_gt_dec (Zpos (Pos.size n)) 53) as [|Hgt]; [assumption|].
    exfalso. assert (H54 : 2 ^ 54 <= 2 ^ Zpos (Pos.size n)) by (apply Z.pow_le_mono_r; lia).
    assert (Zpos (2 ^ Pos.size n) <= Zpos n~0) by exact Hle.
    rewrite Pos2Z.inj_pow in H. change (Zpos 2) with 2 in H.
    rewrite Pos2Z.inj_xO in H. change (2 ^ 54) with (2 * 2 ^ 53) in H54. lia. }
  unfold binary_round, shl_align, fexp, emin.
  replace (Z.max (Zpos (digits2_pos n) + 0 - 53) (3 - 1024 - 53) - 0)
    with (Zpos (digits2_pos n) - 53) by lia.
  replace (Z.max (Zpos (digits2_pos n) + 0 - 53) (3 - 1024 - 53))
    with (Zpos (digits2_pos n) - 53) by lia.
  destruct (Zpos (digits2_pos n) - 53) as [|k|k] eqn:Hk; [| lia |].
  - rewrite binary_round_aux_exact by lia. simpl. f_equal. lia.
  - rewrite binary_round_aux_exact.
    + unfold f64.trunc. destruct (Z.leb_spec 0 (Zneg k)); [lia|].
      f_equal. rewrite iter_xO_value. change (- Zneg k) with (Zpos k).
      apply Z.div_mul. apply Z.pow_nonzero; lia.
    + rewrite digits2_pos_iter_xO. lia.
    + lia.
Qed.

(** The float returned by [math.Round] for a float that is no integer holds
    the integer nearest to it, a half being rounded away from zero. *)
Lemma Round_value (s : bool) (m : positive) (e : Z) :
  e < 0 -> Zpos m < 2 ^ 53 ->
  f64.trunc (math.Round (S754_finite s m e))
  = cond_Zopp s (math.nearestAway (Zpos m) (- e)).
Proof.
  intros He Hm. unfold math.Round. destruct (Z.leb_spec 0 e); [lia|].
  destruct (nearestAway_nearest (Zpos m) (- e) ltac:(lia) ltac:(lia)) as (Hn0 & Hn & _).
  set (n := math.nearestAway (Zpos m) (- e)) in *.
  assert (Hbound : n < 2 ^ 53).
  { assert (Hk : 2 <= 2 ^ (- e)).
    { change 2 with (2 ^ 1) at 1. apply Z.pow_le_mono_r; lia. }
    nia. }
  destruct n as [|p|p]; [now destruct s | | lia].
  destruct s; unfold binary_normalize, cond_Zopp.
  - change (- Z.pos p) with (Z.neg p). cbv beta iota.
    now rewrite binary_round_integer.
  - now rewrite binary_round_integer.
Qed.

(** C2 as stated fails: halves are rounded away from zero, not to the even
    neighbour.  With a negative precision "2.5" becomes 3 and not 2; with
    the precision 1 "0.25" becomes 0.3 and not 0.2. *)
Lemma float_rounding_counterexample :
  (exists v,
      strconv.ParseFloat "2.5" 64 = Ok v /\
      toMMDBType "float64" "2.5" optimIntegers = Ok (Float64 (f64.ofInt 3)) /\
      roundHalfEvenToDecimalPlaces v (FloatDecimals optimIntegers) = f64.ofInt 2) /\
  (exists v v2 v3,
      strconv.ParseFloat "0.25" 64 = Ok v /\
      strconv.ParseFloat "0.2" 64 = Ok v2 /\
      strconv.ParseFloat "0.3" 64 = Ok v3 /\
      toMMDBType "float64" "0.25" optimOneDecimal = Ok (Float64 v3) /\
      roundHalfEvenToDecimalPlaces v (FloatDecimals optimOneDecimal) = v2 /\
      f64.eqb v2 v3 = false) /\
  f64.eqb (f64.ofInt 2) (f64.ofInt 3) = false.
Proof.
  split; [|split].
  - eexists. repeat split; vm_compute; reflexivity.
  - do 3 eexists. repeat split; vm_compute; reflexivity.
  - reflexivity.
Qed.

(** C2, amended.  For every float32 or float64 coercion the parsed value is
    kept as it is when the configured precision is 0 and is otherwise
    replaced by [Round(v * 10^p) / 10^p], where [p] is the configured
    precision, or 0 when that is negative (then [10^p] is 1: rounding to an
    integer), and where [Round] yields the integer nearest to its argument,
    a half being rounded away from zero: for a float [±m·2^e] with [e < 0]
    it returns the float of the integer [±n], where [n] is within one half of
    [m·2^e] and is the larger neighbour when both are as near. *)
Theorem float_rounding (raw : string) (optim : Optimizations) :
  toMMDBType "float64" raw optim
  = (v ← strconv.ParseFloat raw 64; Ok (Float64 (roundedFloat optim v))) /\
  toMMDBType "float32" raw optim
  = (v ← strconv.ParseFloat raw 32;
     Ok (Float32 (f64.toFloat32 (roundedFloat optim v)))) /\
  (forall v, FloatDecimals optim = 0 -> roundedFloat optim v = v) /\
  (forall v, FloatDecimals optim < 0 ->
     roundedFloat optim v = f64.div (math.Round (f64.mul v f64one)) f64one) /\
  (forall v, 0 < FloatDecimals optim ->
     roundedFloat optim v =
     f64.div (math.Round (f64.mul v (math.Pow10 (FloatDecimals optim))))
       (math.Pow10 (FloatDecimals optim))) /\
  (forall s m e, e < 0 -> Zpos m < 2 ^ 53 ->
     exists n,
       0 <= n /\
       math.Round (S754_finite s m e)
       = binary_normalize 53 1024 (cond_Zopp s n) 0 s /\
       f64.trunc (math.Round (S754_finite s m e)) = cond_Zopp s n /\
       2 * Z.abs (n * 2 ^ (- e) - Zpos m) <= 2 ^ (- e) /\
       (2 * Z.abs (n * 2 ^ (- e) - Zpos m) = 2 ^ (- e) -> Zpos m < n * 2 ^ (- e))) /\
  (forall x,
     match x with S754_finite _ _ e => 0 <= e | _ => True end ->
     math.Round x = x).
Proof.
  split; [|split; [|split; [|split; [|split; [|split]]]]].
  - unfold toMMDBType. simpl.
    destruct (strconv.ParseFloat raw 64) as [v|e]; simpl; [|reflexivity].
    now rewrite roundToDecimalPlaces_roundedFloat.
  - unfold toMMDBType. simpl.
    destruct (strconv.ParseFloat raw 32) as [v|e]; simpl; [|reflexivity].
    now rewrite roundToDecimalPlaces_roundedFloat.
  - intros v Hp. unfold roundedFloat. now rewrite Hp.
  - intros v Hp. unfold roundedFloat.
    destruct (Z.eqb_spec (FloatDecimals optim) 0); [lia|].
    now rewrite Z.max_l by lia.
  - intros v Hp. unfold roundedFloat.
    destruct (Z.eqb_spec (FloatDecimals optim) 0); [lia|].
    now rewrite Z.max_r by lia.
  - intros s m e He Hm. exists (math.nearestAway (Zpos m) (- e)).
    destruct (nearestAway_nearest (Zpos m) (- e)) as (Hn0 & Hn & Htie); [lia | lia |].
    split; [exact Hn0|]. split; [|split; [|split; [exact Hn | exact Htie]]].
    + unfold math.Round. destruct (Z.leb_spec 0 e); [lia | reflexivity].
    + now apply Round_value.
  - intros [s|s| |s m e] H; try reflexivity.
    unfold math.Round. destruct (Z.leb_spec 0 e); [reflexivity | lia].
Qed.

(** With a negative precision, "2.5" is rounded to 3. *)
Lemma float_rounding_witness :
  toMMDBType "float64" "2.5" optimIntegers = Ok (Float64 (f64.ofInt 3)).
Proof.
  rewrite (proj1 (float_rounding "2.5" optimIntegers)).
  vm_compute. reflexivity.
Defined.

(** ** Integer coercion *)

Lemma isDigit_range (c : ascii) :
  isDigit c = true -> 0 <= byteZ c - byteZ "0" <= 9.
Proof.
  unfold isDigit. intros [H1 H2]%andb_prop.
  apply Z.leb_le in H1, H2. change (byteZ "0") with 48 in *.
  change (byteZ "9") with 57 in *. lia.
Qed.

Lemma digitVal_digit (c : ascii) :
  isDigit c = true -> strconv.digitVal c = Some (byteZ c - byteZ "0").
Proof. unfold strconv.digitVal. now intros ->. Qed.

(** A byte that is no digit is rejected by [ParseUint] in base 10. *)
Lemma digitVal_other (c : ascii) :
  isDigit c = false ->
  match strconv.digitVal c with Some d => 10 <= d | None => True end.
Proof.
  unfold strconv.digitVal. intros ->.
  destruct (isLowerLetter (lower c)) eqn:Hl; [|exact I].
  unfold isLowerLetter in Hl. apply andb_prop in Hl as [H1 _].
  apply Z.leb_le in H1. lia.
Qed.

Lemma digitsValue_ge (cs : list ascii) :
  forall acc v, 0 <= acc -> digitsValue cs acc = Some v -> acc <= v.
Proof.
  induction cs as [|c cs IH]; intros acc v Hacc; simpl.
  - intros [= <-]. lia.
  - destruct (isDigit c) eqn:Hc; [|discriminate].
    apply isDigit_range in Hc. intros H. apply IH in H; lia.
Qed.

(** The loop of [ParseUint] in base 10 computes the value of a digit string
    that does not exceed [maxVal], reports a range error for a larger one,
    and an error for any other string. *)
Lemma parseUintLoop_spec (maxVal : Z) (cs : list ascii) :
  0 <= maxVal < 2 ^ 64 ->
  forall n, 0 <= n <= maxVal ->
    match digitsValue cs n with
    | Some v =>
        strconv.parseUintLoop cs 10 (strconv.maxUint64 / 10 + 1) maxVal n
        = if v <=? maxVal then (v, None) else (maxVal, Some ErrRange)
    | None =>
        exists z k,
          strconv.parseUintLoop cs 10 (strconv.maxUint64 / 10 + 1) maxVal n
          = (z, Some k) /\ (k = ErrRange -> z = maxVal)
    end.
Proof.
  intros Hmax. change (strconv.maxUint64 / 10 + 1) with 1844674407370955162.
  change (2 ^ 64) with 18446744073709551616 in Hmax.
  induction cs as [|c cs IH]; intros n Hn; simpl.
  - destruct (Z.leb_spec n maxVal); [reflexivity | lia].
  - destruct (isDigit c) eqn:Hc.
    + rewrite (digitVal_digit c Hc). apply isDigit_range in Hc.
      set (d := byteZ c - byteZ "0") in *.
      destruct (Z.leb_spec 10 d); [lia|].
      change (2 ^ 64) with 18446744073709551616.
      destruct (Z.leb_spec 1844674407370955162 n) as [Hcut|Hcut].
      * destruct (digitsValue cs (n * 10 + d)) as [v|] eqn:Hv.
        -- apply digitsValue_ge in Hv; [|lia].
           destruct (Z.leb_spec v maxVal); [lia | reflexivity].
        -- exists maxVal, ErrRange. auto.
      * rewrite (Z.mod_small (n * 10)) by lia.
        destruct (Z_lt_le_dec (n * 10 + d) 18446744073709551616) as [Hfit|Hwrap].
        -- rewrite (Z.mod_small (n * 10 + d)) by lia.
           destruct (Z.ltb_spec (n * 10 + d) (n * 10)); [lia|].
           destruct (Z.ltb_spec maxVal (n * 10 + d)) as [Hover|Hin]; simpl.
           ++ destruct (digitsValue cs (n * 10 + d)) as [v|] eqn:Hv.
              ** apply digitsValue_ge in Hv; [|lia].
                 destruct (Z.leb_spec v maxVal); [lia | reflexivity].
              ** exists maxVal, ErrRange. auto.
           ++ apply IH. lia.
        -- assert (Hm : (n * 10 + d) mod 18446744073709551616
                        = n * 10 + d - 18446744073709551616).
           { symmetry. apply Z.mod_unique with (q := 1); lia. }
           rewrite Hm.
           destruct (Z.ltb_spec (n * 10 + d - 18446744073709551616) (n * 10)); [|lia].
           simpl.
           destruct (digitsValue cs (n * 10 + d)) as [v|] eqn:Hv.
           ++ apply digitsValue_ge in Hv; [|lia].
              destruct (Z.leb_spec v maxVal); [lia | reflexivity].
           ++ exists maxVal, ErrRange. auto.
    + pose proof (digitVal_other c Hc) as Hd.
      destruct (strconv.digitVal c) as [d|].
      * destruct (Z.leb_spec 10 d); [|lia]. exists 0, ErrSyntax. split; [reflexivity | discriminate].
      * exists 0, ErrSyntax. split; [reflexivity | discriminate].
Qed.

(** [parseUint] in base 10 at the bit sizes used by [toMMDBType]. *)
Lemma parseUint_spec (s : string) (bitSize : Z) :
  bitSize = 16 \/ bitSize = 32 \/ bitSize = 64 ->
  s <> ""%string ->
  match digitsValue (bytes s) 0 with
  | Some v =>
      strconv.parseUint s 10 bitSize
      = if v <=? 2 ^ bitSize - 1 then (v, None) else (2 ^ bitSize - 1, Some ErrRange)
  | None =>
      exists z k, strconv.parseUint s 10 bitSize = (z, Some k) /\
                  (k = ErrRange -> z = 2 ^ bitSize - 1)
  end.
Proof.
  intros Hbits Hs. unfold strconv.parseUint.
  destruct (String.eqb_spec s ""); [contradiction|].
  assert (Hmax : (2 ^ bitSize - 1) mod 2 ^ 64 = 2 ^ bitSize - 1).
  { destruct Hbits as [-> | [-> | ->]]; reflexivity. }
  rewrite Hmax.
  apply (parseUintLoop_spec (2 ^ bitSize - 1) (bytes s)).
  - destruct Hbits as [-> | [-> | ->]]; simpl; lia.
  - destruct Hbits as [-> | [-> | ->]]; simpl; lia.
Qed.

Lemma digitsValue_nonneg (cs : list ascii) (v : Z) :
  digitsValue cs 0 = Some v -> 0 <= v.
Proof. apply digitsValue_ge. lia. Qed.

Lemma int32_small (v : Z) : - 2 ^ 31 <= v < 2 ^ 31 -> int32 v = v.
Proof. intros H. unfold int32. rewrite Z.mod_small; lia. Qed.

(** [ParseUint] succeeds exactly on the digit strings whose value fits. *)
Lemma ParseUint_Ok (s : string) (bitSize v : Z) :
  bitSize = 16 \/ bitSize = 32 \/ bitSize = 64 ->
  strconv.ParseUint s 10 bitSize = Ok v <->
  s <> ""%string /\ digitsValue (bytes s) 0 = Some v /\ 0 <= v <= 2 ^ bitSize - 1.
Proof.
  intros Hbits. unfold strconv.ParseUint.
  destruct (String.eqb_spec s "") as [-> | Hs].
  - unfold strconv.parseUint. simpl. split; [discriminate | intros [[] _]; reflexivity].
  - pose proof (parseUint_spec s bitSize Hbits Hs) as Hspec.
    destruct (digitsValue (bytes s) 0) as [w|] eqn:Hw.
    + rewrite Hspec. pose proof (digitsValue_nonneg _ _ Hw).
      destruct (Z.leb_spec w (2 ^ bitSize - 1)).
      * split; [intros [= <-]; auto | intros (_ & [= <-] & _); reflexivity].
      * split; [discriminate | intros (_ & [= <-] & ?); lia].
    + destruct Hspec as (z & k & -> & _).
      split; [destruct k; discriminate | intros (_ & [=] & _)].
Qed.

(** [ParseInt] at 32 bits succeeds exactly on the optionally signed digit
    strings whose value is an [int32]. *)
Lemma ParseInt_Ok (s : string) (v : Z) :
  strconv.ParseInt s 10 32 = Ok v <->
  numeral s = Some v /\ - 2 ^ 31 <= v <= 2 ^ 31 - 1.
Proof.
  unfold strconv.ParseInt, numeral.
  destruct s as [|c0 s1]; [split; [discriminate | intros [[=] _]]|].
  change (bytes (String.String c0 s1)) with (c0 :: bytes s1). cbv beta iota.
  assert (Hsigned : forall neg : bool,
    (match strconv.parseUint s1 10 32 with
     | (_, Some ErrSyntax) => Err (strconv.syntaxError "ParseInt" (String.String c0 s1))
     | (un, _) =>
         if negb neg && (2 ^ (32 - 1) <=? un)
         then Err (strconv.rangeError "ParseInt" (String.String c0 s1))
         else if neg && (2 ^ (32 - 1) <? un)
              then Err (strconv.rangeError "ParseInt" (String.String c0 s1))
              else Ok (if neg then - un else un)
     end = Ok v) <->
    (match bytes s1 with
     | [] => None
     | _ :: _ => (if neg then Z.opp else id) <$> digitsValue (bytes s1) 0
     end = Some v /\ - 2 ^ 31 <= v <= 2 ^ 31 - 1)).
  { intros neg. destruct (String.eqb_spec s1 "") as [-> | Hs1].
    - simpl. split; [discriminate | intros [[=] _]].
    - assert (Hb : exists b bs, bytes s1 = b :: bs).
      { destruct s1; [contradiction | simpl; eauto]. }
      destruct Hb as (b & bs & Hb). rewrite Hb at 1.
      pose proof (parseUint_spec s1 32 ltac:(auto) Hs1) as Hspec.
      change (2 ^ (32 - 1)) with 2147483648. change (2 ^ 31) with 2147483648.
      change (2 ^ 32 - 1) with 4294967295 in Hspec.
      destruct (digitsValue (bytes s1) 0) as [w|] eqn:Hw.
      + rewrite Hspec. pose proof (digitsValue_nonneg _ _ Hw). simpl fmap.
        destruct (Z.leb_spec w 4294967295).
        * destruct neg; simpl.
          -- destruct (Z.ltb_spec 2147483648 w).
             ++ split; [discriminate | intros [[= <-] ?]; lia].
             ++ split; [intros [= <-]; split; [reflexivity | lia] | intros [[= <-] _]; reflexivity].
          -- destruct (Z.leb_spec 2147483648 w).
             ++ split; [discriminate | intros [[= <-] ?]; lia].
             ++ split; [intros [= <-]; split; [reflexivity | lia] | intros [[= <-] _]; reflexivity].
        * destruct neg; simpl.
          -- split; [discriminate | intros [[= <-] ?]; lia].
          -- split; [discriminate | intros [[= <-] ?]; lia].
      + destruct Hspec as (z & k & -> & Hz). simpl fmap.
        destruct k.
        * split; [discriminate | intros [[=] _]].
        * rewrite (Hz eq_refl). destruct neg; simpl;
            (split; [discriminate | intros [[=] _]]). }
  destruct (Ascii.eqb_spec c0 "+") as [-> | Hplus].
  - simpl. rewrite (Hsigned false).
    destruct (bytes s1); [reflexivity|].
    destruct (digitsValue _ 0); reflexivity.
  - destruct (Ascii.eqb_spec c0 "-") as [-> | Hminus].
    + apply (Hsigned true).
    + pose proof (parseUint_spec (String.String c0 s1) 32 ltac:(auto) ltac:(discriminate)) as Hspec.
      change (bytes (String.String c0 s1)) with (c0 :: bytes s1) in Hspec.
      change (2 ^ (32 - 1)) with 2147483648. change (2 ^ 31) with 2147483648.
      change (2 ^ 32 - 1) with 4294967295 in Hspec.
      destruct (digitsValue (c0 :: bytes s1) 0) as [w|] eqn:Hw.
      * rewrite Hspec. pose proof (digitsValue_nonneg _ _ Hw).
        destruct (Z.leb_spec w 4294967295); simpl.
        -- destruct (Z.leb_spec 2147483648 w).
           ++ split; [discriminate | intros [[= <-] ?]; lia].
           ++ split; [intros [= <-]; split; [reflexivity | lia] | intros [[= <-] _]; reflexivity].
        -- split; [discriminate | intros [[= <-] ?]; lia].
      * destruct Hspec as (z & k & -> & Hz). destruct k.
        -- split; [discriminate | intros [[=] _]].
        -- rewrite (Hz eq_refl). simpl. split; [discriminate | intros [[=] _]].
Qed.

Lemma numeral_unsigned (s : string) (v : Z) :
  digitsValue (bytes s) 0 = Some v -> s <> ""%string -> numeral s = Some v.
Proof.
  unfold numeral. destruct (bytes s) as [|c cs] eqn:Hb.
  - intros _ Hs. now apply bytes_nil in Hb.
  - intros Hv _.
    destruct (Ascii.eqb_spec c "-") as [-> | _]; [discriminate Hv|].
    destruct (Ascii.eqb_spec c "+") as [-> | _]; [discriminate Hv|].
    exact Hv.
Qed.

(** A successful integer coercion returns the value of the numeral, which
    lies in the range of the declared type. *)
Lemma toMMDBType_int_Ok (t : intType) (raw : string) (optim : Optimizations)
  (v : DataType) :
  toMMDBType (intTag t) raw optim = Ok v ->
  exists n, numeral raw = Some n /\ intMin t <= n <= intMax t /\ v = intValue t n.
Proof.
  destruct t; unfold toMMDBType; simpl; rewrite bind_Ok; intros (n & Hn & [= <-]).
  - apply ParseInt_Ok in Hn as [Hnum Hr]. exists n. repeat split; try lia; auto.
    simpl. now rewrite int32_small by lia.
  - apply ParseUint_Ok in Hn as (Hs & Hd & Hr); [|auto].
    exists n. repeat split; try lia; auto using numeral_unsigned.
    simpl. unfold uint16. now rewrite Z.mod_small by lia.
  - apply ParseUint_Ok in Hn as (Hs & Hd & Hr); [|auto].
    exists n. repeat split; try lia; auto using numeral_unsigned.
    simpl. unfold uint32. now rewrite Z.mod_small by lia.
  - apply ParseUint_Ok in Hn as (Hs & Hd & Hr); [|auto].
    exists n. repeat split; try lia; auto using numeral_unsigned.
Qed.

(** C5.  For every integer-typed coercion (int32, uint16, uint32, uint64)
    the bit width and the signedness of the declared type are enforced: a
    raw text whose numeric value lies outside the range of the type, a
    negative value for an unsigned type included, makes the coercion fail
    with an error; a coercion that succeeds returns the numeric value of the
    raw text itself, within the range, so no value is truncated to fit. *)
Theorem integer_range_enforced (t : intType) (raw : string) (optim : Optimizations) :
  (forall n, numeral raw = Some n ->
             n < intMin t \/ intMax t < n ->
             exists e, toMMDBType (intTag t) raw optim = Err e) /\
  (forall v, toMMDBType (intTag t) raw optim = Ok v ->
             exists n, numeral raw = Some n /\ intMin t <= n <= intMax t /\
                       v = intValue t n).
Proof.
  split.
  - intros n Hn Hout.
    destruct (toMMDBType (intTag t) raw optim) as [v|e] eqn:Hv; [|eauto].
    apply toMMDBType_int_Ok in Hv as (n' & Hn' & Hr & _).
    rewrite Hn in Hn'. injection Hn' as <-. lia.
  - intros v. apply toMMDBType_int_Ok.
Qed.

(** 65536 is no [uint16] and -1 is no [uint32]. *)
Lemma integer_range_enforced_witness :
  (exists e, toMMDBType "uint16" "65536" optimNone = Err e) /\
  (exists e, toMMDBType "uint32" "-1" optimNone = Err e).
Proof.
  split.
  - apply (proj1 (integer_range_enforced TUint16 "65536" optimNone) 65536).
    + reflexivity.
    + right. vm_compute. reflexivity.
  - apply (proj1 (integer_range_enforced TUint32 "-1" optimNone) (-1)).
    + reflexivity.
    + left. vm_compute. reflexivity.
Defined.

(** ** Document assembly *)

Lemma Split_nonempty (s : string) (sep : ascii) : strings.Split s sep <> [].
Proof.
  destruct s as [|c s]; simpl; [discriminate|].
  destruct (Ascii.eqb c sep); [discriminate|].
  destruct (strings.Split s sep); discriminate.
Qed.

(** Joining the parts gives the string back, so distinct keys have distinct
    paths. *)
Lemma Join_Split (s : string) (sep : ascii) :
  strings.Join (strings.Split s sep) (String.String sep "") = s.
Proof.
  induction s as [|c s IH]; simpl; [reflexivity|].
  pose proof (Split_nonempty s sep) as Hne.
  destruct (Ascii.eqb_spec c sep) as [-> | Hc].
  - destruct (strings.Split s sep) as [|h t] eqn:Hs; [contradiction|].
    change (strings.Join ("" :: h :: t) (String.String sep ""))
      with (String.String sep (strings.Join (h :: t) (String.String sep ""))).
    now rewrite IH.
  - destruct (strings.Split s sep) as [|h t] eqn:Hs; [contradiction|].
    destruct t as [|h' t].
    + simpl in *. now rewrite IH.
    + change (strings.Join (String.String c h :: h' :: t) (String.String sep ""))
        with (String.String c (strings.Join (h :: h' :: t) (String.String sep ""))).
      now rewrite IH.
Qed.

Lemma keyPath_inj (k1 k2 : string) : keyPath k1 = keyPath k2 -> k1 = k2.
Proof.
  unfold keyPath. intros H.
  rewrite <- (Join_Split k1 "."), <- (Join_Split k2 "."). now rewrite H.
Qed.

(** One step of the walk. *)
Lemma setValue_cons (key submap part : string) (rest : list string)
  (v : DataType) (m : gmap string DataType) :
  setValue key submap (part :: rest) v m
  = (x ← headValue key submap rest v (m !! part); Ok (<[part := x]> m)).
Proof.
  destruct rest as [|r rest]; [reflexivity|].
  change (setValue key submap (part :: r :: rest) v m)
    with (match m !! part with
          | None =>
              sub ← setValue key submap (r :: rest) v ∅;
              Ok (<[part := Map sub]> m)
          | Some (Map nextMapForEntry) =>
              sub ← setValue key submap (r :: rest) v nextMapForEntry;
              Ok (<[part := Map sub]> m)
          | Some subMapVal => Err (ErrSubmap key submap (typeName subMapVal))
          end).
  unfold headValue.
  destruct (m !! part) as [[]|]; try reflexivity;
    now destruct (setValue key submap (r :: rest) v _).
Qed.

(** In a new map every walk succeeds. *)
Lemma setValue_empty (key submap : string) (p : list string) (v : DataType) :
  p <> [] -> exists m, setValue key submap p v ∅ = Ok m.
Proof.
  induction p as [|a p IH]; [contradiction|]. intros _.
  rewrite setValue_cons, lookup_empty. destruct p as [|b p].
  - simpl. eauto.
  - destruct IH as (sub & Hsub); [discriminate|].
    unfold headValue. rewrite Hsub. simpl. eauto.
Qed.

Lemma incomparable_cons (a : string) (p q : list string) :
  incomparable (a :: p) (a :: q) -> incomparable p q.
Proof.
  intros [H1 H2]. split; intros H; [apply H1 | apply H2]; now apply prefix_cons.
Qed.

Lemma incomparable_nonempty (a : string) (p q : list string) :
  incomparable (a :: p) (a :: q) -> p <> [] /\ q <> [].
Proof.
  intros [H1 H2]. split; intros ->; [apply H1 | apply H2];
    apply prefix_cons, prefix_nil.
Qed.

Lemma incomparable_sym (p q : list string) : incomparable p q -> incomparable q p.
Proof. intros [H1 H2]. now split. Qed.

(** The sub map in which the walk goes on, and the sub map it leaves. *)
Lemma headValue_Map (key submap : string) (rest : list string) (v x : DataType)
  (cur : option DataType) :
  rest <> [] ->
  headValue key submap rest v cur = Ok x ->
  exists base sub,
    (cur = None /\ base = ∅ \/ cur = Some (Map base)) /\
    setValue key submap rest v base = Ok sub /\ x = Map sub.
Proof.
  intros Hrest. unfold headValue. destruct rest as [|r rest]; [contradiction|].
  destruct cur as [[]|]; try discriminate; rewrite bind_Ok;
    intros (sub & Hsub & [= <-]); eauto 8.
Qed.

Lemma headValue_Map_intro (key submap : string) (rest : list string)
  (v : DataType) (base sub : gmap string DataType) :
  rest <> [] ->
  setValue key submap rest v base = Ok sub ->
  headValue key submap rest v (Some (Map base)) = Ok (Map sub).
Proof.
  intros Hrest Hsub. unfold headValue. destruct rest; [contradiction|].
  now rewrite Hsub.
Qed.

(** Two walks along incomparable paths that both succeed from a map also
    succeed one after the other, in either order, and with one result. *)
Lemma setValue_diamond (p : list string) :
  forall (q : list string) (k1 s1 k2 s2 : string) (v w : DataType)
         (m m1 m1' : gmap string DataType),
    incomparable p q ->
    setValue k1 s1 p v m = Ok m1 ->
    setValue k2 s2 q w m = Ok m1' ->
    exists m2, setValue k2 s2 q w m1 = Ok m2 /\ setValue k1 s1 p v m1' = Ok m2.
Proof.
  induction p as [|a p IH]; intros q k1 s1 k2 s2 v w m m1 m1' Hinc Hp Hq.
  - discriminate Hp.
  - destruct q as [|b q]; [discriminate Hq|].
    rewrite setValue_cons in Hp, Hq.
    apply bind_Ok in Hp as (x & Hx & [= <-]).
    apply bind_Ok in Hq as (y & Hy & [= <-]).
    rewrite !setValue_cons.
    destruct (decide (a = b)) as [<- | Hab].
    + destruct (incomparable_nonempty _ _ _ Hinc) as [Hpne Hqne].
      apply incomparable_cons in Hinc.
      rewrite !lookup_insert_eq.
      apply headValue_Map in Hx as (base & sub1 & Hbase & Hsub1 & ->); [|exact Hpne].
      apply headValue_Map in Hy as (base' & sub1' & Hbase' & Hsub1' & ->); [|exact Hqne].
      assert (base' = base) as ->.
      { destruct Hbase as [[Hc ->] | Hc], Hbase' as [[Hc' ->] | Hc'];
          rewrite Hc in Hc'; congruence. }
      destruct (IH q k1 s1 k2 s2 v w base sub1 sub1' Hinc Hsub1 Hsub1')
        as (sub2 & H1 & H2).
      exists (<[a := Map sub2]> m).
      rewrite (headValue_Map_intro _ _ _ _ _ _ Hqne H1).
      rewrite (headValue_Map_intro _ _ _ _ _ _ Hpne H2).
      simpl. now rewrite !insert_insert_eq.
    + rewrite lookup_insert_ne by exact Hab.
      rewrite lookup_insert_ne by (intros ->; now apply Hab).
      rewrite Hx, Hy. simpl.
      exists (<[b := y]> (<[a := x]> m)). split; [reflexivity|].
      f_equal. apply insert_insert_ne. intros ->. now apply Hab.
Qed.

(** *** The loop over the entries *)

Section Assembly.

Variable optim : Optimizations.

Lemma addEntry_diamond (k1 k2 : string) (e1 e2 : SourceValue) (m m1 m1' : gmap string DataType) :
incomparable (keyPath k1) (keyPath k2) ->
addEntry optim k1 e1 m = Ok m1 ->
addEntry optim k2 e2 m = Ok m1' ->
exists m2, addEntry optim k2 e2 m1 = Ok m2 /\ addEntry optim k1 e1 m1' = Ok m2.
Proof.
unfold addEntry. intros Hinc.
destruct (ToMMDBType e1 optim) as [v|]; [|discriminate].
destruct (ToMMDBType e2 optim) as [w|]; [|discriminate].
now apply setValue_diamond.
Qed.

Lemma addEntry_empty (k : string) (e : SourceValue) :
isOk (ToMMDBType e optim) = true -> isOk (addEntry optim k e ∅) = true.
Proof.
unfold addEntry. destruct (ToMMDBType e optim) as [v|]; [|discriminate].
intros _.
destruct (setValue_empty k (strings.Join (take 1 (strings.Split k ".")) ".")
            (strings.Split k ".") v (Split_nonempty k ".")) as (m & ->).
reflexivity.
Qed.

Lemma independent_cons (e : string * SourceValue) (order : list (string * SourceValue)) :
independent (e :: order) ->
independent order /\
forall e', e' ∈ order -> incomparable (keyPath e.1) (keyPath e'.1).
Proof.
intros [Hnd Hinc]. apply NoDup_cons in Hnd as [Hnotin Hnd].
split; [split; [exact Hnd|] |].
- intros e1 e2 H1 H2. apply Hinc; now apply elem_of_cons; right.
- intros e' He'. apply Hinc.
  + apply elem_of_cons. now left.
  + apply elem_of_cons. now right.
  + intros ->. contradiction.
Qed.

Lemma independent_perm (order order' : list (string * SourceValue)) :
order ≡ₚ order' -> independent order -> independent order'.
Proof.
intros Hperm [Hnd Hinc]. split.
- now rewrite <- Hperm.
- intros e1 e2 H1 H2. apply Hinc; now rewrite Hperm.
Qed.

(** Adding an entry leaves the entries independent of it ready. *)
Lemma ready_step (e : string * SourceValue) (order : list (string * SourceValue))
(m m1 : gmap string DataType) :
(forall e', e' ∈ order -> incomparable (keyPath e.1) (keyPath e'.1)) ->
ready optim order m ->
addEntry optim e.1 e.2 m = Ok m1 ->
ready optim order m1.
Proof.
intros Hinc Hready He e' He' Hc.
pose proof (Hready e' He' Hc) as Hok. apply isOk_true in Hok as (m1' & Hok).
destruct (addEntry_diamond _ _ _ _ _ _ _ (Hinc e' He') He Hok) as (m2 & -> & _).
reflexivity.
Qed.

Lemma ready_tail (e : string * SourceValue) (order : list (string * SourceValue))
(m : gmap string DataType) :
ready optim (e :: order) m -> ready optim order m.
Proof. intros H e' He'. apply H. apply elem_of_cons. now right. Qed.

(** On independent entries that are ready the loop succeeds, unless it
  stops at a value that does not coerce: it never fails on the shape. *)
Lemma addEntries_result (order : list (string * SourceValue)) :
forall m, independent order -> ready optim order m ->
  (exists d, addEntries optim order m = Ok d) \/
  (exists k sv e,
      (k, sv) ∈ order /\ ToMMDBType sv optim = Err e /\
      addEntries optim order m = Err (ErrTransform k (Value sv) (Type_ sv) e)).
Proof.
induction order as [|[k sv] order IH]; intros m Hind Hready; simpl.
- left. eauto.
- apply independent_cons in Hind as [Hind Hinc].
  destruct (ToMMDBType sv optim) as [v|e] eqn:Hv.
  + pose proof (Hready (k, sv) ltac:(apply elem_of_cons; now left)) as Hok.
    simpl in Hok. rewrite Hv in Hok. specialize (Hok eq_refl).
    apply isOk_true in Hok as (m1 & Hok). rewrite Hok. simpl.
    destruct (IH m1 Hind) as [Hd | (k' & sv' & e' & Hin & He' & Hres)].
    * apply (ready_step (k, sv) order m m1 Hinc); [|exact Hok].
      now apply (ready_tail (k, sv)).
    * now left.
    * right. exists k', sv', e'. repeat split; auto.
      apply elem_of_cons. now right.
  + right. exists k, sv, e. repeat split; auto.
    * apply elem_of_cons. now left.
    * unfold addEntry. now rewrite Hv.
Qed.

(** The loop succeeds on independent entries that are ready and whose
  values all coerce. *)
Lemma addEntries_Ok (order : list (string * SourceValue)) (m : gmap string DataType) :
independent order -> ready optim order m -> coercible optim order ->
exists d, addEntries optim order m = Ok d.
Proof.
intros Hind Hready Hco.
destruct (addEntries_result order m Hind Hready)
  as [Hd | (k & sv & e & Hin & He & _)]; [exact Hd|].
specialize (Hco (k, sv) Hin). simpl in Hco. now rewrite He in Hco.
Qed.

(** The result of the loop does not depend on the order of independent
  entries whose values all coerce. *)
Lemma addEntries_perm (order order' : list (string * SourceValue)) :
order ≡ₚ order' ->
forall m, independent order -> ready optim order m -> coercible optim order ->
          addEntries optim order m = addEntries optim order' m.
Proof.
induction 1 as [|[k sv] l l' Hperm IH|[k1 sv1] [k2 sv2] l|l l' l'' H1 IH1 H2 IH2];
  intros m Hind Hready Hco.
- reflexivity.
- simpl. apply independent_cons in Hind as [Hind Hinc].
  pose proof (Hready (k, sv) ltac:(apply elem_of_cons; now left)
                (Hco (k, sv) ltac:(apply elem_of_cons; now left))) as Hok.
  apply isOk_true in Hok as (m1 & Hok). simpl in Hok. rewrite Hok. simpl.
  apply IH; [exact Hind | |].
  + apply (ready_step (k, sv) l m m1 Hinc); [|exact Hok].
    now apply (ready_tail (k, sv)).
  + intros e He. apply Hco. apply elem_of_cons. now right.
- simpl.
  assert (Hin1 : (k1, sv1) ∈ (k2, sv2) :: (k1, sv1) :: l).
  { apply elem_of_cons; right; apply elem_of_cons; now left. }
  assert (Hin2 : (k2, sv2) ∈ (k2, sv2) :: (k1, sv1) :: l).
  { apply elem_of_cons; now left. }
  pose proof (Hready _ Hin1 (Hco _ Hin1)) as Hx.
  pose proof (Hready _ Hin2 (Hco _ Hin2)) as Hy.
  apply isOk_true in Hx as (mx & Hx). apply isOk_true in Hy as (my & Hy).
  simpl in Hx, Hy.
  apply independent_cons in Hind as [_ Hinc].
  pose proof (Hinc (k1, sv1) ltac:(apply elem_of_cons; now left)) as H21.
  simpl in H21. apply incomparable_sym in H21.
  destruct (addEntry_diamond _ _ _ _ _ _ _ H21 Hx Hy) as (m2 & Hxy & Hyx).
  rewrite Hx, Hy. simpl. now rewrite Hxy, Hyx.
- rewrite (IH1 m Hind Hready Hco). apply IH2.
  + now apply (independent_perm l l').
  + intros e He. apply Hready. now rewrite H1.
  + intros e He. apply Hco. now rewrite H1.
Qed.

End Assembly.

(** The entries of a conflict-free mapping are independent, in any order of
    iteration. *)
Lemma rangeOrder_independent (values : gmap string SourceValue)
  (order : list (string * SourceValue)) :
  conflictFree values -> rangeOrder values order -> independent order.
Proof.
  intros Hfree Horder. apply (independent_perm (map_to_list values)); [now symmetry|].
  split; [apply NoDup_map_to_list|].
  intros [k1 sv1] [k2 sv2] H1 H2 Hne. simpl.
  apply elem_of_map_to_list in H1, H2.
  assert (Hk : k1 <> k2) by (intros ->; apply Hne; congruence).
  assert (Hnp : forall ka kb, is_Some (values !! ka) -> is_Some (values !! kb) ->
                              ka <> kb -> ~ keyPath ka `prefix_of` keyPath kb).
  { intros ka kb Ha Hb Hab [rest Hrest]. destruct rest as [|r rest].
    - rewrite app_nil_r in Hrest. apply Hab. symmetry. now apply keyPath_inj.
    - apply (Hfree ka kb Ha Hb). exists (r :: rest). split; [discriminate | exact Hrest]. }
  split; apply Hnp; eauto.
Qed.

(** In the new map every entry is ready. *)
Lemma ready_empty (optim : Optimizations) (order : list (string * SourceValue)) :
  ready optim order ∅.
Proof. intros [k sv] _ Hc. simpl in *. now apply addEntry_empty. Qed.

Lemma rangeOrder_coercible (values : gmap string SourceValue) (optim : Optimizations)
  (order : list (string * SourceValue)) :
  allCoerce values optim -> rangeOrder values order -> coercible optim order.
Proof.
  intros Hall Horder [k sv] He. simpl.
  apply (Hall k). apply elem_of_map_to_list. now rewrite <- Horder.
Qed.

Lemma rangeOrder_map_to_list (values : gmap string SourceValue) :
  rangeOrder values (map_to_list values).
Proof. unfold rangeOrder. reflexivity. Qed.

(** ** What a document holds after assembly *)

Lemma lookupPath_cons (a : string) (p : list string) (m : gmap string DataType) :
  lookupPath (a :: p) m =
  match p with
  | [] => m !! a
  | _ :: _ => match m !! a with
              | Some (Map sub) => lookupPath p sub
              | _ => None
              end
  end.
Proof. now destruct p. Qed.

Lemma lookupPath_empty (p : list string) : lookupPath p ∅ = None.
Proof.
  destruct p as [|a [|b p]]; [reflexivity | apply lookup_empty |].
  rewrite lookupPath_cons. now rewrite lookup_empty.
Qed.

(** The walk leaves the value at the end of its path. *)
Lemma setValue_lookupPath (p : list string) :
  forall (key submap : string) (v : DataType) (m m' : gmap string DataType),
    setValue key submap p v m = Ok m' -> lookupPath p m' = Some v.
Proof.
  induction p as [|a p IH]; intros key submap v m m' Hp; [discriminate Hp|].
  rewrite setValue_cons in Hp. apply bind_Ok in Hp as (x & Hx & [= <-]).
  rewrite lookupPath_cons, lookup_insert_eq. destruct p as [|b p].
  - now injection Hx as <-.
  - apply headValue_Map in Hx as (base & sub & _ & Hsub & ->); [|discriminate].
    now apply (IH key submap v base).
Qed.

(** A walk changes nothing along a path that is incomparable with its
    own. *)
Lemma setValue_frame (p : list string) :
  forall (q : list string) (key submap : string) (w : DataType)
         (m m' : gmap string DataType),
    incomparable p q ->
    setValue key submap q w m = Ok m' ->
    lookupPath p m' = lookupPath p m.
Proof.
  induction p as [|a p IH]; intros q key submap w m m' Hinc Hq; [reflexivity|].
  destruct q as [|b q]; [discriminate Hq|].
  rewrite setValue_cons in Hq. apply bind_Ok in Hq as (x & Hx & [= <-]).
  rewrite !lookupPath_cons.
  destruct (decide (a = b)) as [<- | Hab].
  - destruct (incomparable_nonempty _ _ _ Hinc) as [Hpne Hqne].
    apply incomparable_cons in Hinc.
    rewrite lookup_insert_eq.
    apply headValue_Map in Hx as (base & sub & Hbase & Hsub & ->); [|exact Hqne].
    destruct p as [|c p]; [contradiction|].
    rewrite (IH q key submap w base sub Hinc Hsub).
    destruct Hbase as [[-> ->] | ->]; [apply lookupPath_empty | reflexivity].
  - rewrite lookup_insert_ne by (intros ->; now apply Hab). reflexivity.
Qed.

Section Retrieval.

Variable optim : Optimizations.

Lemma addEntry_lookupPath (k : string) (sv : SourceValue) (m m' : gmap string DataType) :
addEntry optim k sv m = Ok m' ->
exists v, ToMMDBType sv optim = Ok v /\ lookupPath (keyPath k) m' = Some v.
Proof.
unfold addEntry. destruct (ToMMDBType sv optim) as [v|]; [|discriminate].
intros H. exists v. split; [reflexivity|]. now apply setValue_lookupPath in H.
Qed.

Lemma addEntry_frame (p : list string) (k : string) (sv : SourceValue)
(m m' : gmap string DataType) :
incomparable p (keyPath k) ->
addEntry optim k sv m = Ok m' ->
lookupPath p m' = lookupPath p m.
Proof.
unfold addEntry. destruct (ToMMDBType sv optim) as [v|]; [|discriminate].
intros Hinc H. now apply (setValue_frame p _ _ _ _ _ _ Hinc H).
Qed.

Lemma addEntries_frame (p : list string) (order : list (string * SourceValue)) :
forall m d,
  (forall e, e ∈ order -> incomparable p (keyPath e.1)) ->
  addEntries optim order m = Ok d ->
  lookupPath p d = lookupPath p m.
Proof.
induction order as [|[k sv] order IH]; intros m d Hinc Hd; simpl in Hd.
- now injection Hd as <-.
- apply bind_Ok in Hd as (m1 & H1 & Hd).
  rewrite (IH m1 d); [|intros e He; apply Hinc; apply elem_of_cons; now right | exact Hd].
  apply (addEntry_frame p k sv m m1); [|exact H1].
  apply (Hinc (k, sv)). apply elem_of_cons. now left.
Qed.

Lemma addEntries_retrievable (order : list (string * SourceValue)) :
forall m d,
  independent order ->
  addEntries optim order m = Ok d ->
  forall k sv, (k, sv) ∈ order ->
    exists v, ToMMDBType sv optim = Ok v /\ lookupPath (keyPath k) d = Some v.
Proof.
induction order as [|[k0 sv0] order IH]; intros m d Hind Hd k sv Hin.
- inversion Hin.
- simpl in Hd. apply bind_Ok in Hd as (m1 & H1 & Hd).
  apply independent_cons in Hind as [Hind Hinc].
  apply elem_of_cons in Hin as [[= -> ->] | Hin].
  + destruct (addEntry_lookupPath k0 sv0 m m1 H1) as (v & Hv & Hl).
    exists v. split; [exact Hv|].
    rewrite (addEntries_frame (keyPath k0) order m1 d); [exact Hl | | exact Hd].
    intros e He. apply (Hinc e He).
  + now apply (IH m1 d Hind Hd).
Qed.

End Retrieval.

(** A value that does not coerce stops the loop, wherever it stands. *)
Lemma addEntries_uncoercible (optim : Optimizations)
  (order : list (string * SourceValue)) :
  forall (m : gmap string DataType) (k : string) (sv : SourceValue),
    (k, sv) ∈ order -> isOk (ToMMDBType sv optim) = false ->
    isOk (addEntries optim order m) = false.
Proof.
  induction order as [|[k0 sv0] order IH]; intros m k sv Hin Hsv.
  - inversion Hin.
  - simpl. destruct (addEntry optim k0 sv0 m) as [m1|] eqn:H1; [|reflexivity].
    simpl. apply elem_of_cons in Hin as [[= -> ->] | Hin].
    + unfold addEntry in H1. destruct (ToMMDBType sv0 optim); discriminate.
    + now apply (IH m1 k sv).
Qed.

(** The mapping of the example: the keys "a.b" and "a.c".  Its two
    iteration orders, and the document that either of them gives. *)
Lemma two_leaves_orders (X Y : SourceValue) (order : list (string * SourceValue)) :
  rangeOrder (<["a.b" := X]> (<["a.c" := Y]> ∅)) order ->
  order = [("a.b"%string, X); ("a.c"%string, Y)] \/
  order = [("a.c"%string, Y); ("a.b"%string, X)].
Proof.
  unfold rangeOrder. rewrite map_to_list_insert by reflexivity.
  rewrite map_to_list_insert by reflexivity. rewrite map_to_list_empty.
  intros H. symmetry in H. now apply Permutation_length_2_inv in H.
Qed.

Lemma two_leaves_document (optim : Optimizations) (X Y : SourceValue)
  (x y : DataType) (order : list (string * SourceValue)) :
  ToMMDBType X optim = Ok x -> ToMMDBType Y optim = Ok y ->
  rangeOrder (<["a.b" := X]> (<["a.c" := Y]> ∅)) order ->
  ToMMDBMapIn order optim
  = Ok (<["a" := Map (<["b" := x]> (<["c" := y]> ∅))]> ∅).
Proof.
  intros HX HY Horder. unfold ToMMDBMapIn.
  destruct (two_leaves_orders X Y order Horder) as [-> | ->].
  - cbn [addEntries]. unfold addEntry. rewrite HX.
    change (strings.Split "a.b" ".") with ["a"; "b"]%string. cbv zeta.
    rewrite setValue_cons, lookup_empty. cbn [headValue].
    rewrite setValue_cons. cbn [headValue mbind result_bind]. rewrite HY.
    change (strings.Split "a.c" ".") with ["a"; "c"]%string. cbv zeta.
    rewrite setValue_cons, lookup_insert_eq. cbn [headValue].
    rewrite setValue_cons. cbn [headValue mbind result_bind].
    rewrite insert_insert_eq.
    now rewrite (insert_insert_ne ∅ "c"%string "b"%string) by discriminate.
  - cbn [addEntries]. unfold addEntry. rewrite HY.
    change (strings.Split "a.c" ".") with ["a"; "c"]%string. cbv zeta.
    rewrite setValue_cons, lookup_empty. cbn [headValue].
    rewrite setValue_cons. cbn [headValue mbind result_bind]. rewrite HX.
    change (strings.Split "a.b" ".") with ["a"; "b"]%string. cbv zeta.
    rewrite setValue_cons, lookup_insert_eq. cbn [headValue].
    rewrite setValue_cons. cbn [headValue mbind result_bind].
    now rewrite insert_insert_eq.
Qed.

(** C4.  For every flat value mapping in which no dotted path is a strict
    prefix of another, document assembly never fails on the shape.  When
    every raw value of the mapping coerces, it succeeds and yields one and
    the same nested document whatever the order of iteration, and this
    document holds, at the end of the key path of every entry, the coerced
    value of the entry.  When some raw value does not coerce, it fails in
    every order, with the coercion error of an entry.  Assembling the
    mapping of "a.b" to X and "a.c" to Y, for any X and Y that coerce,
    yields the document whose only key "a" holds the sub document that maps
    "b" to the value of X and "c" to the value of Y. *)
Theorem assembly_order_independent (se : SourceEntry) (optim : Optimizations) :
  (conflictFree (Values se) ->
   (allCoerce (Values se) optim ->
    exists doc,
      ToMMDBMap se optim (Ok doc) /\
      (forall r, ToMMDBMap se optim r -> r = Ok doc) /\
      (forall order, rangeOrder (Values se) order ->
                     ToMMDBMapIn order optim = Ok doc) /\
      (forall k sv, Values se !! k = Some sv ->
         exists v, ToMMDBType sv optim = Ok v /\
                   lookupPath (keyPath k) doc = Some v)) /\
   (forall r, ToMMDBMap se optim r ->
      (exists doc, r = Ok doc) \/
      (exists k sv e,
          Values se !! k = Some sv /\ ToMMDBType sv optim = Err e /\
          r = Err (ErrTransform k (Value sv) (Type_ sv) e))) /\
   (forall k0 sv0,
      Values se !! k0 = Some sv0 -> isOk (ToMMDBType sv0 optim) = false ->
      forall r, ToMMDBMap se optim r ->
        exists k sv e,
          Values se !! k = Some sv /\ ToMMDBType sv optim = Err e /\
          r = Err (ErrTransform k (Value sv) (Type_ sv) e))) /\
  (forall X Y x y,
     ToMMDBType X optim = Ok x -> ToMMDBType Y optim = Ok y ->
     let example := entryOf (<["a.b" := X]> (<["a.c" := Y]> ∅)) in
     let doc := <["a" := Map (<["b" := x]> (<["c" := y]> ∅))]> ∅ in
     ToMMDBMap example optim (Ok doc) /\
     (forall r, ToMMDBMap example optim r -> r = Ok doc) /\
     lookupPath ["a"; "b"]%string doc = Some x /\
     lookupPath ["a"; "c"]%string doc = Some y).
Proof.
  split.
  - intros Hfree.
    assert (Hshape : forall r, ToMMDBMap se optim r ->
      (exists doc, r = Ok doc) \/
      (exists k sv e,
          Values se !! k = Some sv /\ ToMMDBType sv optim = Err e /\
          r = Err (ErrTransform k (Value sv) (Type_ sv) e))).
    { intros r (order & Horder & <-). unfold ToMMDBMapIn.
      destruct (addEntries_result optim order ∅
                  (rangeOrder_independent _ _ Hfree Horder)
                  (ready_empty optim order))
        as [Hd | (k & sv & e & Hin & He & Hres)]; [now left|].
      right. exists k, sv, e. repeat split; auto.
      apply elem_of_map_to_list. now rewrite <- Horder. }
    split; [|split].
    + intros Hall.
      pose proof (rangeOrder_map_to_list (Values se)) as H0.
      pose proof (rangeOrder_independent _ _ Hfree H0) as Hind.
      destruct (addEntries_Ok optim (map_to_list (Values se)) ∅ Hind
                  (ready_empty optim _)
                  (rangeOrder_coercible _ _ _ Hall H0)) as (doc & Hdoc).
      assert (Hany : forall order, rangeOrder (Values se) order ->
                                   ToMMDBMapIn order optim = Ok doc).
      { intros order Horder. unfold ToMMDBMapIn. rewrite <- Hdoc.
        apply addEntries_perm; [exact Horder | | |].
        - now apply (rangeOrder_independent (Values se)).
        - apply ready_empty.
        - now apply (rangeOrder_coercible (Values se)). }
      exists doc. split; [|split; [|split]].
      * exists (map_to_list (Values se)). split; [exact H0 | exact Hdoc].
      * intros r (order & Horder & <-). now apply Hany.
      * exact Hany.
      * intros k sv Hk.
        apply (addEntries_retrievable optim (map_to_list (Values se)) ∅ doc Hind Hdoc).
        now apply elem_of_map_to_list.
    + exact Hshape.
    + intros k0 sv0 Hk0 Hsv0 r Hr.
      destruct (Hshape r Hr) as [(doc & ->) | Herr]; [|exact Herr].
      destruct Hr as (order & Horder & Hdoc). unfold ToMMDBMapIn in Hdoc.
      assert (Hin : (k0, sv0) ∈ order).
      { unfold rangeOrder in Horder. rewrite Horder. now apply elem_of_map_to_list. }
      pose proof (addEntries_uncoercible optim order ∅ k0 sv0 Hin Hsv0) as Hno.
      rewrite Hdoc in Hno. discriminate Hno.
  - intros X Y x y HX HY example doc. split; [|split; [|split]].
    + exists (map_to_list (Values example)).
      split; [apply rangeOrder_map_to_list|].
      apply (two_leaves_document optim X Y x y); [exact HX | exact HY|].
      apply rangeOrder_map_to_list.
    + intros r (order & Horder & <-).
      now apply (two_leaves_document optim X Y x y).
    + unfold doc. rewrite lookupPath_cons, lookup_insert_eq.
      apply lookup_insert_eq.
    + unfold doc. rewrite lookupPath_cons, lookup_insert_eq.
      cbn [lookupPath]. rewrite lookup_insert_ne by discriminate.
      apply lookup_insert_eq.
Qed.

(** The values of the two examples of the specification. *)
Lemma values_two_leaves_order :
  rangeOrder (<["a.b" := textX]> (<["a.c" := textY]> ∅))
    [("a.b"%string, textX); ("a.c"%string, textY)].
Proof.
  unfold rangeOrder. rewrite map_to_list_insert by reflexivity.
  rewrite map_to_list_insert by reflexivity. now rewrite map_to_list_empty.
Qed.

Lemma values_two_leaves_free :
  conflictFree (<["a.b" := textX]> (<["a.c" := textY]> ∅)).
Proof.
  assert (Hkeys : forall k, is_Some ((<["a.b" := textX]> (<["a.c" := textY]> ∅)
                                       : gmap string SourceValue) !! k) ->
                            k = "a.b"%string \/ k = "a.c"%string).
  { intros k Hk. destruct (decide (k = "a.b"%string)) as [-> | H1]; [now left|].
    rewrite lookup_insert_ne in Hk by congruence.
    destruct (decide (k = "a.c"%string)) as [-> | H2]; [now right|].
    rewrite lookup_insert_ne in Hk by congruence.
    rewrite lookup_empty in Hk. now destruct Hk. }
  intros k1 k2 H1 H2 (rest & Hne & Hrest).
  apply Hkeys in H1, H2.
  destruct H1 as [-> | ->], H2 as [-> | ->]; vm_compute in Hrest;
    destruct rest; try contradiction; discriminate Hrest.
Qed.

Lemma values_two_leaves_coerce :
  allCoerce (<["a.b" := textX]> (<["a.c" := textY]> ∅)) optimNone.
Proof.
  intros k sv Hk. destruct (decide (k = "a.b"%string)) as [-> | H1].
  - rewrite lookup_insert_eq in Hk. now injection Hk as <-.
  - rewrite lookup_insert_ne in Hk by congruence.
    destruct (decide (k = "a.c"%string)) as [-> | H2].
    + rewrite lookup_insert_eq in Hk. now injection Hk as <-.
    + rewrite lookup_insert_ne in Hk by congruence. now rewrite lookup_empty in Hk.
Qed.

Lemma values_two_leaves_order_swapped :
  rangeOrder (<["a.b" := textX]> (<["a.c" := textY]> ∅))
    [("a.c"%string, textY); ("a.b"%string, textX)].
Proof.
  unfold rangeOrder. rewrite <- values_two_leaves_order. apply perm_swap.
Qed.

(** Assembling "a.b" and "a.c" yields, in either order, the document whose
    sub document "a" holds both "b" and "c". *)
Lemma assembly_order_independent_witness :
  ToMMDBMapIn [("a.b"%string, textX); ("a.c"%string, textY)] optimNone
  = Ok (<["a" := Map (<["b" := String "x"]> (<["c" := String "y"]> ∅))]> ∅) /\
  ToMMDBMapIn [("a.c"%string, textY); ("a.b"%string, textX)] optimNone
  = ToMMDBMapIn [("a.b"%string, textX); ("a.c"%string, textY)] optimNone.
Proof.
  destruct (proj1 (proj1 (assembly_order_independent
                            (entryOf (<["a.b" := textX]> (<["a.c" := textY]> ∅)))
                            optimNone)
                     values_two_leaves_free) values_two_leaves_coerce)
    as (doc & _ & _ & Hany & _).
  split.
  - vm_compute. reflexivity.
  - rewrite (Hany _ values_two_leaves_order).
    exact (Hany _ values_two_leaves_order_swapped).
Defined.

(** C4 as stated fails: the mapping with the one key "n", declared [uint16]
    with the text "70000", holds no conflicting paths, and its assembly
    returns the coercion error of "n" and never a document. *)
Lemma assembly_uncoercible_counterexample :
  conflictFree (<["n" := badNumber]> ∅) /\
  ToMMDBMap (entryOf (<["n" := badNumber]> ∅)) optimNone
    (Err (ErrTransform "n" "70000" "uint16" (NumError "ParseUint" "70000" ErrRange))) /\
  ~ (exists doc, ToMMDBMap (entryOf (<["n" := badNumber]> ∅)) optimNone (Ok doc)).
Proof.
  assert (Horder : forall order,
    rangeOrder (<["n" := badNumber]> ∅) order -> order = [("n"%string, badNumber)]).
  { intros order. unfold rangeOrder. rewrite map_to_list_insert by reflexivity.
    rewrite map_to_list_empty. apply Permutation_singleton_r. }
  split; [|split].
  - intros k1 k2 [sv1 H1] [sv2 H2] (rest & Hne & Hrest).
    apply lookup_insert_Some in H1 as [[<- _] | [_ H1]];
      [|now rewrite lookup_empty in H1].
    apply lookup_insert_Some in H2 as [[<- _] | [_ H2]];
      [|now rewrite lookup_empty in H2].
    apply (f_equal (@length string)) in Hrest. rewrite length_app in Hrest.
    destruct rest; [contradiction | simpl in Hrest; lia].
  - exists [("n"%string, badNumber)]. split; [|reflexivity].
    unfold rangeOrder. simpl Values. rewrite map_to_list_insert by reflexivity.
    now rewrite map_to_list_empty.
  - intros (doc & order & Hr & Hdoc). apply Horder in Hr as ->.
    discriminate Hdoc.
Qed.

(** A coerced value is never a map. *)
Lemma ToMMDBType_notMap (sv : SourceValue) (optim : Optimizations) (v : DataType) :
  ToMMDBType sv optim = Ok v -> notMap v = true.
Proof.
  intros Hv. destruct (ToMMDBType_shape sv optim v Hv) as [[Hs _] | (? & ? & _ & -> & _)].
  - now destruct v.
  - reflexivity.
Qed.

Lemma headValue_notMap (key submap : string) (rest : list string) (v x : DataType) :
  rest <> [] -> notMap x = true ->
  isOk (headValue key submap rest v (Some x)) = false.
Proof.
  intros Hrest Hx. unfold headValue. destruct rest; [contradiction|].
  now destruct x.
Qed.

Lemma headValue_blocked (key submap : string) (rest : list string) (v : DataType)
  (sub : gmap string DataType) :
  rest <> [] -> blocked rest sub ->
  isOk (headValue key submap rest v (Some (Map sub))) = false.
Proof.
  intros Hrest Hb. unfold headValue. destruct rest as [|r rest]; [contradiction|].
  specialize (Hb key submap v).
  now destruct (setValue key submap (r :: rest) v sub).
Qed.

Lemma blocked_cons (a : string) (q : list string) (m : gmap string DataType) :
  blocked (a :: q) m <->
  forall key submap v, isOk (headValue key submap q v (m !! a)) = false.
Proof.
  unfold blocked. split; intros H key submap v; specialize (H key submap v).
  - rewrite setValue_cons in H. now destruct (headValue key submap q v (m !! a)).
  - rewrite setValue_cons. now destruct (headValue key submap q v (m !! a)).
Qed.

(** After a value has been set at the path [p], every walk along a strict
    extension of [p] meets it. *)
Lemma blocked_after_prefix (p : list string) :
  forall (rest : list string) (key submap : string) (v : DataType)
         (m m1 : gmap string DataType),
    rest <> [] -> notMap v = true ->
    setValue key submap p v m = Ok m1 ->
    blocked (p ++ rest) m1.
Proof.
  induction p as [|a p IH]; intros rest key submap v m m1 Hrest Hv Hp.
  - discriminate Hp.
  - rewrite setValue_cons in Hp. apply bind_Ok in Hp as (x & Hx & [= <-]).
    simpl app. apply blocked_cons. intros key' submap' v'.
    rewrite lookup_insert_eq. destruct p as [|b p].
    + injection Hx as <-. now apply headValue_notMap.
    + apply headValue_Map in Hx as (base & sub & _ & Hsub & ->); [|discriminate].
      apply headValue_blocked; [discriminate|]. now apply (IH rest key submap v base).
Qed.

(** A blocked path stays blocked when a value that is no map is set at
    another path. *)
Lemma blocked_preserved (q : list string) :
  forall (r : list string) (key submap : string) (w : DataType)
         (m m' : gmap string DataType),
    blocked q m -> r <> q -> notMap w = true ->
    setValue key submap r w m = Ok m' ->
    blocked q m'.
Proof.
  induction q as [|a q IH]; intros r key submap w m m' Hb Hrq Hw Hr.
  - intros k s v. reflexivity.
  - destruct r as [|c r]; [discriminate Hr|].
    rewrite setValue_cons in Hr. apply bind_Ok in Hr as (x & Hx & [= <-]).
    rewrite blocked_cons in Hb. apply blocked_cons. intros k s v.
    destruct (decide (c = a)) as [-> | Hca].
    + rewrite lookup_insert_eq.
      destruct q as [|b q].
      { specialize (Hb k s v). discriminate Hb. }
      destruct r as [|c' r].
      * injection Hx as <-. now apply headValue_notMap.
      * apply headValue_Map in Hx as (base & sub & Hbase & Hsub & ->); [|discriminate].
        apply headValue_blocked; [discriminate|].
        destruct Hbase as [[Hnone _] | Hsome].
        -- exfalso. specialize (Hb k s v). rewrite Hnone in Hb.
           destruct (setValue_empty k s (b :: q) v ltac:(discriminate)) as (m0 & Hm0).
           unfold headValue in Hb. now rewrite Hm0 in Hb.
        -- apply (IH (c' :: r) key submap w base sub); auto.
           ++ intros k' s' v'. specialize (Hb k' s' v'). rewrite Hsome in Hb.
              unfold headValue in Hb.
              now destruct (setValue k' s' (b :: q) v' base).
           ++ congruence.
    + rewrite lookup_insert_ne by exact Hca. apply Hb.
Qed.

Lemma addEntries_app (optim : Optimizations) (l1 l2 : list (string * SourceValue))
  (m : gmap string DataType) :
  addEntries optim (l1 ++ l2) m
  = (m' ← addEntries optim l1 m; addEntries optim l2 m').
Proof.
  revert m. induction l1 as [|[k sv] l1 IH]; intros m; simpl; [reflexivity|].
  destruct (addEntry optim k sv m); simpl; [apply IH | reflexivity].
Qed.

(** Once the path of a key still to come is blocked, the loop fails. *)
Lemma addEntries_blocked (optim : Optimizations) (l : list (string * SourceValue)) :
  forall (m : gmap string DataType) (kq : string) (svq : SourceValue),
    blocked (keyPath kq) m -> (kq, svq) ∈ l -> NoDup l.*1 ->
    isOk (addEntries optim l m) = false.
Proof.
  induction l as [|[k sv] l IH]; intros m kq svq Hb Hin Hnd.
  - inversion Hin.
  - simpl. simpl in Hnd. apply NoDup_cons in Hnd as [Hk Hnd].
    destruct (addEntry optim k sv m) as [m'|] eqn:Hadd; [|reflexivity]. simpl.
    unfold addEntry in Hadd.
    destruct (ToMMDBType sv optim) as [w|] eqn:Hw; [|discriminate].
    apply elem_of_cons in Hin as [[= <- <-] | Hin].
    + specialize (Hb kq (strings.Join (take 1 (strings.Split kq ".")) ".") w).
      unfold keyPath in Hb. now rewrite Hadd in Hb.
    + apply (IH m' kq svq); auto.
      apply (blocked_preserved _ _ _ _ _ _ _ Hb) in Hadd; auto.
      * fold (keyPath k). intros Heq. apply keyPath_inj in Heq. subst k.
        apply Hk. apply list_elem_of_fmap. now exists (kq, svq).
      * now apply (ToMMDBType_notMap sv optim).
Qed.

(** The part of C1 that the code does fulfil: when the entry of a path is
    visited before the entry of a strict extension of it, [ToMMDBMap]
    fails. *)
Lemma prefix_visited_first_fails (values : gmap string SourceValue)
  (optim : Optimizations) (l1 l2 : list (string * SourceValue))
  (kp kq : string) (svp svq : SourceValue) :
  rangeOrder values (l1 ++ (kp, svp) :: l2) ->
  (kq, svq) ∈ l2 ->
  strictPrefix (keyPath kp) (keyPath kq) ->
  exists e, ToMMDBMapIn (l1 ++ (kp, svp) :: l2) optim = Err e.
Proof.
  intros Horder Hq (rest & Hrest & Hpath).
  apply isOk_false. unfold ToMMDBMapIn. rewrite addEntries_app.
  destruct (addEntries optim l1 ∅) as [m|]; [|reflexivity]. simpl.
  destruct (addEntry optim kp svp m) as [m1|] eqn:Hadd; [|reflexivity]. simpl.
  unfold addEntry in Hadd.
  destruct (ToMMDBType svp optim) as [v|] eqn:Hv; [|discriminate].
  apply (addEntries_blocked optim l2 m1 kq svq); auto.
  - rewrite Hpath.
    apply (blocked_after_prefix (keyPath kp) rest kp
             (strings.Join (take 1 (strings.Split kp ".")) ".") v m m1); auto.
    now apply (ToMMDBType_notMap svp optim).
  - assert (Hnd : NoDup (l1 ++ (kp, svp) :: l2).*1).
    { unfold rangeOrder in Horder. rewrite Horder. apply NoDup_fst_map_to_list. }
    rewrite fmap_app in Hnd. apply NoDup_app in Hnd as (_ & _ & Hnd).
    simpl in Hnd. now apply NoDup_cons in Hnd as [_ Hnd].
Qed.

(** *** Keys that conflict in shape *)

Lemma values_conflict_order :
  rangeOrder (<["a" := textX]> (<["a.b" := textY]> ∅))
    [("a"%string, textX); ("a.b"%string, textY)].
Proof.
  unfold rangeOrder. rewrite map_to_list_insert by reflexivity.
  rewrite map_to_list_insert by reflexivity. now rewrite map_to_list_empty.
Qed.

Lemma values_conflict_order_swapped :
  rangeOrder (<["a" := textX]> (<["a.b" := textY]> ∅))
    [("a.b"%string, textY); ("a"%string, textX)].
Proof.
  unfold rangeOrder. rewrite <- values_conflict_order. apply perm_swap.
Qed.

(** C1 does not hold of the code.  The mapping with the keys "a" and "a.b"
    holds a path and a strict extension of it.  When "a" is visited first,
    the walk for "a.b" finds a scalar at "a" and [ToMMDBMap] fails; when
    "a.b" is visited first, the final assignment for "a" replaces the sub
    document without any check, and [ToMMDBMap] returns a document in which
    the value of "a.b" is lost. *)
Theorem conflicting_shape_overwritten :
  let se := entryOf (<["a" := textX]> (<["a.b" := textY]> ∅)) in
  strictPrefix (keyPath "a") (keyPath "a.b") /\
  ToMMDBMap se optimNone (Err (ErrSubmap "a.b" "a" "mmdbtype.String")) /\
  ToMMDBMap se optimNone (Ok (<["a" := String "x"]> ∅)).
Proof.
  split; [|split].
  - exists ["b"%string]. split; [discriminate | reflexivity].
  - exists [("a"%string, textX); ("a.b"%string, textY)].
    split; [exact values_conflict_order | reflexivity].
  - exists [("a.b"%string, textY); ("a"%string, textX)].
    split; [exact values_conflict_order_swapped|].
    vm_compute. reflexivity.
Qed.

(** * Further properties of the code *)

(** ** The entries of a document *)

(** X1.  After a successful assembly of a mapping in which no dotted path is
    a strict prefix of another, every entry of the mapping is found in the
    document: walking down the sub documents along the parts of its key
    leads to the coerced value of the entry. *)
Theorem assembled_entries_retrievable (se : SourceEntry) (optim : Optimizations)
  (doc : gmap string DataType) :
  conflictFree (Values se) ->
  ToMMDBMap se optim (Ok doc) ->
  forall k sv, Values se !! k = Some sv ->
    exists v, ToMMDBType sv optim = Ok v /\ lookupPath (keyPath k) doc = Some v.
Proof.
  intros Hfree (order & Horder & Hdoc) k sv Hk.
  apply (addEntries_retrievable optim order ∅ doc); auto.
  - now apply (rangeOrder_independent (Values se)).
  - unfold rangeOrder in Horder. rewrite Horder. now apply elem_of_map_to_list.
Qed.

Lemma assembled_entries_retrievable_witness :
  exists v, ToMMDBType textY optimNone = Ok v /\
            lookupPath (keyPath "a.c")
              (<["a" := Map (<["b" := String "x"]> (<["c" := String "y"]> ∅))]> ∅)
            = Some v.
Proof.
  apply (assembled_entries_retrievable
           (entryOf (<["a.b" := textX]> (<["a.c" := textY]> ∅))) optimNone).
  - exact values_two_leaves_free.
  - exists [("a.b"%string, textX); ("a.c"%string, textY)].
    split; [exact values_two_leaves_order | vm_compute; reflexivity].
  - reflexivity.
Defined.

(** X2.  The entry visited last is always found at its path in the document
    returned, whatever the entries before it left there: the final
    assignment replaces a scalar as well as a whole sub document. *)
Theorem last_entry_retrievable (order : list (string * SourceValue))
  (k : string) (sv : SourceValue) (optim : Optimizations)
  (doc : gmap string DataType) :
  ToMMDBMapIn (order ++ [(k, sv)]) optim = Ok doc ->
  exists v, ToMMDBType sv optim = Ok v /\ lookupPath (keyPath k) doc = Some v.
Proof.
  unfold ToMMDBMapIn. rewrite addEntries_app. intros H.
  apply bind_Ok in H as (m & _ & H). simpl in H.
  apply bind_Ok in H as (m1 & H1 & [= <-]).
  now apply (addEntry_lookupPath optim k sv m).
Qed.

Lemma last_entry_retrievable_witness :
  exists v, ToMMDBType textX optimNone = Ok v /\
            lookupPath (keyPath "a") (<["a" := String "x"]> ∅) = Some v.
Proof.
  apply (last_entry_retrievable [("a.b"%string, textY)] "a" textX optimNone).
  vm_compute. reflexivity.
Defined.

(** ** The top-level keys of a document *)

Lemma keyPath_firstPart (k : string) :
  exists rest, keyPath k = firstPart k :: rest.
Proof.
  unfold firstPart. pose proof (Split_nonempty k ".") as Hne. unfold keyPath.
  destruct (strings.Split k ".") as [|a rest]; [contradiction | eauto].
Qed.

Lemma addEntry_insert (optim : Optimizations) (k : string) (sv : SourceValue)
  (m m' : gmap string DataType) :
  addEntry optim k sv m = Ok m' -> exists x, m' = <[firstPart k := x]> m.
Proof.
  unfold addEntry. destruct (ToMMDBType sv optim) as [v|]; [|discriminate].
  destruct (keyPath_firstPart k) as (rest & Hk). unfold keyPath in Hk. rewrite Hk.
  rewrite setValue_cons. intros H. apply bind_Ok in H as (x & _ & [= <-]). eauto.
Qed.

Lemma addEntries_keys (optim : Optimizations) (order : list (string * SourceValue)) :
  forall (m d : gmap string DataType),
    addEntries optim order m = Ok d ->
    forall part,
      is_Some (d !! part) <->
      is_Some (m !! part) \/ exists k sv, (k, sv) ∈ order /\ firstPart k = part.
Proof.
  induction order as [|[k sv] order IH]; intros m d Hd part; simpl in Hd.
  - injection Hd as <-. split; [now left|].
    intros [H | (k & sv & Hin & _)]; [exact H | inversion Hin].
  - apply bind_Ok in Hd as (m1 & H1 & Hd).
    apply addEntry_insert in H1 as (x & ->).
    rewrite (IH _ d Hd part). rewrite lookup_insert_is_Some. split.
    + intros [[<- | [_ H]] | (k' & sv' & Hin & Hp)].
      * right. exists k, sv. split; [apply elem_of_cons; now left | reflexivity].
      * now left.
      * right. exists k', sv'. split; [apply elem_of_cons; now right | exact Hp].
    + intros [H | (k' & sv' & Hin & Hp)].
      * destruct (decide (firstPart k = part)); [left; now left | left; right; auto].
      * apply elem_of_cons in Hin as [[= -> ->] | Hin].
        -- left. now left.
        -- right. eauto.
Qed.

(** X3.  The top-level keys of an assembled document are exactly the first
    parts of the keys of the entries: every entry contributes the part of
    its key before the first dot, and nothing else appears at the top. *)
Theorem document_top_level_keys (order : list (string * SourceValue))
  (optim : Optimizations) (doc : gmap string DataType) :
  ToMMDBMapIn order optim = Ok doc ->
  forall part,
    is_Some (doc !! part) <->
    exists k sv, (k, sv) ∈ order /\ firstPart k = part.
Proof.
  intros Hdoc part. rewrite (addEntries_keys optim order ∅ doc Hdoc part).
  rewrite lookup_empty. split; [|now right].
  intros [[x Hx] | H]; [discriminate Hx | exact H].
Qed.

Lemma document_top_level_keys_witness :
  is_Some ((<["a" := Map (<["b" := String "x"]> (<["c" := String "y"]> ∅))]> ∅
            : gmap string DataType) !! "a"%string) <->
  exists k sv, (k, sv) ∈ [("a.b"%string, textX); ("a.c"%string, textY)] /\
               firstPart k = "a"%string.
Proof.
  apply (document_top_level_keys [("a.b"%string, textX); ("a.c"%string, textY)]
           optimNone).
  vm_compute. reflexivity.
Defined.

(** ** The errors of the assembly *)

Lemma bind_Err {A B} (r : result A) (f : A -> result B) (e : error) :
  r ≫= f = Err e <-> r = Err e \/ exists a, r = Ok a /\ f a = Err e.
Proof.
  destruct r as [a|e']; simpl; split.
  - intros H. right. eauto.
  - intros [H | (a' & [= <-] & H)]; [discriminate | exact H].
  - intros [= <-]. now left.
  - intros [[= <-] | (a' & H & _)]; [reflexivity | discriminate].
Qed.

Lemma typeName_notMap (x : DataType) :
  notMap x = true -> typeName x <> "mmdbtype.Map"%string.
Proof. destruct x; simpl; intros H; try discriminate H; discriminate. Qed.

(** A walk fails only at a value that is no map, before the last part of
    its path. *)
Lemma setValue_Err (p : list string) :
  forall (key submap : string) (v : DataType) (m : gmap string DataType)
         (err : error),
    p <> [] ->
    setValue key submap p v m = Err err ->
    (2 <= length p)%nat /\
    exists t, err = ErrSubmap key submap t /\ t <> "mmdbtype.Map"%string.
Proof.
  induction p as [|a p IH]; intros key submap v m err Hne Hp; [contradiction|].
  rewrite setValue_cons in Hp. apply bind_Err in Hp as [Hp | (x & _ & Hp)];
    [|discriminate Hp].
  unfold headValue in Hp. destruct p as [|b p]; [discriminate Hp|].
  split; [simpl; lia|].
  destruct (m !! a) as [x|].
  - destruct x;
      try (injection Hp as <-; eexists; split; [reflexivity | discriminate]).
    apply bind_Err in Hp as [Hp | (x & _ & Hp)]; [|discriminate Hp].
    now apply IH in Hp as [_ Ht].
  - apply bind_Err in Hp as [Hp | (x & _ & Hp)]; [|discriminate Hp].
    now apply IH in Hp as [_ Ht].
Qed.

Lemma addEntry_Err (optim : Optimizations) (k : string) (sv : SourceValue)
  (m : gmap string DataType) (err : error) :
  addEntry optim k sv m = Err err ->
  (exists e, ToMMDBType sv optim = Err e /\
             err = ErrTransform k (Value sv) (Type_ sv) e) \/
  ((2 <= length (keyPath k))%nat /\
   exists t, err = ErrSubmap k (firstPart k) t /\ t <> "mmdbtype.Map"%string).
Proof.
  unfold addEntry. destruct (ToMMDBType sv optim) as [v|e].
  - intros H. right.
    assert (Hj : strings.Join (take 1 (strings.Split k ".")) "." = firstPart k).
    { destruct (keyPath_firstPart k) as (rest & Hk). unfold keyPath in Hk.
      now rewrite Hk. }
    rewrite Hj in H. apply setValue_Err in H; [exact H | apply Split_nonempty].
  - intros [= <-]. left. eauto.
Qed.

Lemma addEntries_Err (optim : Optimizations) (order : list (string * SourceValue)) :
  forall (m : gmap string DataType) (err : error),
    addEntries optim order m = Err err ->
    (exists k sv e, (k, sv) ∈ order /\ ToMMDBType sv optim = Err e /\
                    err = ErrTransform k (Value sv) (Type_ sv) e) \/
    (exists k sv t, (k, sv) ∈ order /\ (2 <= length (keyPath k))%nat /\
                    err = ErrSubmap k (firstPart k) t /\
                    t <> "mmdbtype.Map"%string).
Proof.
  induction order as [|[k sv] order IH]; intros m err H; simpl in H; [discriminate|].
  apply bind_Err in H as [H | (m1 & _ & H)].
  - apply addEntry_Err in H as [(e & He & ->) | (Hlen & t & -> & Ht)].
    + left. exists k, sv, e. repeat split; auto. apply elem_of_cons. now left.
    + right. exists k, sv, t. repeat split; auto. apply elem_of_cons. now left.
  - apply IH in H as [(k' & sv' & e & Hin & He & ->) | (k' & sv' & t & Hin & Hlen & -> & Ht)].
    + left. exists k', sv', e. repeat split; auto. apply elem_of_cons. now right.
    + right. exists k', sv', t. repeat split; auto. apply elem_of_cons. now right.
Qed.

(** X4.  When the assembly fails, the error is attributed to an entry of
    the mapping: it is the coercion error of one of the values, wrapped with
    the key, the raw value and the type of that entry, or it reports a key
    of two parts or more that met a value that is no map; the sub map named
    in that report is always the first part of the key, however deep the
    value was met.  Indexing the key parts never panics. *)
Theorem assembly_error_attributed (order : list (string * SourceValue))
  (optim : Optimizations) (err : error) :
  ToMMDBMapIn order optim = Err err ->
  err <> ErrPanic /\
  ((exists k sv e, (k, sv) ∈ order /\ ToMMDBType sv optim = Err e /\
                   err = ErrTransform k (Value sv) (Type_ sv) e) \/
   (exists k sv t, (k, sv) ∈ order /\ (2 <= length (keyPath k))%nat /\
                   err = ErrSubmap k (firstPart k) t /\
                   t <> "mmdbtype.Map"%string)).
Proof.
  intros H. apply addEntries_Err in H. split; [|exact H].
  destruct H as [(k & sv & e & _ & _ & ->) | (k & sv & t & _ & _ & -> & _)];
    discriminate.
Qed.

(** The conflict of "a.b.c" with the scalar at "a.b" is reported with the
    sub map "a". *)
Lemma assembly_error_attributed_witness :
  ToMMDBMapIn deepOrder optimNone = Err (ErrSubmap "a.b.c" "a" "mmdbtype.String") /\
  ErrSubmap "a.b.c" "a" "mmdbtype.String" <> ErrPanic.
Proof.
  assert (H : ToMMDBMapIn deepOrder optimNone
              = Err (ErrSubmap "a.b.c" "a" "mmdbtype.String")) by reflexivity.
  split; [exact H|].
  exact (proj1 (assembly_error_attributed deepOrder optimNone _ H)).
Defined.

(** X5.  A mapping with a value that does not coerce is rejected as a
    whole: whatever the order of iteration, [ToMMDBMap] returns an error and
    no document. *)
Theorem uncoercible_value_rejects_entry (se : SourceEntry) (optim : Optimizations)
  (k : string) (sv : SourceValue) (r : result (gmap string DataType)) :
  Values se !! k = Some sv ->
  isOk (ToMMDBType sv optim) = false ->
  ToMMDBMap se optim r ->
  exists e, r = Err e.
Proof.
  intros Hk Hsv (order & Horder & <-). apply isOk_false.
  apply (addEntries_uncoercible optim order ∅ k sv); [|exact Hsv].
  unfold rangeOrder in Horder. rewrite Horder. now apply elem_of_map_to_list.
Qed.

Lemma uncoercible_value_rejects_entry_witness :
  exists e,
    ToMMDBMapIn [("n"%string, badNumber); ("t"%string, textX)] optimNone = Err e.
Proof.
  apply (uncoercible_value_rejects_entry
           (entryOf (<["n" := badNumber]> (<["t" := textX]> ∅))) optimNone
           "n" badNumber).
  - reflexivity.
  - reflexivity.
  - exists [("n"%string, badNumber); ("t"%string, textX)]. split; [|reflexivity].
    unfold rangeOrder. simpl Values.
    rewrite map_to_list_insert by reflexivity.
    rewrite map_to_list_insert by reflexivity. now rewrite map_to_list_empty.
Defined.

(** X6.  When every value coerces and the entry of a path is visited before
    the entry of a strict extension of that path, the assembly fails with the
    error that reports a sub map which exists but is no map. *)
Theorem prefix_first_reports_submap (values : gmap string SourceValue)
  (optim : Optimizations) (l1 l2 : list (string * SourceValue))
  (kp kq : string) (svp svq : SourceValue) :
  allCoerce values optim ->
  rangeOrder values (l1 ++ (kp, svp) :: l2) ->
  (kq, svq) ∈ l2 ->
  strictPrefix (keyPath kp) (keyPath kq) ->
  exists k t,
    is_Some (values !! k) /\
    ToMMDBMapIn (l1 ++ (kp, svp) :: l2) optim = Err (ErrSubmap k (firstPart k) t).
Proof.
  intros Hall Horder Hq Hpre.
  destruct (prefix_visited_first_fails values optim l1 l2 kp kq svp svq Horder Hq Hpre)
    as (err & Herr).
  destruct (addEntries_Err optim _ ∅ err Herr)
    as [(k & sv & e & Hin & He & _) | (k & sv & t & Hin & _ & -> & _)].
  - exfalso. assert (Hk : values !! k = Some sv).
    { apply elem_of_map_to_list. unfold rangeOrder in Horder. now rewrite <- Horder. }
    specialize (Hall k sv Hk). now rewrite He in Hall.
  - exists k, t. split; [|exact Herr].
    exists sv. apply elem_of_map_to_list. unfold rangeOrder in Horder.
    now rewrite <- Horder.
Qed.

Lemma values_conflict_coerce :
  allCoerce (<["a" := textX]> (<["a.b" := textY]> ∅)) optimNone.
Proof.
  intros k sv Hk. destruct (decide (k = "a"%string)) as [-> | H1].
  - rewrite lookup_insert_eq in Hk. now injection Hk as <-.
  - rewrite lookup_insert_ne in Hk by congruence.
    destruct (decide (k = "a.b"%string)) as [-> | H2].
    + rewrite lookup_insert_eq in Hk. now injection Hk as <-.
    + rewrite lookup_insert_ne in Hk by congruence. now rewrite lookup_empty in Hk.
Qed.

Lemma prefix_first_reports_submap_witness :
  exists k t,
    is_Some ((<["a" := textX]> (<["a.b" := textY]> ∅) : gmap string SourceValue) !! k) /\
    ToMMDBMapIn ([] ++ [("a"%string, textX); ("a.b"%string, textY)]) optimNone
    = Err (ErrSubmap k (firstPart k) t).
Proof.
  apply (prefix_first_reports_submap (<["a" := textX]> (<["a.b" := textY]> ∅))
           optimNone [] [("a.b"%string, textY)] "a" "a.b" textX textY).
  - exact values_conflict_coerce.
  - exact values_conflict_order.
  - apply elem_of_cons. now left.
  - exists ["b"%string]. split; [discriminate | reflexivity].
Defined.

(** ** LoadSources on success *)

Section LoadSourcesSuccess.

Variable Source : Type.
Variable LoadCSVSource : DatabaseInput -> gmap string string -> result Source.
Variable LoadIPFireSource : DatabaseInput -> gmap string string -> result Source.

Lemma loadInputs_Ok_inv (types : gmap string string) (inputs : list DatabaseInput) :
forall (sources out : list Source),
  loadInputs Source LoadCSVSource LoadIPFireSource inputs types sources = Ok out ->
  exists ss,
    out = sources ++ ss /\
    Forall2 (fun input s =>
               loadInput Source LoadCSVSource LoadIPFireSource types input = Ok s)
      inputs ss.
Proof.
induction inputs as [|input inputs IH]; intros sources out H.
- injection H as <-. exists []. split; [now rewrite app_nil_r | constructor].
- rewrite loadInputs_cons in H.
  destruct (loadInput Source LoadCSVSource LoadIPFireSource types input)
    as [s|] eqn:Hs; [|discriminate].
  apply IH in H as (ss & -> & Hss). exists (s :: ss).
  split; [now rewrite <- app_assoc | now constructor].
Qed.

Lemma loadInput_Ok (types : gmap string string) (input : DatabaseInput) (s : Source) :
loadInput Source LoadCSVSource LoadIPFireSource types input = Ok s ->
unsupportedFile (File input) = false /\
(if strings.HasSuffix (File input) ".csv"
 then LoadCSVSource input types = Ok s
 else LoadIPFireSource input types = Ok s).
Proof.
unfold loadInput, unsupportedFile.
destruct (strings.HasSuffix (File input) ".csv").
- destruct (LoadCSVSource input types); [|discriminate]. now intros [= ->].
- destruct (strings.HasSuffix (File input) ".ipfire.txt"); [|discriminate].
  destruct (LoadIPFireSource input types); [|discriminate]. now intros [= ->].
Qed.

(** X7.  When [LoadSources] succeeds it returns exactly one source per
  configured input, in the order of the configuration; every input has a
  supported file name, and its source is the one built by the loader that
  the suffix selects, the CSV loader for ".csv" and the IPFire loader
  otherwise. *)
Theorem LoadSources_success (dbConfig : DatabaseConfig) (sources : list Source) :
LoadSources Source LoadCSVSource LoadIPFireSource dbConfig = Ok sources ->
length sources = length (Inputs dbConfig) /\
forall i input, Inputs dbConfig !! i = Some input ->
  unsupportedFile (File input) = false /\
  exists s, sources !! i = Some s /\
    (if strings.HasSuffix (File input) ".csv"
     then LoadCSVSource input (Types dbConfig) = Ok s
     else LoadIPFireSource input (Types dbConfig) = Ok s).
Proof.
unfold LoadSources. intros H.
apply loadInputs_Ok_inv in H as (ss & -> & Hss). simpl. split.
- symmetry. eapply Forall2_length, Hss.
- intros i input Hi.
  destruct (Forall2_lookup_l _ _ _ _ _ Hss Hi) as (s & Hs & Hload).
  apply loadInput_Ok in Hload as [Hsup Hl]. split; [exact Hsup|]. eauto.
Qed.

End LoadSourcesSuccess.

Lemma LoadSources_success_witness :
  exists s,
    ["csv:a.csv"; "ipfire:b.ipfire.txt"]%string !! 1%nat = Some s /\
    ipfireLoader {| File := "b.ipfire.txt"; Fields := [] |} ∅ = Ok s.
Proof.
  destruct (LoadSources_success string csvLoader ipfireLoader twoInputs
              ["csv:a.csv"; "ipfire:b.ipfire.txt"]%string) as [_ H].
  - vm_compute. reflexivity.
  - destruct (H 1%nat {| File := "b.ipfire.txt"; Fields := [] |} eq_refl)
      as (_ & s & Hs & Hl).
    exists s. split; [exact Hs | exact Hl].
Defined.

(** ** Integer coercion: acceptance and the kinds of errors *)

Lemma unsignedNumeral_Some (s : string) (n : Z) :
  unsignedNumeral s = Some n <-> s <> ""%string /\ digitsValue (bytes s) 0 = Some n.
Proof.
  unfold unsignedNumeral. destruct (String.eqb_spec s "") as [-> | Hs].
  - split; [discriminate | now intros [[] _]].
  - tauto.
Qed.

(** X8.  Every numeral whose value lies in the range of the declared integer
    type is accepted, leading zeros included, and coerced to exactly that
    value; a sign is read for int32 only. *)
Theorem integer_in_range_accepted (t : intType) (raw : string)
  (optim : Optimizations) (n : Z) :
  intNumeral t raw = Some n ->
  intMin t <= n <= intMax t ->
  toMMDBType (intTag t) raw optim = Ok (intValue t n).
Proof.
  intros Hn Hr. destruct t; unfold toMMDBType; simpl in *.
  - assert (H : strconv.ParseInt raw 10 32 = Ok n) by now apply ParseInt_Ok.
    rewrite H. simpl. now rewrite int32_small by lia.
  - apply unsignedNumeral_Some in Hn as [Hs Hd].
    assert (H : strconv.ParseUint raw 10 16 = Ok n) by (apply ParseUint_Ok; auto).
    rewrite H. simpl. unfold uint16. now rewrite Z.mod_small by lia.
  - apply unsignedNumeral_Some in Hn as [Hs Hd].
    assert (H : strconv.ParseUint raw 10 32 = Ok n) by (apply ParseUint_Ok; auto).
    rewrite H. simpl. unfold uint32. now rewrite Z.mod_small by lia.
  - apply unsignedNumeral_Some in Hn as [Hs Hd].
    assert (H : strconv.ParseUint raw 10 64 = Ok n) by (apply ParseUint_Ok; auto).
    rewrite H. reflexivity.
Qed.

Lemma integer_in_range_accepted_witness :
  toMMDBType "uint16" "00065535" optimNone = Ok (Uint16 65535) /\
  toMMDBType "int32" "-2147483648" optimNone = Ok (Int32 (-2147483648)).
Proof.
  split.
  - apply (integer_in_range_accepted TUint16 "00065535" optimNone 65535).
    + reflexivity.
    + vm_compute. split; discriminate.
  - apply (integer_in_range_accepted TInt32 "-2147483648" optimNone (-2147483648)).
    + reflexivity.
    + vm_compute. split; discriminate.
Defined.

Lemma ParseUint_range (s : string) (bitSize n : Z) :
  bitSize = 16 \/ bitSize = 32 \/ bitSize = 64 ->
  unsignedNumeral s = Some n ->
  2 ^ bitSize - 1 < n ->
  strconv.ParseUint s 10 bitSize = Err (strconv.rangeError "ParseUint" s).
Proof.
  intros Hbits [Hs Hd]%unsignedNumeral_Some Hn. unfold strconv.ParseUint.
  pose proof (parseUint_spec s bitSize Hbits Hs) as Hspec. rewrite Hd in Hspec.
  rewrite Hspec. destruct (Z.leb_spec n (2 ^ bitSize - 1)); [lia | reflexivity].
Qed.

Lemma ParseInt_range (s : string) (n : Z) :
  numeral s = Some n ->
  n < - 2 ^ 31 \/ 2 ^ 31 - 1 < n ->
  strconv.ParseInt s 10 32 = Err (strconv.rangeError "ParseInt" s).
Proof.
  unfold strconv.ParseInt, numeral.
  destruct s as [|c0 s1]; [discriminate|].
  change (bytes (String.String c0 s1)) with (c0 :: bytes s1). cbv beta iota.
  change (2 ^ (32 - 1)) with 2147483648. change (2 ^ 31) with 2147483648.
  assert (Hsigned : forall (neg : bool) w,
    s1 <> ""%string ->
    digitsValue (bytes s1) 0 = Some w ->
    (if neg then 2147483648 < w else 2147483647 < w) ->
    match strconv.parseUint s1 10 32 with
    | (_, Some ErrSyntax) => Err (strconv.syntaxError "ParseInt" (String.String c0 s1))
    | (un, _) =>
        if negb neg && (2147483648 <=? un)
        then Err (strconv.rangeError "ParseInt" (String.String c0 s1))
        else if neg && (2147483648 <? un)
             then Err (strconv.rangeError "ParseInt" (String.String c0 s1))
             else Ok (if neg then - un else un)
    end = Err (strconv.rangeError "ParseInt" (String.String c0 s1))).
  { intros neg w Hs1 Hw Hout.
    pose proof (parseUint_spec s1 32 ltac:(auto) Hs1) as Hspec.
    change (2 ^ 32 - 1) with 4294967295 in Hspec. rewrite Hw in Hspec.
    rewrite Hspec.
    destruct (Z.leb_spec w 4294967295); destruct neg; simpl.
    - destruct (Z.ltb_spec 2147483648 w); [reflexivity | lia].
    - destruct (Z.leb_spec 2147483648 w); [reflexivity | lia].
    - reflexivity.
    - reflexivity. }
  assert (Hne : forall b bs, bytes s1 = b :: bs -> s1 <> ""%string).
  { intros b bs Hb ->. discriminate Hb. }
  destruct (Ascii.eqb_spec c0 "-") as [-> | Hminus].
  - simpl. destruct (bytes s1) as [|b bs] eqn:Hb; [discriminate|].
    destruct (digitsValue (b :: bs) 0) as [w|] eqn:Hw; [|discriminate].
    intros [= <-] Hout. pose proof (digitsValue_nonneg _ _ Hw).
    apply (Hsigned true w); [eauto | first [exact Hw | reflexivity] | lia].
  - destruct (Ascii.eqb_spec c0 "+") as [-> | Hplus].
    + simpl. destruct (bytes s1) as [|b bs] eqn:Hb; [discriminate|].
      intros Hw Hout. pose proof (digitsValue_nonneg _ _ Hw).
      apply (Hsigned false n); [eauto | first [exact Hw | reflexivity] | lia].
    + intros Hw Hout. pose proof (digitsValue_nonneg _ _ Hw).
      pose proof (parseUint_spec (String.String c0 s1) 32 ltac:(auto) ltac:(discriminate))
        as Hspec.
      change (bytes (String.String c0 s1)) with (c0 :: bytes s1) in Hspec.
      change (2 ^ 32 - 1) with 4294967295 in Hspec. rewrite Hw in Hspec.
      rewrite Hspec. destruct (Z.leb_spec n 4294967295); simpl.
      * destruct (Z.leb_spec 2147483648 n); [reflexivity | lia].
      * reflexivity.
Qed.

(** [ParseUint] reads no sign. *)
Lemma ParseUint_signed (sign : ascii) (rest : string) (bitSize : Z) :
  sign = "+"%char \/ sign = "-"%char ->
  strconv.ParseUint (String.String sign rest) 10 bitSize
  = Err (strconv.syntaxError "ParseUint" (String.String sign rest)).
Proof.
  intros Hsign. unfold strconv.ParseUint, strconv.parseUint.
  change (String.String sign rest =? "")%string with false. cbv beta iota.
  change (bytes (String.String sign rest)) with (sign :: bytes rest).
  destruct Hsign as [-> | ->]; reflexivity.
Qed.

(** A numeral that is no unsigned numeral starts with a sign. *)
Lemma numeral_signed (raw : string) (n : Z) :
  numeral raw = Some n -> unsignedNumeral raw = None ->
  exists sign rest,
    raw = String.String sign rest /\ (sign = "+"%char \/ sign = "-"%char).
Proof.
  unfold numeral, unsignedNumeral. destruct raw as [|c raw]; [discriminate|].
  change (String.String c raw =? "")%string with false. cbv iota.
  change (bytes (String.String c raw)) with (c :: bytes raw). cbv beta iota.
  destruct (Ascii.eqb_spec c "-") as [-> | Hminus]; [eauto|].
  destruct (Ascii.eqb_spec c "+") as [-> | Hplus]; [eauto|].
  intros Hn Hu. rewrite Hn in Hu. discriminate Hu.
Qed.

(** X9.  A decimal numeral, with or without a sign, whose value lies outside
    the range of the declared integer type is rejected with an error of the
    [strconv] function that read it, naming the raw text: the range error
    when the type reads the numeral, which int32 always does and an unsigned
    type does when the text carries no sign, and the syntax error when the
    text carries a sign and the type is unsigned, as for "-1". *)
Theorem integer_out_of_range_error (t : intType) (raw : string)
  (optim : Optimizations) (n : Z) :
  numeral raw = Some n ->
  n < intMin t \/ intMax t < n ->
  toMMDBType (intTag t) raw optim
  = Err (NumError (intParser t) raw
           match intNumeral t raw with
           | Some _ => ErrRange
           | None => ErrSyntax
           end).
Proof.
  intros Hn Hout.
  assert (Hunsigned : forall bitSize,
    bitSize = 16 \/ bitSize = 32 \/ bitSize = 64 ->
    n < 0 \/ 2 ^ bitSize - 1 < n ->
    strconv.ParseUint raw 10 bitSize
    = Err (NumError "ParseUint" raw
             match unsignedNumeral raw with
             | Some _ => ErrRange
             | None => ErrSyntax
             end)).
  { intros bitSize Hbits Hrange.
    destruct (unsignedNumeral raw) as [u|] eqn:Hu.
    - pose proof (proj1 (unsignedNumeral_Some raw u) Hu) as [Hs Hd].
      pose proof (digitsValue_nonneg _ _ Hd).
      rewrite (numeral_unsigned raw u Hd Hs) in Hn. injection Hn as ->.
      apply (ParseUint_range raw bitSize n Hbits Hu). lia.
    - destruct (numeral_signed raw n Hn Hu) as (sign & rest & -> & Hsign).
      now apply ParseUint_signed. }
  destruct t; unfold toMMDBType; simpl in *.
  - rewrite Hn. now rewrite (ParseInt_range raw n Hn Hout).
  - now rewrite (Hunsigned 16) by auto.
  - now rewrite (Hunsigned 32) by auto.
  - now rewrite (Hunsigned 64) by auto.
Qed.

Lemma integer_out_of_range_error_witness :
  toMMDBType "int32" "-2147483649" optimNone
  = Err (NumError "ParseInt" "-2147483649" ErrRange) /\
  toMMDBType "uint64" "18446744073709551616" optimNone
  = Err (NumError "ParseUint" "18446744073709551616" ErrRange) /\
  toMMDBType "uint32" "-1" optimNone = Err (NumError "ParseUint" "-1" ErrSyntax).
Proof.
  split; [|split].
  - apply (integer_out_of_range_error TInt32 "-2147483649" optimNone (-2147483649)).
    + reflexivity.
    + left. vm_compute. reflexivity.
  - apply (integer_out_of_range_error TUint64 "18446744073709551616" optimNone
             18446744073709551616).
    + reflexivity.
    + right. vm_compute. reflexivity.
  - apply (integer_out_of_range_error TUint32 "-1" optimNone (-1)).
    + reflexivity.
    + left. vm_compute. reflexivity.
Defined.

(** X10.  The unsigned integer types read no sign: a raw text that starts
    with "+" or "-" is rejected with a syntax error, whatever follows, also
    "+1" and "-0", whose values are in range. *)
Theorem unsigned_rejects_sign (t : intType) (sign : ascii) (rest : string)
  (optim : Optimizations) :
  t <> TInt32 ->
  sign = "+"%char \/ sign = "-"%char ->
  toMMDBType (intTag t) (String.String sign rest) optim
  = Err (NumError "ParseUint" (String.String sign rest) ErrSyntax).
Proof.
  intros Ht Hsign.
  assert (H : forall bitSize,
    strconv.ParseUint (String.String sign rest) 10 bitSize
    = Err (NumError "ParseUint" (String.String sign rest) ErrSyntax)).
  { intros bitSize. unfold strconv.ParseUint, strconv.parseUint.
    change (String.String sign rest =? "")%string with false. cbv beta iota.
    change (bytes (String.String sign rest)) with (sign :: bytes rest).
    destruct Hsign as [-> | ->]; reflexivity. }
  destruct t; [contradiction| | |]; unfold toMMDBType; simpl; now rewrite H.
Qed.

Lemma unsigned_rejects_sign_witness :
  toMMDBType "uint32" "+1" optimNone = Err (NumError "ParseUint" "+1" ErrSyntax).
Proof.
  apply (unsigned_rejects_sign TUint32 "+" "1" optimNone).
  - discriminate.
  - now left.
Defined.

(** ** Coercion of hexadecimal byte strings *)

Lemma reverseHexTable_invalid (c : ascii) :
  (15 <? hex.reverseHexTable c) = negb (isHexDigit c).
Proof.
  unfold hex.reverseHexTable, isHexDigit, isDigit. cbv zeta.
  change (byteZ "0") with 48. change (byteZ "9") with 57.
  change (byteZ "a") with 97. change (byteZ "f") with 102.
  change (byteZ "A") with 65. change (byteZ "F") with 70.
  destruct (Z.leb_spec 48 (byteZ c)), (Z.leb_spec (byteZ c) 57); simpl;
    try (destruct (Z.ltb_spec 15 (byteZ c - 48)); [lia | reflexivity]);
    destruct (Z.leb_spec 97 (byteZ c)), (Z.leb_spec (byteZ c) 102); simpl;
    try (destruct (Z.ltb_spec 15 (byteZ c - 97 + 10)); [lia | reflexivity]);
    destruct (Z.leb_spec 65 (byteZ c)), (Z.leb_spec (byteZ c) 70); simpl;
    try (destruct (Z.ltb_spec 15 (byteZ c - 65 + 10)); [lia | reflexivity]);
    reflexivity.
Qed.

Lemma list_pair_ind {A} (P : list A -> Prop) :
  P [] -> (forall p, P [p]) -> (forall p q l, P l -> P (p :: q :: l)) ->
  forall l, P l.
Proof.
  intros H0 H1 H2.
  assert (H : forall l, P l /\ forall p, P (p :: l)).
  { induction l as [|a l [IH1 IH2]]; split; auto. }
  intros l. apply H.
Qed.

(** [hex.Decode] reports the first byte that is no hexadecimal digit, then
    an odd length, and otherwise decodes one byte from every two digits. *)
Lemma Decode_spec (src : list ascii) :
  match firstInvalidByte src with
  | Some c => hex.Decode src = Err (InvalidByteError c)
  | None =>
      if Nat.even (length src)
      then exists bs,
          hex.Decode src = Ok bs /\ length src = (2 * length bs)%nat /\
          forall i p q,
            src !! (2 * i)%nat = Some p -> src !! (2 * i + 1)%nat = Some q ->
            bs !! i = Some (hex.mkByte (hex.reverseHexTable p) (hex.reverseHexTable q))
      else hex.Decode src = Err ErrLength
  end.
Proof.
  unfold firstInvalidByte.
  induction src as [|p|p q src IH] using list_pair_ind.
  - simpl. exists []. repeat split. intros i p q H. now rewrite lookup_nil in H.
  - simpl. rewrite reverseHexTable_invalid. now destruct (isHexDigit p).
  - cbn [find hex.Decode]. rewrite !reverseHexTable_invalid.
    destruct (isHexDigit p); [|reflexivity].
    destruct (isHexDigit q); [|reflexivity]. cbn [negb].
    destruct (find (fun c => negb (isHexDigit c)) src) as [c|].
    + now rewrite IH.
    + change (Nat.even (length (p :: q :: src))) with (Nat.even (length src)).
      destruct (Nat.even (length src)).
      * destruct IH as (bs & -> & Hlen & Hbs).
        exists (hex.mkByte (hex.reverseHexTable p) (hex.reverseHexTable q) :: bs).
        split; [reflexivity|]. split; [simpl; lia|].
        intros [|i] p' q'.
        -- simpl. now intros [= <-] [= <-].
        -- replace (2 * S i)%nat with (S (S (2 * i))) by lia.
           replace (S (S (2 * i)) + 1)%nat with (S (S (2 * i + 1))) by lia.
           simpl. apply Hbs.
      * now rewrite IH.
Qed.

(** X11.  The coercion of a "hexbytes" field fails with the first byte of the
    raw text that is no hexadecimal digit when there is one, fails with the
    length error when all bytes are digits but their number is odd, and
    otherwise returns the bytes that every two digits, of either case,
    denote: half as many bytes as digits. *)
Theorem hexbytes_coercion (raw : string) (optim : Optimizations) :
  let src := bytes raw in
  (forall c, firstInvalidByte src = Some c ->
     toMMDBType "hexbytes" raw optim = Err (InvalidByteError c)) /\
  (firstInvalidByte src = None -> Nat.even (length src) = false ->
     toMMDBType "hexbytes" raw optim = Err ErrLength) /\
  (firstInvalidByte src = None -> Nat.even (length src) = true ->
     exists bs,
       toMMDBType "hexbytes" raw optim = Ok (Bytes bs) /\
       length src = (2 * length bs)%nat /\
       forall i p q,
         src !! (2 * i)%nat = Some p -> src !! (2 * i + 1)%nat = Some q ->
         bs !! i = Some (hex.mkByte (hex.reverseHexTable p) (hex.reverseHexTable q))).
Proof.
  cbv zeta. pose proof (Decode_spec (bytes raw)) as H.
  unfold toMMDBType. simpl. unfold hex.DecodeString.
  split; [|split].
  - intros c Hc. rewrite Hc in H. now rewrite H.
  - intros Hnone Hodd. rewrite Hnone, Hodd in H. now rewrite H.
  - intros Hnone Heven. rewrite Hnone, Heven in H.
    destruct H as (bs & -> & Hlen & Hbs). exists bs. auto.
Qed.

Lemma hexbytes_coercion_witness :
  toMMDBType "hexbytes" "0g" optimNone = Err (InvalidByteError "g") /\
  toMMDBType "hexbytes" "abc" optimNone = Err ErrLength /\
  exists bs, toMMDBType "hexbytes" "fF01" optimNone = Ok (Bytes bs) /\
             length (bytes "fF01") = (2 * length bs)%nat.
Proof.
  pose proof (hexbytes_coercion "0g" optimNone) as (H1 & _).
  pose proof (hexbytes_coercion "abc" optimNone) as (_ & H2 & _).
  pose proof (hexbytes_coercion "fF01" optimNone) as (_ & _ & H3).
  split; [|split].
  - apply H1. reflexivity.
  - apply H2; reflexivity.
  - destruct (H3 eq_refl eq_refl) as (bs & Hbs & Hlen & _). exists bs. auto.
Defined.

(** ** Where the values of a document come from *)

(** After a walk that stores a value that is no map, a value that is no map
    is the one stored, at the path of the walk, or was there before. *)
Lemma setValue_leaf (p : list string) :
  forall (q : list string) (key submap : string) (w x : DataType)
         (m m' : gmap string DataType),
    notMap w = true ->
    setValue key submap q w m = Ok m' ->
    lookupPath p m' = Some x -> notMap x = true ->
    (p = q /\ x = w) \/ lookupPath p m = Some x.
Proof.
  induction p as [|a p IH]; intros q key submap w x m m' Hw Hq Hx Hnm;
    [discriminate Hx|].
  destruct q as [|b q]; [discriminate Hq|].
  rewrite setValue_cons in Hq. apply bind_Ok in Hq as (hv & Hhv & [= <-]).
  rewrite lookupPath_cons in Hx. rewrite lookupPath_cons.
  destruct (decide (a = b)) as [<- | Hab].
  - rewrite lookup_insert_eq in Hx. destruct q as [|c q].
    + injection Hhv as <-. destruct p as [|c p].
      * injection Hx as <-. now left.
      * destruct w; discriminate.
    + apply headValue_Map in Hhv as (base & sub & Hbase & Hsub & ->); [|discriminate].
      destruct p as [|d p]; [injection Hx as <-; discriminate|].
      destruct (IH (c :: q) key submap w x base sub Hw Hsub Hx Hnm) as [[-> ->] | Hold].
      * now left.
      * right. destruct Hbase as [[_ ->] | ->]; [|exact Hold].
        now rewrite lookupPath_empty in Hold.
  - rewrite lookup_insert_ne in Hx by (intros ->; now apply Hab). now right.
Qed.

(** After such a walk, a sub document lies on the path of the walk or was
    there before, possibly with other contents. *)
Lemma setValue_node (p : list string) :
  forall (q : list string) (key submap : string) (w : DataType)
         (m m' sub : gmap string DataType),
    notMap w = true ->
    setValue key submap q w m = Ok m' ->
    lookupPath p m' = Some (Map sub) ->
    strictPrefix p q \/ exists sub0, lookupPath p m = Some (Map sub0).
Proof.
  induction p as [|a p IH]; intros q key submap w m m' sub Hw Hq Hx;
    [discriminate Hx|].
  destruct q as [|b q]; [discriminate Hq|].
  rewrite setValue_cons in Hq. apply bind_Ok in Hq as (hv & Hhv & [= <-]).
  rewrite lookupPath_cons in Hx. rewrite lookupPath_cons.
  destruct (decide (a = b)) as [<- | Hab].
  - rewrite lookup_insert_eq in Hx. destruct q as [|c q].
    + injection Hhv as <-. destruct p as [|c p].
      * injection Hx as ->. discriminate Hw.
      * destruct w; discriminate.
    + apply headValue_Map in Hhv as (base & sub' & Hbase & Hsub & ->); [|discriminate].
      destruct p as [|d p].
      * left. exists (c :: q). split; [discriminate | reflexivity].
      * destruct (IH (c :: q) key submap w base sub' sub Hw Hsub Hx)
          as [(rest & Hrest & Heq) | (sub0 & Hold)].
        -- left. exists rest. split; [exact Hrest|]. simpl. now rewrite Heq.
        -- right. destruct Hbase as [[_ ->] | ->]; [|eauto].
           now rewrite lookupPath_empty in Hold.
  - rewrite lookup_insert_ne in Hx by (intros ->; now apply Hab). eauto.
Qed.

Lemma addEntries_leaf (optim : Optimizations) (p : list string) (x : DataType)
  (order : list (string * SourceValue)) :
  forall m d,
    addEntries optim order m = Ok d ->
    lookupPath p d = Some x -> notMap x = true ->
    lookupPath p m = Some x \/
    exists k sv, (k, sv) ∈ order /\ keyPath k = p /\ ToMMDBType sv optim = Ok x.
Proof.
  induction order as [|[k sv] order IH]; intros m d Hd Hx Hnm; simpl in Hd.
  - injection Hd as <-. now left.
  - apply bind_Ok in Hd as (m1 & H1 & Hd).
    destruct (IH m1 d Hd Hx Hnm) as [Hm1 | (k' & sv' & Hin & Hk & Hv)].
    + unfold addEntry in H1.
      destruct (ToMMDBType sv optim) as [v|] eqn:Hv; [|discriminate].
      pose proof (ToMMDBType_notMap sv optim v Hv) as Hvn.
      destruct (setValue_leaf p _ _ _ v x m m1 Hvn H1 Hm1 Hnm) as [[-> ->] | Hold].
      * right. exists k, sv. split; [apply elem_of_cons; now left | auto].
      * now left.
    + right. exists k', sv'. split; [apply elem_of_cons; now right | auto].
Qed.

Lemma addEntries_node (optim : Optimizations) (p : list string)
  (order : list (string * SourceValue)) :
  forall m d sub,
    addEntries optim order m = Ok d ->
    lookupPath p d = Some (Map sub) ->
    (exists sub0, lookupPath p m = Some (Map sub0)) \/
    exists k sv, (k, sv) ∈ order /\ strictPrefix p (keyPath k).
Proof.
  induction order as [|[k sv] order IH]; intros m d sub Hd Hx; simpl in Hd.
  - injection Hd as <-. eauto.
  - apply bind_Ok in Hd as (m1 & H1 & Hd).
    destruct (IH m1 d sub Hd Hx) as [(sub1 & Hm1) | (k' & sv' & Hin & Hk)].
    + unfold addEntry in H1.
      destruct (ToMMDBType sv optim) as [v|] eqn:Hv; [|discriminate].
      pose proof (ToMMDBType_notMap sv optim v Hv) as Hvn.
      destruct (setValue_node p _ _ _ v m m1 sub1 Hvn H1 Hm1) as [Hpre | Hold].
      * right. exists k, sv. split; [apply elem_of_cons; now left | exact Hpre].
      * now left.
    + right. exists k', sv'. split; [apply elem_of_cons; now right | auto].
Qed.

(** X12.  A document returned by [ToMMDBMap] holds nothing but what the
    entries of the mapping put there: a value that is no sub document is the
    coerced value of an entry whose key spells the path of the value, and a
    sub document lies on the way to an entry, its path being a strict prefix
    of the path of that entry.  This holds of every iteration order and of
    mappings with conflicting keys as well. *)
Theorem document_values_from_entries (se : SourceEntry) (optim : Optimizations)
  (doc : gmap string DataType) (p : list string) (x : DataType) :
  ToMMDBMap se optim (Ok doc) ->
  lookupPath p doc = Some x ->
  exists k sv,
    Values se !! k = Some sv /\
    if notMap x then keyPath k = p /\ ToMMDBType sv optim = Ok x
    else strictPrefix p (keyPath k).
Proof.
  intros (order & Horder & Hdoc) Hx.
  assert (Hin : forall k sv, (k, sv) ∈ order -> Values se !! k = Some sv).
  { intros k sv Hin. apply elem_of_map_to_list. unfold rangeOrder in Horder.
    now rewrite <- Horder. }
  destruct (notMap x) eqn:Hnm.
  - destruct (addEntries_leaf optim p x order ∅ doc Hdoc Hx Hnm)
      as [He | (k & sv & Hk & Hp & Hv)].
    + now rewrite lookupPath_empty in He.
    + exists k, sv. auto.
  - destruct x; try discriminate Hnm.
    destruct (addEntries_node optim p order ∅ doc _ Hdoc Hx)
      as [(sub0 & He) | (k & sv & Hk & Hp)].
    + now rewrite lookupPath_empty in He.
    + exists k, sv. auto.
Qed.

Lemma document_values_from_entries_witness :
  exists k sv,
    (<["a.b" := textX]> (<["a.c" := textY]> ∅) : gmap string SourceValue) !! k
    = Some sv /\
    keyPath k = ["a"; "c"]%string /\ ToMMDBType sv optimNone = Ok (String "y").
Proof.
  refine (document_values_from_entries
            (entryOf (<["a.b" := textX]> (<["a.c" := textY]> ∅))) optimNone
            (<["a" := Map (<["b" := String "x"]> (<["c" := String "y"]> ∅))]> ∅)
            ["a"; "c"]%string (String "y") _ _).
  - exists [("a.b"%string, textX); ("a.c"%string, textY)].
    split; [exact values_two_leaves_order | vm_compute; reflexivity].
  - reflexivity.
Defined.

(** ** Rounding of floats *)

Lemma binary_round_aux_opp (prec emax : Z) (s : bool) (m e : Z) (l : location) :
  binary_round_aux prec emax (negb s) m e l
  = SFopp (binary_round_aux prec emax s m e l).
Proof.
  unfold binary_round_aux.
  destruct (shr_fexp prec emax m e l) as [mrs' e'].
  destruct (shr_fexp prec emax _ e' loc_Exact) as [mrs'' e''].
  destruct (shr_m mrs'') as [|p|p]; [reflexivity | | reflexivity].
  now destruct (e'' <=? emax - prec).
Qed.

Lemma binary_round_opp (prec emax : Z) (s : bool) (m : positive) (e : Z) :
  binary_round prec emax (negb s) m e = SFopp (binary_round prec emax s m e).
Proof.
  unfold binary_round. destruct (shl_align m e _) as [mz ez].
  apply binary_round_aux_opp.
Qed.

Lemma SFmul_opp_l (prec emax : Z) (x y : spec_float) :
  SFmul prec emax (SFopp x) y = SFopp (SFmul prec emax x y).
Proof.
  destruct x as [sx| sx| |sx mx ex], y as [sy| sy| |sy my ey]; simpl;
    try reflexivity; try (now destruct sx, sy).
  rewrite <- binary_round_aux_opp. now destruct sx, sy.
Qed.

Lemma SFdiv_opp_l (prec emax : Z) (x y : spec_float) :
  SFdiv prec emax (SFopp x) y = SFopp (SFdiv prec emax x y).
Proof.
  destruct x as [sx| sx| |sx mx ex], y as [sy| sy| |sy my ey]; simpl;
    try reflexivity; try (now destruct sx, sy).
  destruct (SFdiv_core_binary prec emax (Z.pos mx) ex (Z.pos my) ey) as [[mz ez] lz].
  rewrite <- binary_round_aux_opp. now destruct sx, sy.
Qed.

Lemma Round_opp (x : float64) : math.Round (SFopp x) = SFopp (math.Round x).
Proof.
  destruct x as [s| s| |s m e]; try reflexivity. simpl.
  destruct (0 <=? e); [reflexivity|].
  destruct (math.nearestAway (Z.pos m) (- e)) as [|n|n]; [now destruct s | |].
  - destruct s; simpl.
    + apply (binary_round_opp 53 1024 true n 0).
    + apply (binary_round_opp 53 1024 false n 0).
  - destruct s; simpl.
    + apply (binary_round_opp 53 1024 false n 0).
    + apply (binary_round_opp 53 1024 true n 0).
Qed.

(** X13.  Rounding is symmetric about zero: the rounding of the negation of
    a float is the negation of its rounding, at every precision and for the
    zeros, the infinities and NaN as well. *)
Theorem rounding_symmetric (num : float64) (decimalPlaces : Z) :
  roundToDecimalPlaces (SFopp num) decimalPlaces
  = SFopp (roundToDecimalPlaces num decimalPlaces).
Proof.
  unfold roundToDecimalPlaces, f64.div, f64.mul.
  now rewrite SFmul_opp_l, Round_opp, SFdiv_opp_l.
Qed.

(** X14.  When the power of ten of the precision overflows to an infinite
    float, as it does from 309 decimal places on, the rounding returns NaN
    for every float: no value survives it. *)
Theorem rounding_overflow_NaN (num : float64) (decimalPlaces : Z) :
  0 <= decimalPlaces ->
  f64.isInf (math.Pow10 decimalPlaces) = true ->
  roundToDecimalPlaces num decimalPlaces = S754_nan.
Proof.
  intros Hp Hinf. unfold roundToDecimalPlaces.
  destruct (Z.ltb_spec decimalPlaces 0); [lia|].
  destruct (math.Pow10 decimalPlaces) as [| s | |]; try discriminate Hinf.
  destruct num as [sn| sn| |sn mn en]; reflexivity.
Qed.

Lemma rounding_overflow_NaN_witness :
  roundToDecimalPlaces (f64.ofInt 7) 309 = S754_nan.
Proof.
  apply (rounding_overflow_NaN (f64.ofInt 7) 309).
  - lia.
  - vm_compute. reflexivity.
Defined.

(** ** The fields of an array are tokens *)

(** A white space rune at the head of a byte string is still one when bytes
    are added behind. *)
Lemma spaceWidth_prefix (l ext : list ascii) :
  strings.spaceWidth (l ++ ext) = 0%nat -> strings.spaceWidth l = 0%nat.
Proof.
  destruct l as [|c0 [|c1 [|c2 l]]]; [reflexivity| | |];
    unfold strings.spaceWidth; simpl map;
    generalize (byteZ c0); intros b0.
  - destruct ext as [|e0 [|e1 ext]]; simpl; split_tests; simpl; auto.
  - generalize (byteZ c1); intros b1.
    destruct ext as [|e0 ext]; simpl; split_tests; simpl; auto.
  - generalize (byteZ c1) (byteZ c2); intros b1 b2. simpl. auto.
Qed.

Lemma spaceFree_drop (l : list ascii) :
  (forall i, (i < length l)%nat -> strings.spaceWidth (drop i l) = 0%nat) ->
  spaceFree l = true.
Proof.
  induction l as [|a l IH]; intros H; [reflexivity|].
  cbn -[strings.spaceWidth]. apply andb_true_intro. split.
  - apply Nat.eqb_eq. apply (H 0%nat). simpl. lia.
  - apply IH. intros i Hi. apply (H (S i)). simpl. lia.
Qed.

Lemma closeField_isToken (cur ext : list ascii) :
  (forall i, (i < length cur)%nat ->
             strings.spaceWidth (drop i (rev cur) ++ ext) = 0%nat) ->
  Forall isToken (strings.closeField cur).
Proof.
  intros H. destruct cur as [|c cur]; [constructor|].
  unfold strings.closeField. constructor; [|constructor]. split.
  - intros Hnil. apply (f_equal bytes) in Hnil. unfold bytes in Hnil.
    rewrite list_ascii_of_string_of_list_ascii in Hnil.
    apply (f_equal (@length ascii)) in Hnil.
    rewrite length_rev in Hnil. discriminate Hnil.
  - unfold bytes. rewrite list_ascii_of_string_of_list_ascii.
    apply spaceFree_drop. intros i Hi. rewrite length_rev in Hi.
    apply (spaceWidth_prefix _ ext). now apply H.
Qed.

Lemma fieldsFrom_isToken (bs : list ascii) :
  forall (skip : nat) (cur : list ascii),
    skip = 0%nat \/ cur = [] ->
    (forall i, (i < length cur)%nat ->
               strings.spaceWidth (drop i (rev cur) ++ bs) = 0%nat) ->
    Forall isToken (strings.fieldsFrom bs skip cur).
Proof.
  induction bs as [|c bs IH]; intros skip cur Hstart Hcur.
  - simpl. now apply (closeField_isToken cur []).
  - cbn -[strings.spaceWidth]. destruct skip as [|skip].
    + destruct (strings.spaceWidth (c :: bs)) as [|w] eqn:Hw.
      * apply IH; [now left|]. intros i Hi. simpl in Hi.
        change (rev (c :: cur)) with (rev cur ++ [c]).
        destruct (decide (i < length cur)%nat) as [Hlt | Hge].
        -- rewrite drop_app_le by (rewrite length_rev; lia).
           rewrite <- app_assoc. now apply Hcur.
        -- assert (i = length cur) as -> by lia.
           rewrite drop_app_ge by (rewrite length_rev; lia).
           rewrite length_rev, Nat.sub_diag. exact Hw.
      * apply Forall_app. split.
        -- now apply (closeField_isToken cur (c :: bs)).
        -- apply IH; [now right|]. intros i Hi. simpl in Hi. lia.
    + destruct Hstart as [Hs | ->]; [discriminate Hs|].
      apply IH; [now right|]. intros i Hi. simpl in Hi. lia.
Qed.

Lemma Fields_isToken (s : string) : Forall isToken (strings.Fields s).
Proof.
  unfold strings.Fields. apply fieldsFrom_isToken; [now left|].
  intros i Hi. simpl in Hi. lia.
Qed.

(** X15.  The coercion of an array depends on the fields of the raw text
    only, and no field is empty: the raw text in which the fields are
    separated by single spaces, without white space around them, coerces to
    the same result, value or error, as the raw text itself. *)
Theorem array_white_space_irrelevant (sub raw : string) (optim : Optimizations) :
  Forall (fun tok => tok <> ""%string) (strings.Fields raw) /\
  ToMMDBType {| Type_ := "array:" +:+ sub;
                Value := strings.Join (strings.Fields raw) " " |} optim
  = ToMMDBType {| Type_ := "array:" +:+ sub; Value := raw |} optim.
Proof.
  pose proof (Fields_isToken raw) as Htok. split.
  - eapply Forall_impl; [exact Htok|]. now intros tok [Hne _].
  - rewrite !ToMMDBType_array. unfold toMMDBArray.
    now rewrite (Fields_Join _ Htok).
Qed.

(** ** Conflicting keys *)

(** X16.  A mapping in which the path of one key is a strict prefix of the
    path of another is not safe to assemble: there is an iteration order,
    one that visits the shorter key first, in which [ToMMDBMap] fails. *)
Theorem conflict_fails_in_some_order (se : SourceEntry) (optim : Optimizations)
  (k1 k2 : string) :
  is_Some (Values se !! k1) -> is_Some (Values se !! k2) ->
  strictPrefix (keyPath k1) (keyPath k2) ->
  exists e, ToMMDBMap se optim (Err e).
Proof.
  intros [sv1 H1] [sv2 H2] Hpre.
  assert (Hne : k1 <> k2).
  { intros ->. destruct Hpre as (rest & Hrest & Heq). apply Hrest.
    apply (f_equal (@length string)) in Heq. rewrite length_app in Heq.
    destruct rest; [reflexivity | simpl in Heq; lia]. }
  apply elem_of_map_to_list in H1, H2.
  destruct (list_elem_of_split _ _ H1) as (a & b & Hsplit).
  assert (Hin : (k2, sv2) ∈ a ++ b).
  { rewrite Hsplit in H2. apply elem_of_app in H2 as [H2 | H2].
    - apply elem_of_app. now left.
    - apply elem_of_cons in H2 as [[= Hk _] | H2]; [now symmetry in Hk|].
      apply elem_of_app. now right. }
  assert (Horder : rangeOrder (Values se) ([] ++ (k1, sv1) :: (a ++ b))).
  { unfold rangeOrder. rewrite Hsplit. simpl. apply Permutation_middle. }
  destruct (prefix_visited_first_fails (Values se) optim [] (a ++ b) k1 k2 sv1 sv2
              Horder Hin Hpre) as (err & Herr).
  exists err, ([] ++ (k1, sv1) :: (a ++ b)). split; [exact Horder | exact Herr].
Qed.

Lemma conflict_fails_in_some_order_witness :
  exists e, ToMMDBMap (entryOf (<["a" := textX]> (<["a.b" := textY]> ∅))) optimNone
              (Err e).
Proof.
  apply (conflict_fails_in_some_order
           (entryOf (<["a" := textX]> (<["a.b" := textY]> ∅))) optimNone "a" "a.b").
  - exists textX. reflexivity.
  - exists textY. reflexivity.
  - exists ["b"%string]. split; [discriminate | reflexivity].
Defined.
